(** * Newton's method for nonlinear systems: package [num], type [NlSolver]

    A shallow embedding of [NlSolver.Init], [NlSolver.SetTols] and
    [NlSolver.Solve].  Go's [float64] is the kernel's binary64 [float], Go's
    [int] a 64-bit two's complement integer kept in [Z], a slice of
    [float64] a [list float].  A Go panic ([chk.Panic] or a run-time panic)
    is the [Panic] outcome of the [result] monad.  The functions of the
    packages [la], [utl] and [num] that the solver calls and whose code is
    kept elsewhere are the fields of the interface [LinAlg]. *)

From Stdlib Require Import ZArith List Floats Lia Bool.
From stdpp Require Import base option list gmap strings.

Set Warnings "-inexact-float".
Local Open Scope Z_scope.

(** ** Go's [int] *)

Module GoInt.

Definition min_int : Z := - 2 ^ 63.
Definition max_int : Z := 2 ^ 63 - 1.

(** Two's complement wrap-around of a 64-bit signed integer. *)
Definition wrap (z : Z) : Z := (z + 2 ^ 63) mod 2 ^ 64 - 2 ^ 63.

Definition add (a b : Z) : Z := wrap (a + b).
Definition mul (a b : Z) : Z := wrap (a * b).

(** [float64(n)]: the nearest binary64 value, ties to even. *)
Definition to_float (n : Z) : float :=
  SF2Prim (binary_normalize 53 1024 n 0 false).

(** [int(v)]: truncation toward zero.  Outside the range of [int] (and for
    NaN) Go leaves the value to the implementation; amd64 gives
    [min_int]. *)
Definition of_float (v : float) : Z :=
  match Prim2SF v with
  | S754_zero _ => 0
  | S754_finite s m e =>
      let a := if 0 <=? e then Zpos m * 2 ^ e else Zpos m / 2 ^ (- e) in
      let z := if s then - a else a in
      if (min_int <=? z) && (z <=? max_int) then z else min_int
  | _ => min_int
  end.

End GoInt.

(** ** Panics and the error monad *)

Inductive panic : Type :=
| InvalidParameter (k : string)
    (* chk.Panic("parameter named %q is invalid\n", k) *)
| Diverging (Θ Ldx LdxPrev : float)
    (* chk.Panic("solver is diverging with Θ = %g (Ldx=%g, LdxPrev=%g)", ...) *)
| CannotConverge (it : Z)
    (* chk.Panic("cannot converge after %d iterations", o.It) *)
| IndexOutOfRange   (* run-time panic: index out of range *)
| NegativeLength    (* run-time panic: makeslice: len out of range *)
| NilCallback       (* run-time panic: call of a nil function value *)
| LinearSystem.     (* panic raised inside a linear algebra routine *)

Inductive result (A : Type) : Type :=
| Ok (a : A)
| Panic (e : panic).
Arguments Ok {A} a.
Arguments Panic {A} e.

#[global] Instance result_ret : MRet result := fun A a => Ok a.
#[global] Instance result_bind : MBind result :=
  fun A B f m => match m with Ok a => f a | Panic e => Panic e end.

Definition of_option {A} (e : panic) (m : option A) : result A :=
  match m with Some a => Ok a | None => Panic e end.

(** ** Vectors ([la.Vector], a slice of [float64]) *)

Definition Vector : Type := list float.

(** [v[i]] *)
Definition vget (v : Vector) (i : Z) : result float :=
  if i <? 0 then Panic IndexOutOfRange
  else of_option IndexOutOfRange (v !! Z.to_nat i).

(** [v[i] = a] *)
Definition vset (v : Vector) (i : Z) (a : float) : result Vector :=
  if (0 <=? i) && (i <? Z.of_nat (length v))
  then Ok (<[Z.to_nat i := a]> v)
  else Panic IndexOutOfRange.

(** [la.NewVector(n)]: [make([]float64, n)], all zeros. *)
Definition NewVector (n : Z) : result Vector :=
  if n <? 0 then Panic NegativeLength
  else Ok (replicate (Z.to_nat n) 0%float).

(** [for i := 0; i < n; i++ { body }] over a state of type [S]. *)
Fixpoint for_from {St : Type} (k : nat) (i : Z) (body : Z -> St -> result St)
    (s : St) : result St :=
  match k with
  | O => Ok s
  | S k' => s' ← body i s; for_from k' (i + 1) body s'
  end.

Definition for_range {St : Type} (n : Z) (body : Z -> St -> result St) (s : St)
    : result St :=
  for_from (Z.to_nat n) 0 body s.

(** Modelled from the spec: [la.VecScaleAbs(scal, a, m, x)], whose code is
    kept in package [la]; the spec gives [scal = atol + rtol·|y|] and the
    call in [Solve] is commented [scal = Atol + Rtol*abs(x)].  One entry
    is written for each entry of [x]; [scal] keeps its further entries. *)
Fixpoint VecScaleAbs (scal : Vector) (a m : float) (x : Vector)
    : result Vector :=
  match x, scal with
  | [], _ => Ok scal
  | xi :: x', _ :: scal' =>
      r ← VecScaleAbs scal' a m x'; Ok ((a + m * abs xi)%float :: r)
  | _ :: _, [] => Panic IndexOutOfRange
  end.

(** Modelled from the spec: [la.Vector.Largest(den)], whose code is kept in
    package [la]: the largest [|u[i]|], divided by [den]. *)
Definition Largest (u : Vector) (den : float) : float :=
  (fold_left (fun m a => if (m <? abs a)%float then abs a else m) u 0
   / den)%float.

(** ** Callbacks and collaborators *)

(** [fun.Vv]: [func(f, x la.Vector)] writes [f]; the model returns the new
    [f] from the old one and [x]. *)
Definition Vv : Type := Vector -> Vector -> Vector.

(** The routines of [la], [utl] and [num] used by the solver. *)
Record LinAlg : Type := {
  Triplet : Type;   (* la.Triplet *)
  Matrix : Type;    (* la.Matrix *)
  Umfpack : Type;   (* la.Umfpack *)
  MACHEPS : float;  (* num.MACHEPS *)
  utl_Max : float -> float -> float;
  utl_Min : float -> float -> float;
  NewMatrix : Z -> Z -> Matrix;
  (* Jtri.Init(m, n, max) *)
  Triplet_Init : Triplet -> Z -> Z -> Z -> Triplet;
  (* a.Get(i, j) *)
  Matrix_Get : Matrix -> Z -> Z -> float;
  (* la.MatInv(ai, a, false): the new ai; None when it panics *)
  MatInv : Matrix -> Matrix -> option Matrix;
  (* lis.Init(&Jtri, args): the solver keeps a pointer to the triplet *)
  Umfpack_Init : Umfpack -> Triplet -> Umfpack;
  (* lis.Fact(), reading the triplet given to Init as it is now; None when
     it panics *)
  Umfpack_Fact : Umfpack -> Triplet -> option Umfpack;
  (* lis.Solve(x, b, false): the new x; None when it panics *)
  Umfpack_Solve : Umfpack -> Vector -> Vector -> option Vector;
  (* la.VecDot(u, v) *)
  VecDot : Vector -> Vector -> float;
  (* la.SpTriMatTrVecMul(y, a, x): the new y *)
  SpTriMatTrVecMul : Vector -> Triplet -> Vector -> Vector;
  (* num.Jacobian(J, ffcn, x, fx, w): the new J and w *)
  Jacobian : Triplet -> Vv -> Vector -> Vector -> Vector -> Triplet * Vector;
  (* num.LineSearch(x, fx, ffcn, dx, x0, dφdx0, φ0, maxIt, dx_is_mdx):
     the number of evaluations, the new x and fx *)
  LineSearch : Vector -> Vector -> Vv -> Vector -> Vector -> Vector ->
               float -> Z -> bool -> Z * Vector * Vector
}.

(** [fun.Tv] and [fun.Mv]: Jacobian callbacks filling a triplet or a dense
    matrix; the model returns the filled one. *)
Definition Tv (la : LinAlg) : Type := Triplet la -> Vector -> Triplet la.
Definition Mv (la : LinAlg) : Type := Matrix la -> Vector -> Matrix la.

(** What a call of [Solve] does to the outside, in order. *)
Inductive Event : Type :=
| EvFfcn (x : Vector)               (* o.Ffcn(o.fx, x) *)
| EvMsg (typ : string) (it : Z) (Ldx fxMax : float) (first last : bool)
| EvOut (x : Vector)                (* o.Out(x) *)
| EvJfcnDn (x : Vector)             (* o.JfcnDn(o.J, x) *)
| EvJfcnSp (x : Vector)             (* o.JfcnSp(&o.Jtri, x) *)
| EvJacobian (x fx : Vector)        (* Jacobian(&o.Jtri, o.Ffcn, x, o.fx, o.w) *)
| EvMatInv                          (* la.MatInv(o.Ji, o.J, false) *)
| EvLisInit                         (* o.lis.Init(&o.Jtri, ...) *)
| EvLisFact                         (* o.lis.Fact() *)
| EvLisSolve (b : Vector)           (* o.lis.Solve(o.mdx, o.fx, false) *)
| EvLineSearch (x : Vector).        (* LineSearch(x, o.fx, ...) *)

Section NlSolver.

Context {la : LinAlg}.

Record NlSolver : Type := mkNlSolver {
  cteJac : bool;  (* constant Jacobian (Modified Newton's method) *)
  linSearch : bool;  (* use linear search *)
  linSchMaxIt : Z;  (* line search maximum iterations *)
  maxIt : Z;  (* Newton's method maximum iterations *)
  chkConv : bool;  (* check convergence *)
  atol : float;  (* absolute tolerance *)
  rtol : float;  (* relative tolerance *)
  ftol : float;  (* minimum value of fx *)
  fnewt : float;  (* [derived] Newton's method tolerance *)
  neq : Z;  (* number of equations *)
  scal : Vector;  (* scaling vector *)
  fx : Vector;  (* f(x) *)
  mdx : Vector;  (* - delta x *)
  useDn : bool;  (* use dense solver (matrix inversion) instead of Umfpack (sparse) *)
  numJ : bool;  (* use numerical Jacobian (with sparse solver) *)
  Ffcn : Vv;  (* f(x) function f:vector, x:vector *)
  JfcnSp : option (Tv la);  (* J(x)=dfdx Jacobian for sparse solver; None is nil *)
  JfcnDn : option (Mv la);  (* J(x)=dfdx Jacobian for dense solver; None is nil *)
  Out : option (Vector -> unit);  (* output callback function; None is nil *)
  Jtri : Triplet la;  (* triplet *)
  w : Vector;  (* workspace *)
  lis : Umfpack la;  (* linear solver *)
  lsReady : bool;  (* linear solver is lsReady *)
  J : Matrix la;  (* dense Jacobian matrix *)
  Ji : Matrix la;  (* inverse of Jacobian matrix *)
  φ : float;
  dφdx : Vector;
  x0 : Vector;
  It : Z;  (* number of iterations from the last call to Solve *)
  NFeval : Z;  (* number of calls to Ffcn (function evaluations) *)
  NJeval : Z  (* number of calls to Jfcn (Jacobian evaluations) *)
}.

Definition set_cteJac (v : bool) (o : NlSolver) : NlSolver :=
  {| cteJac := v; linSearch := linSearch o; linSchMaxIt := linSchMaxIt o;
  maxIt := maxIt o; chkConv := chkConv o; atol := atol o; rtol := rtol o; ftol
  := ftol o; fnewt := fnewt o; neq := neq o; scal := scal o; fx := fx o; mdx
  := mdx o; useDn := useDn o; numJ := numJ o; Ffcn := Ffcn o; JfcnSp := JfcnSp
  o; JfcnDn := JfcnDn o; Out := Out o; Jtri := Jtri o; w := w o; lis := lis o;
  lsReady := lsReady o; J := J o; Ji := Ji o; φ := φ o; dφdx := dφdx o; x0 :=
  x0 o; It := It o; NFeval := NFeval o; NJeval := NJeval o |}.

Definition set_linSearch (v : bool) (o : NlSolver) : NlSolver :=
  {| cteJac := cteJac o; linSearch := v; linSchMaxIt := linSchMaxIt o; maxIt
  := maxIt o; chkConv := chkConv o; atol := atol o; rtol := rtol o; ftol :=
  ftol o; fnewt := fnewt o; neq := neq o; scal := scal o; fx := fx o; mdx :=
  mdx o; useDn := useDn o; numJ := numJ o; Ffcn := Ffcn o; JfcnSp := JfcnSp o;
  JfcnDn := JfcnDn o; Out := Out o; Jtri := Jtri o; w := w o; lis := lis o;
  lsReady := lsReady o; J := J o; Ji := Ji o; φ := φ o; dφdx := dφdx o; x0 :=
  x0 o; It := It o; NFeval := NFeval o; NJeval := NJeval o |}.

Definition set_linSchMaxIt (v : Z) (o : NlSolver) : NlSolver :=
  {| cteJac := cteJac o; linSearch := linSearch o; linSchMaxIt := v; maxIt :=
  maxIt o; chkConv := chkConv o; atol := atol o; rtol := rtol o; ftol := ftol
  o; fnewt := fnewt o; neq := neq o; scal := scal o; fx := fx o; mdx := mdx o;
  useDn := useDn o; numJ := numJ o; Ffcn := Ffcn o; JfcnSp := JfcnSp o; JfcnDn
  := JfcnDn o; Out := Out o; Jtri := Jtri o; w := w o; lis := lis o; lsReady
  := lsReady o; J := J o; Ji := Ji o; φ := φ o; dφdx := dφdx o; x0 := x0 o; It
  := It o; NFeval := NFeval o; NJeval := NJeval o |}.

Definition set_maxIt (v : Z) (o : NlSolver) : NlSolver :=
  {| cteJac := cteJac o; linSearch := linSearch o; linSchMaxIt := linSchMaxIt
  o; maxIt := v; chkConv := chkConv o; atol := atol o; rtol := rtol o; ftol :=
  ftol o; fnewt := fnewt o; neq := neq o; scal := scal o; fx := fx o; mdx :=
  mdx o; useDn := useDn o; numJ := numJ o; Ffcn := Ffcn o; JfcnSp := JfcnSp o;
  JfcnDn := JfcnDn o; Out := Out o; Jtri := Jtri o; w := w o; lis := lis o;
  lsReady := lsReady o; J := J o; Ji := Ji o; φ := φ o; dφdx := dφdx o; x0 :=
  x0 o; It := It o; NFeval := NFeval o; NJeval := NJeval o |}.

Definition set_chkConv (v : bool) (o : NlSolver) : NlSolver :=
  {| cteJac := cteJac o; linSearch := linSearch o; linSchMaxIt := linSchMaxIt
  o; maxIt := maxIt o; chkConv := v; atol := atol o; rtol := rtol o; ftol :=
  ftol o; fnewt := fnewt o; neq := neq o; scal := scal o; fx := fx o; mdx :=
  mdx o; useDn := useDn o; numJ := numJ o; Ffcn := Ffcn o; JfcnSp := JfcnSp o;
  JfcnDn := JfcnDn o; Out := Out o; Jtri := Jtri o; w := w o; lis := lis o;
  lsReady := lsReady o; J := J o; Ji := Ji o; φ := φ o; dφdx := dφdx o; x0 :=
  x0 o; It := It o; NFeval := NFeval o; NJeval := NJeval o |}.

Definition set_atol (v : float) (o : NlSolver) : NlSolver :=
  {| cteJac := cteJac o; linSearch := linSearch o; linSchMaxIt := linSchMaxIt
  o; maxIt := maxIt o; chkConv := chkConv o; atol := v; rtol := rtol o; ftol
  := ftol o; fnewt := fnewt o; neq := neq o; scal := scal o; fx := fx o; mdx
  := mdx o; useDn := useDn o; numJ := numJ o; Ffcn := Ffcn o; JfcnSp := JfcnSp
  o; JfcnDn := JfcnDn o; Out := Out o; Jtri := Jtri o; w := w o; lis := lis o;
  lsReady := lsReady o; J := J o; Ji := Ji o; φ := φ o; dφdx := dφdx o; x0 :=
  x0 o; It := It o; NFeval := NFeval o; NJeval := NJeval o |}.

Definition set_rtol (v : float) (o : NlSolver) : NlSolver :=
  {| cteJac := cteJac o; linSearch := linSearch o; linSchMaxIt := linSchMaxIt
  o; maxIt := maxIt o; chkConv := chkConv o; atol := atol o; rtol := v; ftol
  := ftol o; fnewt := fnewt o; neq := neq o; scal := scal o; fx := fx o; mdx
  := mdx o; useDn := useDn o; numJ := numJ o; Ffcn := Ffcn o; JfcnSp := JfcnSp
  o; JfcnDn := JfcnDn o; Out := Out o; Jtri := Jtri o; w := w o; lis := lis o;
  lsReady := lsReady o; J := J o; Ji := Ji o; φ := φ o; dφdx := dφdx o; x0 :=
  x0 o; It := It o; NFeval := NFeval o; NJeval := NJeval o |}.

Definition set_ftol (v : float) (o : NlSolver) : NlSolver :=
  {| cteJac := cteJac o; linSearch := linSearch o; linSchMaxIt := linSchMaxIt
  o; maxIt := maxIt o; chkConv := chkConv o; atol := atol o; rtol := rtol o;
  ftol := v; fnewt := fnewt o; neq := neq o; scal := scal o; fx := fx o; mdx
  := mdx o; useDn := useDn o; numJ := numJ o; Ffcn := Ffcn o; JfcnSp := JfcnSp
  o; JfcnDn := JfcnDn o; Out := Out o; Jtri := Jtri o; w := w o; lis := lis o;
  lsReady := lsReady o; J := J o; Ji := Ji o; φ := φ o; dφdx := dφdx o; x0 :=
  x0 o; It := It o; NFeval := NFeval o; NJeval := NJeval o |}.

Definition set_fnewt (v : float) (o : NlSolver) : NlSolver :=
  {| cteJac := cteJac o; linSearch := linSearch o; linSchMaxIt := linSchMaxIt
  o; maxIt := maxIt o; chkConv := chkConv o; atol := atol o; rtol := rtol o;
  ftol := ftol o; fnewt := v; neq := neq o; scal := scal o; fx := fx o; mdx :=
  mdx o; useDn := useDn o; numJ := numJ o; Ffcn := Ffcn o; JfcnSp := JfcnSp o;
  JfcnDn := JfcnDn o; Out := Out o; Jtri := Jtri o; w := w o; lis := lis o;
  lsReady := lsReady o; J := J o; Ji := Ji o; φ := φ o; dφdx := dφdx o; x0 :=
  x0 o; It := It o; NFeval := NFeval o; NJeval := NJeval o |}.

Definition set_neq (v : Z) (o : NlSolver) : NlSolver :=
  {| cteJac := cteJac o; linSearch := linSearch o; linSchMaxIt := linSchMaxIt
  o; maxIt := maxIt o; chkConv := chkConv o; atol := atol o; rtol := rtol o;
  ftol := ftol o; fnewt := fnewt o; neq := v; scal := scal o; fx := fx o; mdx
  := mdx o; useDn := useDn o; numJ := numJ o; Ffcn := Ffcn o; JfcnSp := JfcnSp
  o; JfcnDn := JfcnDn o; Out := Out o; Jtri := Jtri o; w := w o; lis := lis o;
  lsReady := lsReady o; J := J o; Ji := Ji o; φ := φ o; dφdx := dφdx o; x0 :=
  x0 o; It := It o; NFeval := NFeval o; NJeval := NJeval o |}.

Definition set_scal (v : Vector) (o : NlSolver) : NlSolver :=
  {| cteJac := cteJac o; linSearch := linSearch o; linSchMaxIt := linSchMaxIt
  o; maxIt := maxIt o; chkConv := chkConv o; atol := atol o; rtol := rtol o;
  ftol := ftol o; fnewt := fnewt o; neq := neq o; scal := v; fx := fx o; mdx
  := mdx o; useDn := useDn o; numJ := numJ o; Ffcn := Ffcn o; JfcnSp := JfcnSp
  o; JfcnDn := JfcnDn o; Out := Out o; Jtri := Jtri o; w := w o; lis := lis o;
  lsReady := lsReady o; J := J o; Ji := Ji o; φ := φ o; dφdx := dφdx o; x0 :=
  x0 o; It := It o; NFeval := NFeval o; NJeval := NJeval o |}.

Definition set_fx (v : Vector) (o : NlSolver) : NlSolver :=
  {| cteJac := cteJac o; linSearch := linSearch o; linSchMaxIt := linSchMaxIt
  o; maxIt := maxIt o; chkConv := chkConv o; atol := atol o; rtol := rtol o;
  ftol := ftol o; fnewt := fnewt o; neq := neq o; scal := scal o; fx := v; mdx
  := mdx o; useDn := useDn o; numJ := numJ o; Ffcn := Ffcn o; JfcnSp := JfcnSp
  o; JfcnDn := JfcnDn o; Out := Out o; Jtri := Jtri o; w := w o; lis := lis o;
  lsReady := lsReady o; J := J o; Ji := Ji o; φ := φ o; dφdx := dφdx o; x0 :=
  x0 o; It := It o; NFeval := NFeval o; NJeval := NJeval o |}.

Definition set_mdx (v : Vector) (o : NlSolver) : NlSolver :=
  {| cteJac := cteJac o; linSearch := linSearch o; linSchMaxIt := linSchMaxIt
  o; maxIt := maxIt o; chkConv := chkConv o; atol := atol o; rtol := rtol o;
  ftol := ftol o; fnewt := fnewt o; neq := neq o; scal := scal o; fx := fx o;
  mdx := v; useDn := useDn o; numJ := numJ o; Ffcn := Ffcn o; JfcnSp := JfcnSp
  o; JfcnDn := JfcnDn o; Out := Out o; Jtri := Jtri o; w := w o; lis := lis o;
  lsReady := lsReady o; J := J o; Ji := Ji o; φ := φ o; dφdx := dφdx o; x0 :=
  x0 o; It := It o; NFeval := NFeval o; NJeval := NJeval o |}.

Definition set_useDn (v : bool) (o : NlSolver) : NlSolver :=
  {| cteJac := cteJac o; linSearch := linSearch o; linSchMaxIt := linSchMaxIt
  o; maxIt := maxIt o; chkConv := chkConv o; atol := atol o; rtol := rtol o;
  ftol := ftol o; fnewt := fnewt o; neq := neq o; scal := scal o; fx := fx o;
  mdx := mdx o; useDn := v; numJ := numJ o; Ffcn := Ffcn o; JfcnSp := JfcnSp
  o; JfcnDn := JfcnDn o; Out := Out o; Jtri := Jtri o; w := w o; lis := lis o;
  lsReady := lsReady o; J := J o; Ji := Ji o; φ := φ o; dφdx := dφdx o; x0 :=
  x0 o; It := It o; NFeval := NFeval o; NJeval := NJeval o |}.

Definition set_numJ (v : bool) (o : NlSolver) : NlSolver :=
  {| cteJac := cteJac o; linSearch := linSearch o; linSchMaxIt := linSchMaxIt
  o; maxIt := maxIt o; chkConv := chkConv o; atol := atol o; rtol := rtol o;
  ftol := ftol o; fnewt := fnewt o; neq := neq o; scal := scal o; fx := fx o;
  mdx := mdx o; useDn := useDn o; numJ := v; Ffcn := Ffcn o; JfcnSp := JfcnSp
  o; JfcnDn := JfcnDn o; Out := Out o; Jtri := Jtri o; w := w o; lis := lis o;
  lsReady := lsReady o; J := J o; Ji := Ji o; φ := φ o; dφdx := dφdx o; x0 :=
  x0 o; It := It o; NFeval := NFeval o; NJeval := NJeval o |}.

Definition set_Ffcn (v : Vv) (o : NlSolver) : NlSolver :=
  {| cteJac := cteJac o; linSearch := linSearch o; linSchMaxIt := linSchMaxIt
  o; maxIt := maxIt o; chkConv := chkConv o; atol := atol o; rtol := rtol o;
  ftol := ftol o; fnewt := fnewt o; neq := neq o; scal := scal o; fx := fx o;
  mdx := mdx o; useDn := useDn o; numJ := numJ o; Ffcn := v; JfcnSp := JfcnSp
  o; JfcnDn := JfcnDn o; Out := Out o; Jtri := Jtri o; w := w o; lis := lis o;
  lsReady := lsReady o; J := J o; Ji := Ji o; φ := φ o; dφdx := dφdx o; x0 :=
  x0 o; It := It o; NFeval := NFeval o; NJeval := NJeval o |}.

Definition set_JfcnSp (v : option (Tv la)) (o : NlSolver) : NlSolver :=
  {| cteJac := cteJac o; linSearch := linSearch o; linSchMaxIt := linSchMaxIt
  o; maxIt := maxIt o; chkConv := chkConv o; atol := atol o; rtol := rtol o;
  ftol := ftol o; fnewt := fnewt o; neq := neq o; scal := scal o; fx := fx o;
  mdx := mdx o; useDn := useDn o; numJ := numJ o; Ffcn := Ffcn o; JfcnSp := v;
  JfcnDn := JfcnDn o; Out := Out o; Jtri := Jtri o; w := w o; lis := lis o;
  lsReady := lsReady o; J := J o; Ji := Ji o; φ := φ o; dφdx := dφdx o; x0 :=
  x0 o; It := It o; NFeval := NFeval o; NJeval := NJeval o |}.

Definition set_JfcnDn (v : option (Mv la)) (o : NlSolver) : NlSolver :=
  {| cteJac := cteJac o; linSearch := linSearch o; linSchMaxIt := linSchMaxIt
  o; maxIt := maxIt o; chkConv := chkConv o; atol := atol o; rtol := rtol o;
  ftol := ftol o; fnewt := fnewt o; neq := neq o; scal := scal o; fx := fx o;
  mdx := mdx o; useDn := useDn o; numJ := numJ o; Ffcn := Ffcn o; JfcnSp :=
  JfcnSp o; JfcnDn := v; Out := Out o; Jtri := Jtri o; w := w o; lis := lis o;
  lsReady := lsReady o; J := J o; Ji := Ji o; φ := φ o; dφdx := dφdx o; x0 :=
  x0 o; It := It o; NFeval := NFeval o; NJeval := NJeval o |}.

Definition set_Jtri (v : Triplet la) (o : NlSolver) : NlSolver :=
  {| cteJac := cteJac o; linSearch := linSearch o; linSchMaxIt := linSchMaxIt
  o; maxIt := maxIt o; chkConv := chkConv o; atol := atol o; rtol := rtol o;
  ftol := ftol o; fnewt := fnewt o; neq := neq o; scal := scal o; fx := fx o;
  mdx := mdx o; useDn := useDn o; numJ := numJ o; Ffcn := Ffcn o; JfcnSp :=
  JfcnSp o; JfcnDn := JfcnDn o; Out := Out o; Jtri := v; w := w o; lis := lis
  o; lsReady := lsReady o; J := J o; Ji := Ji o; φ := φ o; dφdx := dφdx o; x0
  := x0 o; It := It o; NFeval := NFeval o; NJeval := NJeval o |}.

Definition set_w (v : Vector) (o : NlSolver) : NlSolver :=
  {| cteJac := cteJac o; linSearch := linSearch o; linSchMaxIt := linSchMaxIt
  o; maxIt := maxIt o; chkConv := chkConv o; atol := atol o; rtol := rtol o;
  ftol := ftol o; fnewt := fnewt o; neq := neq o; scal := scal o; fx := fx o;
  mdx := mdx o; useDn := useDn o; numJ := numJ o; Ffcn := Ffcn o; JfcnSp :=
  JfcnSp o; JfcnDn := JfcnDn o; Out := Out o; Jtri := Jtri o; w := v; lis :=
  lis o; lsReady := lsReady o; J := J o; Ji := Ji o; φ := φ o; dφdx := dφdx o;
  x0 := x0 o; It := It o; NFeval := NFeval o; NJeval := NJeval o |}.

Definition set_lis (v : Umfpack la) (o : NlSolver) : NlSolver :=
  {| cteJac := cteJac o; linSearch := linSearch o; linSchMaxIt := linSchMaxIt
  o; maxIt := maxIt o; chkConv := chkConv o; atol := atol o; rtol := rtol o;
  ftol := ftol o; fnewt := fnewt o; neq := neq o; scal := scal o; fx := fx o;
  mdx := mdx o; useDn := useDn o; numJ := numJ o; Ffcn := Ffcn o; JfcnSp :=
  JfcnSp o; JfcnDn := JfcnDn o; Out := Out o; Jtri := Jtri o; w := w o; lis :=
  v; lsReady := lsReady o; J := J o; Ji := Ji o; φ := φ o; dφdx := dφdx o; x0
  := x0 o; It := It o; NFeval := NFeval o; NJeval := NJeval o |}.

Definition set_lsReady (v : bool) (o : NlSolver) : NlSolver :=
  {| cteJac := cteJac o; linSearch := linSearch o; linSchMaxIt := linSchMaxIt
  o; maxIt := maxIt o; chkConv := chkConv o; atol := atol o; rtol := rtol o;
  ftol := ftol o; fnewt := fnewt o; neq := neq o; scal := scal o; fx := fx o;
  mdx := mdx o; useDn := useDn o; numJ := numJ o; Ffcn := Ffcn o; JfcnSp :=
  JfcnSp o; JfcnDn := JfcnDn o; Out := Out o; Jtri := Jtri o; w := w o; lis :=
  lis o; lsReady := v; J := J o; Ji := Ji o; φ := φ o; dφdx := dφdx o; x0 :=
  x0 o; It := It o; NFeval := NFeval o; NJeval := NJeval o |}.

Definition set_J (v : Matrix la) (o : NlSolver) : NlSolver :=
  {| cteJac := cteJac o; linSearch := linSearch o; linSchMaxIt := linSchMaxIt
  o; maxIt := maxIt o; chkConv := chkConv o; atol := atol o; rtol := rtol o;
  ftol := ftol o; fnewt := fnewt o; neq := neq o; scal := scal o; fx := fx o;
  mdx := mdx o; useDn := useDn o; numJ := numJ o; Ffcn := Ffcn o; JfcnSp :=
  JfcnSp o; JfcnDn := JfcnDn o; Out := Out o; Jtri := Jtri o; w := w o; lis :=
  lis o; lsReady := lsReady o; J := v; Ji := Ji o; φ := φ o; dφdx := dφdx o;
  x0 := x0 o; It := It o; NFeval := NFeval o; NJeval := NJeval o |}.

Definition set_Ji (v : Matrix la) (o : NlSolver) : NlSolver :=
  {| cteJac := cteJac o; linSearch := linSearch o; linSchMaxIt := linSchMaxIt
  o; maxIt := maxIt o; chkConv := chkConv o; atol := atol o; rtol := rtol o;
  ftol := ftol o; fnewt := fnewt o; neq := neq o; scal := scal o; fx := fx o;
  mdx := mdx o; useDn := useDn o; numJ := numJ o; Ffcn := Ffcn o; JfcnSp :=
  JfcnSp o; JfcnDn := JfcnDn o; Out := Out o; Jtri := Jtri o; w := w o; lis :=
  lis o; lsReady := lsReady o; J := J o; Ji := v; φ := φ o; dφdx := dφdx o; x0
  := x0 o; It := It o; NFeval := NFeval o; NJeval := NJeval o |}.

Definition set_φ (v : float) (o : NlSolver) : NlSolver :=
  {| cteJac := cteJac o; linSearch := linSearch o; linSchMaxIt := linSchMaxIt
  o; maxIt := maxIt o; chkConv := chkConv o; atol := atol o; rtol := rtol o;
  ftol := ftol o; fnewt := fnewt o; neq := neq o; scal := scal o; fx := fx o;
  mdx := mdx o; useDn := useDn o; numJ := numJ o; Ffcn := Ffcn o; JfcnSp :=
  JfcnSp o; JfcnDn := JfcnDn o; Out := Out o; Jtri := Jtri o; w := w o; lis :=
  lis o; lsReady := lsReady o; J := J o; Ji := Ji o; φ := v; dφdx := dφdx o;
  x0 := x0 o; It := It o; NFeval := NFeval o; NJeval := NJeval o |}.

Definition set_dφdx (v : Vector) (o : NlSolver) : NlSolver :=
  {| cteJac := cteJac o; linSearch := linSearch o; linSchMaxIt := linSchMaxIt
  o; maxIt := maxIt o; chkConv := chkConv o; atol := atol o; rtol := rtol o;
  ftol := ftol o; fnewt := fnewt o; neq := neq o; scal := scal o; fx := fx o;
  mdx := mdx o; useDn := useDn o; numJ := numJ o; Ffcn := Ffcn o; JfcnSp :=
  JfcnSp o; JfcnDn := JfcnDn o; Out := Out o; Jtri := Jtri o; w := w o; lis :=
  lis o; lsReady := lsReady o; J := J o; Ji := Ji o; φ := φ o; dφdx := v; x0
  := x0 o; It := It o; NFeval := NFeval o; NJeval := NJeval o |}.

Definition set_x0 (v : Vector) (o : NlSolver) : NlSolver :=
  {| cteJac := cteJac o; linSearch := linSearch o; linSchMaxIt := linSchMaxIt
  o; maxIt := maxIt o; chkConv := chkConv o; atol := atol o; rtol := rtol o;
  ftol := ftol o; fnewt := fnewt o; neq := neq o; scal := scal o; fx := fx o;
  mdx := mdx o; useDn := useDn o; numJ := numJ o; Ffcn := Ffcn o; JfcnSp :=
  JfcnSp o; JfcnDn := JfcnDn o; Out := Out o; Jtri := Jtri o; w := w o; lis :=
  lis o; lsReady := lsReady o; J := J o; Ji := Ji o; φ := φ o; dφdx := dφdx o;
  x0 := v; It := It o; NFeval := NFeval o; NJeval := NJeval o |}.

Definition set_It (v : Z) (o : NlSolver) : NlSolver :=
  {| cteJac := cteJac o; linSearch := linSearch o; linSchMaxIt := linSchMaxIt
  o; maxIt := maxIt o; chkConv := chkConv o; atol := atol o; rtol := rtol o;
  ftol := ftol o; fnewt := fnewt o; neq := neq o; scal := scal o; fx := fx o;
  mdx := mdx o; useDn := useDn o; numJ := numJ o; Ffcn := Ffcn o; JfcnSp :=
  JfcnSp o; JfcnDn := JfcnDn o; Out := Out o; Jtri := Jtri o; w := w o; lis :=
  lis o; lsReady := lsReady o; J := J o; Ji := Ji o; φ := φ o; dφdx := dφdx o;
  x0 := x0 o; It := v; NFeval := NFeval o; NJeval := NJeval o |}.

Definition set_NFeval (v : Z) (o : NlSolver) : NlSolver :=
  {| cteJac := cteJac o; linSearch := linSearch o; linSchMaxIt := linSchMaxIt
  o; maxIt := maxIt o; chkConv := chkConv o; atol := atol o; rtol := rtol o;
  ftol := ftol o; fnewt := fnewt o; neq := neq o; scal := scal o; fx := fx o;
  mdx := mdx o; useDn := useDn o; numJ := numJ o; Ffcn := Ffcn o; JfcnSp :=
  JfcnSp o; JfcnDn := JfcnDn o; Out := Out o; Jtri := Jtri o; w := w o; lis :=
  lis o; lsReady := lsReady o; J := J o; Ji := Ji o; φ := φ o; dφdx := dφdx o;
  x0 := x0 o; It := It o; NFeval := v; NJeval := NJeval o |}.

Definition set_NJeval (v : Z) (o : NlSolver) : NlSolver :=
  {| cteJac := cteJac o; linSearch := linSearch o; linSchMaxIt := linSchMaxIt
  o; maxIt := maxIt o; chkConv := chkConv o; atol := atol o; rtol := rtol o;
  ftol := ftol o; fnewt := fnewt o; neq := neq o; scal := scal o; fx := fx o;
  mdx := mdx o; useDn := useDn o; numJ := numJ o; Ffcn := Ffcn o; JfcnSp :=
  JfcnSp o; JfcnDn := JfcnDn o; Out := Out o; Jtri := Jtri o; w := w o; lis :=
  lis o; lsReady := lsReady o; J := J o; Ji := Ji o; φ := φ o; dφdx := dφdx o;
  x0 := x0 o; It := It o; NFeval := NFeval o; NJeval := v |}.
(** ** The state of one call of [Solve]

    The solver [o], the caller's slice [x] (updated in place), the local
    variables of [Solve] and the calls made so far. *)

Record state : Type := mkState {
  slv : NlSolver;
  xs : Vector;
  Ldx : float;      (* RMS norm of delta x *)
  LdxPrev : float;
  Θ : float;        (* convergence rate *)
  fxMax : float;
  nfv : Z;
  trace : list Event
}.

Definition upd (f : NlSolver -> NlSolver) (s : state) : state :=
  {| slv := f (slv s); xs := xs s; Ldx := Ldx s; LdxPrev := LdxPrev s;
     Θ := Θ s; fxMax := fxMax s; nfv := nfv s; trace := trace s |}.

Definition set_xs (v : Vector) (s : state) : state :=
  {| slv := slv s; xs := v; Ldx := Ldx s; LdxPrev := LdxPrev s;
     Θ := Θ s; fxMax := fxMax s; nfv := nfv s; trace := trace s |}.

Definition set_Ldx (v : float) (s : state) : state :=
  {| slv := slv s; xs := xs s; Ldx := v; LdxPrev := LdxPrev s;
     Θ := Θ s; fxMax := fxMax s; nfv := nfv s; trace := trace s |}.

Definition set_LdxPrev (v : float) (s : state) : state :=
  {| slv := slv s; xs := xs s; Ldx := Ldx s; LdxPrev := v;
     Θ := Θ s; fxMax := fxMax s; nfv := nfv s; trace := trace s |}.

Definition set_Θ (v : float) (s : state) : state :=
  {| slv := slv s; xs := xs s; Ldx := Ldx s; LdxPrev := LdxPrev s;
     Θ := v; fxMax := fxMax s; nfv := nfv s; trace := trace s |}.

Definition set_fxMax (v : float) (s : state) : state :=
  {| slv := slv s; xs := xs s; Ldx := Ldx s; LdxPrev := LdxPrev s;
     Θ := Θ s; fxMax := v; nfv := nfv s; trace := trace s |}.

Definition set_nfv (v : Z) (s : state) : state :=
  {| slv := slv s; xs := xs s; Ldx := Ldx s; LdxPrev := LdxPrev s;
     Θ := Θ s; fxMax := fxMax s; nfv := v; trace := trace s |}.

Definition emit (e : Event) (s : state) : state :=
  {| slv := slv s; xs := xs s; Ldx := Ldx s; LdxPrev := LdxPrev s;
     Θ := Θ s; fxMax := fxMax s; nfv := nfv s; trace := trace s ++ [e] |}.

(** [o.msg(typ, it, Ldx, fxMax, first, last)] prints; [if !silent]. *)
Definition msg (silent : bool) (typ : string) (it : Z) (l f : float)
    (first last : bool) (s : state) : state :=
  if silent then s else emit (EvMsg typ it l f first last) s.

(** [if o.Out != nil { o.Out(x) }] *)
Definition output (s : state) : state :=
  match Out (slv s) with
  | Some _ => emit (EvOut (xs s)) s
  | None => s
  end.

(** ** [SetTols] *)

Definition SetTols (Atol Rtol Ftol ϵ : float) (o : NlSolver) : NlSolver :=
  let o := set_ftol Ftol (set_rtol Rtol (set_atol Atol o)) in
  set_fnewt
    (utl_Max la (10 * ϵ / Rtol) (utl_Min la 0.03 (sqrt Rtol)))%float o.

(** ** [Init] *)

Local Open Scope string_scope.

(** The body of [switch k] in the loop over [prms]; the tolerances are
    local variables of [Init] until [SetTols] stores them. *)
Definition read_param (k : string) (v : float)
    (st : NlSolver * (float * float * float))
    : result (NlSolver * (float * float * float)) :=
  let '(o, (atol, rtol, ftol)) := st in
  if String.eqb k "cteJac" then Ok (set_cteJac (0 <? v)%float o, (atol, rtol, ftol))
  else if String.eqb k "linSearch" then Ok (set_linSearch (0 <? v)%float o, (atol, rtol, ftol))
  else if String.eqb k "linSchMaxIt" then Ok (set_linSchMaxIt (GoInt.of_float v) o, (atol, rtol, ftol))
  else if String.eqb k "maxIt" then Ok (set_maxIt (GoInt.of_float v) o, (atol, rtol, ftol))
  else if String.eqb k "chkConv" then Ok (set_chkConv (0 <? v)%float o, (atol, rtol, ftol))
  else if String.eqb k "atol" then Ok (o, (v, rtol, ftol))
  else if String.eqb k "rtol" then Ok (o, (atol, v, ftol))
  else if String.eqb k "ftol" then Ok (o, (atol, rtol, v))
  else Panic (InvalidParameter k).

(** [for k, v := range prms], the entries taken in the order [kvs]. *)
Fixpoint read_params (kvs : list (string * float))
    (st : NlSolver * (float * float * float))
    : result (NlSolver * (float * float * float)) :=
  match kvs with
  | [] => Ok st
  | (k, v) :: kvs' => st' ← read_param k v st; read_params kvs' st'
  end.

(** [Init], the entries of [prms] visited in the order [kvs] (Go leaves the
    order of a [range] over a map open). *)
Definition Init_in_order (kvs : list (string * float)) (neq0 : Z) (Ffcn0 : Vv)
    (JfcnSp0 : option (Tv la)) (JfcnDn0 : option (Mv la))
    (useDn0 numJ0 : bool) (o : NlSolver) : result NlSolver :=
  (* set default values *)
  let o := set_cteJac false o in
  let o := set_linSearch false o in
  let o := set_linSchMaxIt 20 o in
  let o := set_maxIt 20 o in
  let o := set_chkConv false o in
  (* read parameters *)
  '(o, (atol, rtol, ftol)) ← read_params kvs (o, (1e-8, 1e-8, 1e-9)%float);
  (* set tolerances *)
  let o := SetTols atol rtol ftol (MACHEPS la) o in
  (* auxiliary data *)
  let o := set_neq neq0 o in
  v ← NewVector (neq o); let o := set_scal v o in
  v ← NewVector (neq o); let o := set_fx v o in
  v ← NewVector (neq o); let o := set_mdx v o in
  (* callbacks *)
  let o := set_JfcnDn JfcnDn0 (set_JfcnSp JfcnSp0 (set_Ffcn Ffcn0 o)) in
  (* type of linear solver and Jacobian matrix *)
  let o := set_numJ numJ0 (set_useDn useDn0 o) in
  o ← (if useDn o then
         let o := set_J (NewMatrix la (neq o) (neq o)) o in
         Ok (set_Ji (NewMatrix la (neq o) (neq o)) o)
       else
         let o :=
           set_Jtri (Triplet_Init la (Jtri o) (neq o) (neq o)
                       (GoInt.mul (neq o) (neq o))) o in
         let o := match JfcnSp0 with None => set_numJ true o | Some _ => o end in
         if numJ o then v ← NewVector (neq o); Ok (set_w v o) else Ok o);
  (* allocate slices for line search *)
  v ← NewVector (neq o); let o := set_dφdx v o in
  v ← NewVector (neq o); Ok (set_x0 v o).

Definition Init (neq0 : Z) (Ffcn0 : Vv) (JfcnSp0 : option (Tv la))
    (JfcnDn0 : option (Mv la)) (useDn0 numJ0 : bool)
    (prms : gmap string float) (o : NlSolver) : result NlSolver :=
  Init_in_order (map_to_list prms) neq0 Ffcn0 JfcnSp0 JfcnDn0 useDn0 numJ0 o.

Local Close Scope string_scope.

(** ** [Solve] *)

Inductive flow : Type :=
| Continue   (* the body of the loop ran to its end *)
| Break.     (* the body left the loop with break *)

(** [o.Ffcn(o.fx, x)] *)
Definition eval_f (s : state) : state :=
  let o := slv s in
  emit (EvFfcn (xs s)) (upd (set_fx (Ffcn o (fx o) (xs s))) s).

(** evaluate Jacobian @ x *)
Definition eval_jacobian (s : state) : result state :=
  let o := slv s in
  if (It o =? 0) || negb (cteJac o) then
    s ← (if useDn o then
           f ← of_option NilCallback (JfcnDn o);
           Ok (emit (EvJfcnDn (xs s)) (upd (set_J (f (J o) (xs s))) s))
         else if numJ o then
           let '(jt, wk) := Jacobian la (Jtri o) (Ffcn o) (xs s) (fx o) (w o) in
           let s := emit (EvJacobian (xs s) (fx o))
                         (upd (fun o => set_w wk (set_Jtri jt o)) s) in
           Ok (upd (fun o => set_NFeval (GoInt.add (NFeval o) (neq o)) o) s)
         else
           f ← of_option NilCallback (JfcnSp o);
           Ok (emit (EvJfcnSp (xs s)) (upd (set_Jtri (f (Jtri o) (xs s))) s)));
    Ok (upd (fun o => set_NJeval (GoInt.add (NJeval o) 1) o) s)
  else Ok s.

(** The inner loop of the dense solution: row [i] of [mdx = inv(J) * fx]
    and of [dφdx = tra(J) * fx]. *)
Definition dense_row (i j : Z) (o : NlSolver) : result NlSolver :=
  m ← vget (mdx o) i;
  fj ← vget (fx o) j;
  v ← vset (mdx o) i (m + Matrix_Get la (Ji o) i j * fj)%float;
  let o := set_mdx v o in
  d ← vget (dφdx o) i;
  fj ← vget (fx o) j;
  v ← vset (dφdx o) i (d + Matrix_Get la (J o) j i * fj)%float;
  Ok (set_dφdx v o).

(** dense solution: invert matrix, solve linear system (compute mdx) and
    compute lin-search data *)
Definition dense_solution (s : state) : result state :=
  let o := slv s in
  ji ← of_option LinearSystem (MatInv la (Ji o) (J o));
  let o := set_Ji ji o in
  let o := set_φ 0%float o in
  o ← for_range (neq o) (fun i o =>
         v ← vset (mdx o) i 0%float;
         u ← vset (dφdx o) i 0%float;
         let o := set_dφdx u (set_mdx v o) in
         o ← for_range (neq o) (dense_row i) o;
         fi ← vget (fx o) i;
         Ok (set_φ (φ o + fi * fi)%float o)) o;
  let o := set_φ (φ o * 0.5)%float o in
  Ok (emit EvMatInv (upd (fun _ => o) s)).

(** sparse solution: init sparse solver, factorisation (must be done for
    all iterations), solve linear system, compute lin-search data *)
Definition sparse_solution (s : state) : result state :=
  let s :=
    if lsReady (slv s) then s
    else emit EvLisInit
           (upd (fun o => set_lsReady true
                            (set_lis (Umfpack_Init la (lis o) (Jtri o)) o)) s) in
  l ← of_option LinearSystem (Umfpack_Fact la (lis (slv s)) (Jtri (slv s)));
  let s := emit EvLisFact (upd (set_lis l) s) in
  let o := slv s in
  v ← of_option LinearSystem (Umfpack_Solve la (lis o) (mdx o) (fx o));
  let s := emit (EvLisSolve (fx o)) (upd (set_mdx v) s) in
  if linSearch (slv s) then
    let s := upd (fun o => set_φ (0.5 * VecDot la (fx o) (fx o))%float o) s in
    Ok (upd (fun o => set_dφdx (SpTriMatTrVecMul la (dφdx o) (Jtri o) (fx o)) o) s)
  else Ok s.

(** update x: [x0 = x], [x -= mdx] and the scaled RMS norm of [mdx] *)
Definition update_x (s : state) : result state :=
  let s := set_Ldx 0%float s in
  s ← for_range (neq (slv s)) (fun i s =>
         xi ← vget (xs s) i;
         v ← vset (x0 (slv s)) i xi;
         let s := upd (set_x0 v) s in
         xi ← vget (xs s) i;
         mi ← vget (mdx (slv s)) i;
         v ← vset (xs s) i (xi - mi)%float;
         let s := set_xs v s in
         mi ← vget (mdx (slv s)) i;
         sc ← vget (scal (slv s)) i;
         Ok (set_Ldx (Ldx s + (mi / sc) * (mi / sc))%float s)) s;
  Ok (set_Ldx (sqrt (Ldx s / GoInt.to_float (neq (slv s))))%float s).

(** call line-search => update x and fx; the norm of [x - x0] *)
Definition line_search (s : state) : result state :=
  let o := slv s in
  let '(n, x', fx') :=
    LineSearch la (xs s) (fx o) (Ffcn o) (mdx o) (x0 o) (dφdx o) (φ o)
               (linSchMaxIt o) true in
  let s := emit (EvLineSearch (xs s)) (set_nfv n (set_xs x' (upd (set_fx fx') s))) in
  let s := upd (fun o => set_NFeval (GoInt.add (NFeval o) (nfv s)) o) s in
  let s := set_Ldx 0%float s in
  s ← for_range (neq (slv s)) (fun i s =>
         xi ← vget (xs s) i;
         x0i ← vget (x0 (slv s)) i;
         sc ← vget (scal (slv s)) i;
         Ok (set_Ldx (Ldx s + ((xi - x0i) / sc) * ((xi - x0i) / sc))%float s)) s;
  let s := set_Ldx (sqrt (Ldx s / GoInt.to_float (neq (slv s))))%float s in
  Ok (set_fxMax (Largest (fx (slv s)) 1) s).

(** check convergence rate *)
Definition check_rate (s : state) : result state :=
  if (0 <? It (slv s)) && chkConv (slv s) then
    let s := set_Θ (Ldx s / LdxPrev s)%float s in
    if (0.99 <? Θ s)%float then Panic (Diverging (Θ s) (Ldx s) (LdxPrev s))
    else Ok s
  else Ok s.

Local Open Scope string_scope.

(** The Newton update of one pass: message, output, Jacobian, linear solve,
    update of [x], and [fx := f(x)] at the updated [x]. *)
Definition newton_update (silent : bool) (s : state) : result state :=
  let s := msg silent "" (It (slv s)) (Ldx s) (fxMax s) false false s in
  let s := output s in
  s ← eval_jacobian s;
  s ← (if useDn (slv s) then dense_solution s else sparse_solution s);
  s ← update_x s;
  let s := eval_f s in
  Ok (upd (fun o => set_NFeval (GoInt.add (NFeval o) 1) o) s).

(** The body of the loop up to its last [break]: [Break] with the state in
    which the loop is left, or [Continue] with the state in which the
    convergence rate is checked. *)
Definition newton_pass (silent : bool) (s : state) : result (flow * state) :=
  (* check convergence on f(x) *)
  let s := set_fxMax (Largest (fx (slv s)) 1) s in
  if (fxMax s <? ftol (slv s))%float then
    Ok (Break, msg silent "fxMax(ini)" (It (slv s)) (Ldx s) (fxMax s) false true s)
  else
    s ← newton_update silent s;
    (* check convergence on f(x) => avoid line-search if converged already *)
    let s := set_fxMax (Largest (fx (slv s)) 1) s in
    if (fxMax s <? ftol (slv s))%float then
      Ok (Break, msg silent "fxMax" (It (slv s)) (Ldx s) (fxMax s) false true s)
    (* check convergence on Ldx *)
    else if (Ldx s <? fnewt (slv s))%float then
      Ok (Break, msg silent "Ldx" (It (slv s)) (Ldx s) (fxMax s) false true s)
    (* call line-search => update x and fx *)
    else if linSearch (slv s) then
      s ← line_search s;
      if (Ldx s <? fnewt (slv s))%float then
        Ok (Break,
            msg silent "Ldx(linsrch)" (It (slv s)) (Ldx s) (fxMax s) false true s)
      else Ok (Continue, s)
    else Ok (Continue, s).

Local Close Scope string_scope.

(** The body of [for o.It = 0; o.It < o.maxIt; o.It++]: the pass, then the
    check of the convergence rate and [LdxPrev = Ldx]. *)
Definition iteration (silent : bool) (s : state) : result (flow * state) :=
  r ← newton_pass silent s;
  match r with
  | (Break, s) => Ok (Break, s)
  | (Continue, s) => s ← check_rate s; Ok (Continue, set_LdxPrev (Ldx s) s)
  end.

(** [o.It++]; below [o.maxIt] it cannot overflow. *)
Definition next_It (s : state) : state := upd (fun o => set_It (It o + 1) o) s.

(** The loop, entered with [o.It] set and [n] passes left before
    [o.It < o.maxIt] fails. *)
Fixpoint loop (silent : bool) (n : nat) (s : state) : result (flow * state) :=
  match n with
  | O => Ok (Continue, s)
  | S n' =>
      r ← iteration silent s;
      match r with
      | (Break, s') => Ok (Break, s')
      | (Continue, s') => loop silent n' (next_It s')
      end
  end.

(** The state in which the loop is entered: scaling vector, [fx := f(x)],
    the counters reset, the first message, [o.It = 0]. *)
Definition enter (o : NlSolver) (x : Vector) (silent : bool) : result state :=
  (* compute scaling vector *)
  sc ← VecScaleAbs (scal o) (atol o) (rtol o) x;
  let s := {| slv := set_scal sc o; xs := x; Ldx := 0%float;
              LdxPrev := 0%float; Θ := 0%float; fxMax := 0%float; nfv := 0;
              trace := [] |} in
  (* evaluate function @ x *)
  let s := eval_f s in
  let s := upd (fun o => set_NJeval 0 (set_NFeval 1 o)) s in
  (* show message *)
  let s := msg silent EmptyString 0 0%float 0%float true false s in
  Ok (upd (set_It 0) s).

(** [Solve] solves non-linear problem f(x) == 0 *)
Definition Solve (o : NlSolver) (x : Vector) (silent : bool) : result state :=
  s ← enter o x silent;
  '(_, s) ← loop silent (Z.to_nat (maxIt (slv s))) s;
  (* output *)
  let s := output s in
  (* check convergence *)
  if It (slv s) =? maxIt (slv s) then Panic (CannotConverge (It (slv s)))
  else Ok s.

(** ** Notions used to state the properties *)

(** The fields of the solver that the steps of [Solve] read and none of
    them writes once the loop is entered. *)
Definition settings (o : NlSolver) :=
  (cteJac o, linSearch o, linSchMaxIt o, maxIt o, chkConv o,
   atol o, rtol o, ftol o, fnewt o, neq o, scal o, useDn o, numJ o,
   Ffcn o, Out o, It o).

(** The state in which pass [k] (counted from the state [s] given) is
    entered, when the [k] passes before it ran to their end. *)
Fixpoint at_pass (silent : bool) (k : nat) (s : state) : option state :=
  match k with
  | O => Some s
  | S k' =>
      match iteration silent s with
      | Ok (Continue, s') => at_pass silent k' (next_It s')
      | _ => None
      end
  end.

(** One term of the sum of squares. *)
Definition sq_term (a : float) (p : float * float) : float :=
  (a + (fst p / snd p) * (fst p / snd p))%float.

(** The spec's norm [sqrt(mean((dx_i/scal_i)^2))] over the first [n]
    entries, summed in the order of the index. *)
Definition scaled_rms (dx scal : Vector) (n : Z) : float :=
  sqrt (fold_left sq_term
          (zip (take (Z.to_nat n) dx) (take (Z.to_nat n) scal)) 0
        / GoInt.to_float n)%float.

(** The option names [Init] accepts. *)
Definition accepted_options : list string :=
  ["cteJac"; "linSearch"; "linSchMaxIt"; "maxIt"; "chkConv"; "atol"; "rtol";
   "ftol"]%string.

(** The number of calls of a kind among the calls made. *)
Fixpoint count (p : Event -> bool) (t : list Event) : Z :=
  match t with
  | [] => 0
  | e :: t' => (if p e then 1 else 0) + count p t'
  end.

(** An evaluation of the Jacobian, by a callback or numerically. *)
Definition is_jacobian (e : Event) : bool :=
  match e with
  | EvJfcnDn _ | EvJfcnSp _ | EvJacobian _ _ => true
  | _ => false
  end.

(** A factorisation: [lis.Fact()], or [la.MatInv] in the dense mode. *)
Definition is_factorisation (e : Event) : bool :=
  match e with
  | EvMatInv | EvLisFact => true
  | _ => false
  end.

(** An evaluation of [f] made by [Solve] itself. *)
Definition is_evaluation (e : Event) : bool :=
  match e with
  | EvFfcn _ => true
  | _ => false
  end.

(** The two counters of the solver. *)
Definition counters (o : NlSolver) : Z * Z := (NFeval o, NJeval o).

(** The test [o.It == 0 || !o.cteJac] under which a pass evaluates the
    Jacobian. *)
Definition jacobian_due (o : NlSolver) : bool :=
  (It o =? 0) || negb (cteJac o).

(** What holds of the calls made so far when a pass is entered with
    [cteJac] set: one factorisation and one evaluation of [f] for each
    pass made, and the Jacobian evaluated in the first pass only. *)
Definition modified_newton_calls (s : state) : Prop :=
  0 <= It (slv s) /\
  count is_factorisation (trace s) = It (slv s) /\
  count is_evaluation (trace s) = It (slv s) + 1 /\
  count is_jacobian (trace s) = NJeval (slv s) /\
  NJeval (slv s) = (if It (slv s) =? 0 then 0 else 1).

(** [LineSearch] reports between 0 and [B] evaluations of [f]. *)
Definition LineSearch_within (B : Z) : Prop :=
  forall x fx f dx x0 d φ m b,
    0 <= fst (fst (LineSearch la x fx f dx x0 d φ m b)) <= B.

(** [o.fx] holds a value of [f] at the present [x]. *)
Definition residual_current (s : state) : Prop :=
  exists f0, fx (slv s) = Ffcn (slv s) f0 (xs s).

(** Given a value of [f] at [x], [LineSearch] leaves in [fx] a value of
    [f] at the [x] it leaves. *)
Definition LineSearch_consistent (F : Vv) : Prop :=
  forall x fx dx x0 d φ m b,
    (exists f0, fx = F f0 x) ->
    exists f0,
      snd (LineSearch la x fx F dx x0 d φ m b) =
      F f0 (snd (fst (LineSearch la x fx F dx x0 d φ m b))).

End NlSolver.

Arguments NlSolver la : clear implicits.
Arguments state la : clear implicits.
Arguments LineSearch_within la B : clear implicits.
Arguments LineSearch_consistent la F : clear implicits.

(** ** A concrete instance: systems of one equation

    The collaborators for [neq = 1]: a triplet and a matrix hold the single
    entry, the factorisation is the entry itself, the numerical Jacobian is
    a forward difference with the residual at the base point, and the line
    search leaves [x] and [fx] as they are without evaluating [f]. *)

Module Scalar.

Definition la1 : LinAlg := {|
  Triplet := float;
  Matrix := float;
  Umfpack := float;
  MACHEPS := 0x1p-52%float;
  utl_Max := fun a b => if (b <? a)%float then a else b;
  utl_Min := fun a b => if (a <? b)%float then a else b;
  NewMatrix := fun _ _ => 0%float;
  Triplet_Init := fun t _ _ _ => 0%float;
  Matrix_Get := fun m _ _ => m;
  MatInv := fun _ a => if (a =? 0)%float then None else Some (1 / a)%float;
  Umfpack_Init := fun l _ => l;
  Umfpack_Fact := fun _ t => if (t =? 0)%float then None else Some t;
  Umfpack_Solve := fun l x b =>
    match x, b with
    | [_], [b0] => Some [(b0 / l)%float]
    | _, _ => None
    end;
  VecDot := fun u v =>
    fold_left (fun a p => (a + fst p * snd p)%float) (zip u v) 0%float;
  SpTriMatTrVecMul := fun y a x => map (fun xi => (a * xi)%float) x;
  Jacobian := fun _ f x fx w =>
    match x, fx with
    | [x0], [f0] =>
        let δ := 0x1p-26%float in
        let w' := f w [(x0 + δ)%float] in
        (match w' with [w0] => ((w0 - f0) / δ)%float | _ => 0%float end, w')
    | _, _ => (0%float, w)
    end;
  LineSearch := fun x fx _ _ _ _ _ _ _ => (0, x, fx)
|}.

(** The zero value of [NlSolver] ([var nls NlSolver]); [Ffcn] is given at
    once, since the model has no nil for it. *)
Definition zero (f : Vv) : NlSolver la1 := {|
  cteJac := false; linSearch := false; linSchMaxIt := 0; maxIt := 0;
  chkConv := false; atol := 0; rtol := 0; ftol := 0; fnewt := 0; neq := 0;
  scal := []; fx := []; mdx := []; useDn := false; numJ := false;
  Ffcn := f; JfcnSp := None; JfcnDn := None; Out := None;
  Jtri := (0%float : Triplet la1); w := []; lis := (0%float : Umfpack la1);
  lsReady := false; J := (0%float : Matrix la1); Ji := (0%float : Matrix la1);
  φ := 0; dφdx := []; x0 := []; It := 0; NFeval := 0; NJeval := 0 |}.

(** [f(x) = x*x - 2] and its derivative. *)
Definition sq2 : Vv := fun _ x => map (fun xi => (xi * xi - 2)%float) x.
Definition sq2_J : float -> Vector -> float :=
  fun _ x => match x with [x0] => (2 * x0)%float | _ => 0%float end.

(** [f(x) = x*x*x - 2*x + 2] and its derivative: from [x = 0] Newton's
    method moves between 0 and 1 for ever. *)
Definition cubic : Vv :=
  fun _ x => map (fun xi => (xi * xi * xi - 2 * xi + 2)%float) x.
Definition cubic_J : float -> Vector -> float :=
  fun _ x => match x with [x0] => (3 * x0 * x0 - 2)%float | _ => 0%float end.

(** [f(x) = x]. *)
Definition ident : Vv := fun _ x => x.
Definition ident_J : float -> Vector -> float := fun _ _ => 1%float.

(** [nls.Init(1, f, jf, nil, false, numJ, prms)] on a zero solver: sparse
    solver; and [nls.Init(1, f, nil, jf, true, false, prms)]: dense. *)
Definition init_sparse (f : Vv) (jf : float -> Vector -> float) (numJ0 : bool)
    (prms : gmap string float) : result (NlSolver la1) :=
  Init 1 f (Some (jf : Tv la1)) None false numJ0 prms (zero f).
Definition init_dense (f : Vv) (jf : float -> Vector -> float)
    (prms : gmap string float) : result (NlSolver la1) :=
  Init 1 f None (Some (jf : Mv la1)) true false prms (zero f).

(** The values of results that are known to be [Ok]. *)
Definition blank : state la1 :=
  {| slv := zero ident; xs := []; Ldx := 0%float; LdxPrev := 0%float;
     Θ := 0%float; fxMax := 0%float; nfv := 0; trace := [] |}.
Definition the_solver (r : result (NlSolver la1)) : NlSolver la1 :=
  match r with Ok o => o | Panic _ => zero ident end.
Definition the_state (r : result (state la1)) : state la1 :=
  match r with
  | Ok s => s
  | Panic _ => blank
  end.
Definition the_pass (k : nat) (s : state la1) : state la1 :=
  match at_pass true k s with
  | Some s' => s'
  | None => blank
  end.

Local Open Scope string_scope.

(** [x*x - 2 = 0] from [x = 1] with loose tolerances. *)
Definition loose : gmap string float :=
  {[ "atol" := 1%float; "rtol" := 0.01%float ]}.
Definition o_loose : NlSolver la1 := the_solver (init_sparse sq2 sq2_J false loose).

(** [x = 0] from [x = 0]: the first guess is the root. *)
Definition o_ident : NlSolver la1 := the_solver (init_sparse ident ident_J false ∅).
Definition o_ident_maxIt0 : NlSolver la1 :=
  the_solver (init_sparse ident ident_J false {[ "maxIt" := 0%float ]}).

(** [x*x - 2 = 0] with the default tolerances and two passes allowed. *)
Definition o_two_passes : NlSolver la1 :=
  the_solver (init_sparse sq2 sq2_J false {[ "maxIt" := 2%float ]}).

(** The cubic from [x = 0], without and with the check of the rate. *)
Definition o_cubic : NlSolver la1 := the_solver (init_sparse cubic cubic_J false ∅).
Definition o_cubic_chk : NlSolver la1 :=
  the_solver (init_sparse cubic cubic_J false {[ "chkConv" := 1%float ]}).

(** [x*x - 2 = 0] with loose tolerances and a constant Jacobian. *)
Definition o_modified : NlSolver la1 :=
  the_solver (init_sparse sq2 sq2_J false
                {[ "cteJac" := 1%float; "atol" := 1%float; "rtol" := 0.01%float ]}).

(** [x*x - 2 = 0] with no analytic Jacobian: [nls.Init(1, f, nil, nil,
    false, false, prms)]. *)
Definition init_numerical_order : list (string * float) :=
  [("atol", 1%float); ("rtol", 0.01%float)].
Definition init_numerical : result (NlSolver la1) :=
  Init_in_order init_numerical_order 1 sq2 None None false false (zero sq2).
Definition o_numerical : NlSolver la1 := the_solver init_numerical.

(** A parameter map with a name [Init] does not know. *)
Definition with_unknown : gmap string float :=
  {[ "maxIt" := 5%float; "tol" := 1e-6%float ]}.

Local Close Scope string_scope.

End Scalar.


(** ** Further notions used to state properties *)

Section Further.

Context {la : LinAlg}.

(** [o.Out = f] *)
Definition set_Out (v : option (Vector -> unit)) (o : NlSolver la)
    : NlSolver la :=
  {| cteJac := cteJac o; linSearch := linSearch o;
     linSchMaxIt := linSchMaxIt o; maxIt := maxIt o; chkConv := chkConv o;
     atol := atol o; rtol := rtol o; ftol := ftol o; fnewt := fnewt o;
     neq := neq o; scal := scal o; fx := fx o; mdx := mdx o;
     useDn := useDn o; numJ := numJ o; Ffcn := Ffcn o; JfcnSp := JfcnSp o;
     JfcnDn := JfcnDn o; Out := v; Jtri := Jtri o; w := w o; lis := lis o;
     lsReady := lsReady o; J := J o; Ji := Ji o; φ := φ o; dφdx := dφdx o;
     x0 := x0 o; It := It o; NFeval := NFeval o; NJeval := NJeval o |}.

(** The options of the solver: what [Init] and [SetTols] configure. *)
Definition options (o : NlSolver la) :=
  (cteJac o, linSearch o, linSchMaxIt o, maxIt o, chkConv o,
   atol o, rtol o, ftol o, fnewt o, neq o, useDn o, numJ o).

(** The panics of the Go run time and of the linear algebra routines, as
    opposed to the two that [Solve] raises itself. *)
Definition runtime_panic (e : panic) : Prop :=
  e = IndexOutOfRange \/ e = NilCallback \/ e = LinearSystem.

(** A message printed by [msg]. *)
Definition is_msg (e : Event) : bool :=
  match e with
  | EvMsg _ _ _ _ _ _ => true
  | _ => false
  end.

(** The calls made, without the messages. *)
Definition unmsg (t : list Event) : list Event :=
  List.filter (fun e => negb (is_msg e)) t.

(** A state of [Solve] with the messages left out of its calls. *)
Definition quiet (s : state la) : state la :=
  {| slv := slv s; xs := xs s; Ldx := Ldx s; LdxPrev := LdxPrev s;
     Θ := Θ s; fxMax := fxMax s; nfv := nfv s; trace := unmsg (trace s) |}.

(** The outcome with a function applied to its value. *)
Definition result_map {A B : Type} (f : A -> B) (r : result A) : result B :=
  match r with
  | Ok a => Ok (f a)
  | Panic e => Panic e
  end.

(** The call that evaluates the Jacobian in the state [s]. *)
Definition jacobian_call (s : state la) : Event :=
  if useDn (slv s) then EvJfcnDn (xs s)
  else if numJ (slv s) then EvJacobian (xs s) (fx (slv s))
  else EvJfcnSp (xs s).

(** The calls that solve the linear system in the state [s]. *)
Definition solution_calls (s : state la) : list Event :=
  if useDn (slv s) then [EvMatInv]
  else (if lsReady (slv s) then [] else [EvLisInit])
       ++ [EvLisFact; EvLisSolve (fx (slv s))].

(** The calls of the Newton update that takes [s] to [s']. *)
Definition update_calls (silent : bool) (s s' : state la) : list Event :=
  (if silent then []
   else [EvMsg EmptyString (It (slv s)) (Ldx s) (fxMax s) false false])
  ++ match Out (slv s) with Some _ => [EvOut (xs s)] | None => [] end
  ++ (if jacobian_due (slv s) then [jacobian_call s] else [])
  ++ solution_calls s ++ [EvFfcn (xs s')].

(** A kind of call that is neither a message nor a line search. *)
Definition plain (p : Event -> bool) : Prop :=
  (forall t i l f a b, p (EvMsg t i l f a b) = false) /\
  (forall x, p (EvLineSearch x) = false).

(** A call of the output callback. *)
Definition is_out (e : Event) : bool :=
  match e with
  | EvOut _ => true
  | _ => false
  end.

(** The initialisation of the sparse solver. *)
Definition is_lis_init (e : Event) : bool :=
  match e with
  | EvLisInit => true
  | _ => false
  end.

(** A call on the sparse solver. *)
Definition is_lis (e : Event) : bool :=
  match e with
  | EvLisInit | EvLisFact | EvLisSolve _ => true
  | _ => false
  end.

(** A call of the dense routines. *)
Definition is_dense (e : Event) : bool :=
  match e with
  | EvMatInv | EvJfcnDn _ => true
  | _ => false
  end.

(** A numerical evaluation of the Jacobian. *)
Definition is_numerical (e : Event) : bool :=
  match e with
  | EvJacobian _ _ => true
  | _ => false
  end.

(** A line search. *)
Definition is_line_search (e : Event) : bool :=
  match e with
  | EvLineSearch _ => true
  | _ => false
  end.

(** The calls made by [Solve] on the solver [o] when [n] Newton updates
    are done: a factorisation and an evaluation of [f] for each (and the
    evaluation at entry), [Out] once for each when it is set, the sparse
    solver initialised once unless it was ready, no call on the sparse
    solver in the dense mode and none of the dense routines in the sparse
    one; the sparse solver is ready after the first update. *)
Definition calls_after (o : NlSolver la) (n : Z) (s : state la) : Prop :=
  count is_factorisation (trace s) = n /\
  count is_evaluation (trace s) = n + 1 /\
  count is_out (trace s) = match Out o with Some _ => n | None => 0 end /\
  count is_lis_init (trace s) =
    (if useDn o || lsReady o || (n =? 0) then 0 else 1) /\
  (useDn o = true -> count is_lis (trace s) = 0) /\
  (useDn o = false -> count is_dense (trace s) = 0) /\
  lsReady (slv s) = lsReady o || (negb (useDn o) && negb (n =? 0)).

End Further.

(** The value [Init] gives to a flag for the parameters [prms]: [v > 0]
    for the [v] of the key, [false] without the key. *)
Definition flag_option (prms : gmap string float) (k : string) : bool :=
  match prms !! k with
  | Some v => (0 <? v)%float
  | None => false
  end.

(** The value [Init] gives to a limit: [int(v)], or the default [d]. *)
Definition int_option (prms : gmap string float) (k : string) (d : Z) : Z :=
  match prms !! k with
  | Some v => GoInt.of_float v
  | None => d
  end.

(** The value [Init] gives to a tolerance: [v], or the default [d]. *)
Definition float_option (prms : gmap string float) (k : string) (d : float)
    : float :=
  match prms !! k with
  | Some v => v
  | None => d
  end.

(** [acc + sum_k a(j+k)·u_k], the terms added in the order of the
    indices, as a loop [for j ... { acc += a(j) * u[j] }] computes it. *)
Fixpoint dot_from (a : Z -> float) (j : Z) (u : list float) (acc : float)
    : float :=
  match u with
  | [] => acc
  | f :: u' => dot_from a (j + 1) u' (acc + a j * f)%float
  end.

(** [sum_{j<n} a(j)·u_j], added from 0. *)
Definition dot_upto (a : Z -> float) (u : Vector) (n : Z) : float :=
  dot_from a 0 (take (Z.to_nat n) u) 0%float.

(** [sum_{i<n} u_i·u_i], added from 0. *)
Definition sq_upto (u : Vector) (n : Z) : float :=
  fold_left (fun acc f => (acc + f * f)%float) (take (Z.to_nat n) u) 0%float.

(** ** Further solvers of one equation *)

Module More.

(** [x*x - 2 = 0] with loose tolerances and an output callback. *)
Definition o_out : NlSolver Scalar.la1 :=
  set_Out (Some (fun _ => tt)) Scalar.o_loose.

(** The same with the dense solver. *)
Definition o_dense : NlSolver Scalar.la1 :=
  Scalar.the_solver (Scalar.init_dense Scalar.sq2 Scalar.sq2_J Scalar.loose).

End More.
(** * Properties *)

(** ** The error monad *)

Lemma bind_Ok {A B} (m : result A) (f : A -> result B) (b : B) :
  m ≫= f = Ok b -> exists a, m = Ok a /\ f a = Ok b.
Proof. destruct m as [a|e]; simpl; [eauto | discriminate]. Qed.

Ltac inv_bind H :=
  let a := fresh "r" in
  let Ha := fresh "E" in
  apply bind_Ok in H; destruct H as (a & Ha & H).

(** Inverts a hypothesis [c = Ok s'] where [c] is built from binds,
    conditionals and lets. *)
Ltac inv_ok :=
  repeat match goal with
  | H : Panic _ = Ok _ |- _ => discriminate H
  | H : Ok _ = Ok _ |- _ => injection H as H; try subst
  | H : (_ ≫= _) = Ok _ |- _ => inv_bind H
  | H : of_option _ ?m = Ok _ |- _ => destruct m eqn:?; simpl in H
  | H : (if ?b then _ else _) = Ok _ |- _ => destruct b eqn:?
  | H : (let '(_, _) := ?p in _) = Ok _ |- _ => destruct p eqn:?
  | H : match ?p with Some _ => _ | None => _ end = Ok _ |- _ =>
      destruct p eqn:?
  end.

Lemma for_from_preserves {S X : Type} (g : S -> X) (body : Z -> S -> result S) :
  (forall i s s', body i s = Ok s' -> g s' = g s) ->
  forall k i s s', for_from k i body s = Ok s' -> g s' = g s.
Proof.
  intros Hb k. induction k as [|k IH]; simpl; intros i s s' H.
  - congruence.
  - inv_bind H. rewrite (IH _ _ _ H). eauto.
Qed.

Lemma for_range_preserves {S X : Type} (g : S -> X) (body : Z -> S -> result S) :
  (forall i s s', body i s = Ok s' -> g s' = g s) ->
  forall n s s', for_range n body s = Ok s' -> g s' = g s.
Proof. intros Hb n s s'. apply for_from_preserves, Hb. Qed.

Section Frame.

Context {la : LinAlg}.
Implicit Types (o : NlSolver la) (s : state la).

Lemma eval_jacobian_settings s s' :
  eval_jacobian s = Ok s' -> settings (slv s') = settings (slv s).
Proof. unfold eval_jacobian. intros H. inv_ok; reflexivity. Qed.

Lemma dense_row_settings i j o o' :
  dense_row i j o = Ok o' -> settings o' = settings o.
Proof. unfold dense_row. intros H. inv_ok. reflexivity. Qed.

Lemma dense_solution_settings s s' :
  dense_solution s = Ok s' -> settings (slv s') = settings (slv s).
Proof.
  unfold dense_solution. intros H. inv_ok. simpl.
  apply (for_range_preserves settings) in E0; [exact E0|].
  clear. intros i o o' H. inv_ok.
  apply (for_range_preserves settings) in E1; [|apply dense_row_settings].
  exact E1.
Qed.

Lemma sparse_solution_settings s s' :
  sparse_solution s = Ok s' -> settings (slv s') = settings (slv s).
Proof.
  unfold sparse_solution. intros H.
  destruct (lsReady (slv s)); inv_ok; reflexivity.
Qed.

Lemma update_x_settings s s' :
  update_x s = Ok s' -> settings (slv s') = settings (slv s).
Proof.
  unfold update_x. intros H. inv_ok. simpl.
  apply (for_range_preserves (fun s => settings (slv s))) in E; [exact E|].
  clear. intros i s s' H. inv_ok. reflexivity.
Qed.

Lemma line_search_settings s s' :
  line_search s = Ok s' -> settings (slv s') = settings (slv s).
Proof.
  unfold line_search. intros H. inv_ok. simpl.
  apply (for_range_preserves (fun s => settings (slv s))) in E; [exact E|].
  clear. intros i s s' H. inv_ok. reflexivity.
Qed.

Lemma check_rate_slv s s' : check_rate s = Ok s' -> slv s' = slv s.
Proof. unfold check_rate. intros H. inv_ok; reflexivity. Qed.

Lemma msg_slv silent typ it l f a b s :
  slv (msg silent typ it l f a b s) = slv s.
Proof. unfold msg. destruct silent; reflexivity. Qed.

Lemma output_slv s : slv (output s) = slv s.
Proof. unfold output. destruct (Out (slv s)); reflexivity. Qed.

Lemma msg_xs silent typ it l f a b s :
  xs (msg silent typ it l f a b s) = xs s.
Proof. unfold msg. destruct silent; reflexivity. Qed.

Lemma output_xs s : xs (output s) = xs s.
Proof. unfold output. destruct (Out (slv s)); reflexivity. Qed.

Lemma newton_update_settings silent s s' :
  newton_update silent s = Ok s' -> settings (slv s') = settings (slv s).
Proof.
  unfold newton_update. intros H. inv_ok; simpl.
  all: apply eval_jacobian_settings in E; rewrite output_slv, msg_slv in E.
  all: apply update_x_settings in E1.
  - apply dense_solution_settings in E0.
    transitivity (settings (slv r1)); [reflexivity | congruence].
  - apply sparse_solution_settings in E0.
    transitivity (settings (slv r1)); [reflexivity | congruence].
Qed.

Lemma newton_pass_settings silent s fl s' :
  newton_pass silent s = Ok (fl, s') -> settings (slv s') = settings (slv s).
Proof.
  unfold newton_pass. intros H. inv_ok; rewrite ?msg_slv; simpl; try reflexivity.
  all: apply newton_update_settings in E; simpl in E; try exact E.
  all: apply line_search_settings in E0; simpl in E0; congruence.
Qed.

Lemma iteration_settings silent s fl s' :
  iteration silent s = Ok (fl, s') -> settings (slv s') = settings (slv s).
Proof.
  unfold iteration. intros H. inv_bind H. destruct r as [[] s1].
  - inv_ok. apply check_rate_slv in E0. apply newton_pass_settings in E.
    simpl. congruence.
  - inv_ok. eapply newton_pass_settings, E.
Qed.

End Frame.

(** ** The passes of the loop *)

Section Loop.

Context {la : LinAlg}.
Implicit Types (o : NlSolver la) (s : state la).

Lemma at_pass_S silent k s s' :
  at_pass silent (S k) s = Some s' ->
  exists s1 s2, at_pass silent k s = Some s1 /\
    iteration silent s1 = Ok (Continue, s2) /\ s' = next_It s2.
Proof.
  revert s. induction k as [|k IH]; intros s H.
  - simpl in H. destruct (iteration silent s) as [[[] s2]|] eqn:E; try discriminate.
    injection H as <-. exists s, s2. simpl. auto.
  - change (at_pass silent (S (S k)) s) with
      (match iteration silent s with
       | Ok (Continue, s') => at_pass silent (S k) (next_It s')
       | _ => None
       end) in H.
    destruct (iteration silent s) as [[[] s2]|] eqn:E; try discriminate.
    apply IH in H. destruct H as (s1 & s3 & H1 & H2 & ->).
    exists s1, s3. simpl. rewrite E. auto.
Qed.

Lemma at_pass_inv (P : state la -> Prop) silent :
  (forall s s', P s -> iteration silent s = Ok (Continue, s') -> P (next_It s')) ->
  forall k s s', P s -> at_pass silent k s = Some s' -> P s'.
Proof.
  intros Hstep k. induction k as [|k IH]; simpl; intros s s' HP H.
  - congruence.
  - destruct (iteration silent s) as [[[] s2]|] eqn:E; try discriminate. eauto.
Qed.

Lemma loop_exhausted silent n s s' :
  at_pass silent n s = Some s' -> loop silent n s = Ok (Continue, s').
Proof.
  revert s. induction n as [|n IH]; simpl; intros s H.
  - congruence.
  - destruct (iteration silent s) as [[[] s2]|]; try discriminate. simpl. auto.
Qed.

Lemma loop_break silent n k s s1 s' :
  (k < n)%nat -> at_pass silent k s = Some s1 ->
  iteration silent s1 = Ok (Break, s') -> loop silent n s = Ok (Break, s').
Proof.
  revert n s. induction k as [|k IH]; intros n s Hk H Hit.
  - destruct n; [lia|]. simpl in *. injection H as ->. rewrite Hit. reflexivity.
  - destruct n; [lia|]. simpl in *.
    destruct (iteration silent s) as [[[] s2]|]; try discriminate. simpl.
    apply IH; [lia | assumption | assumption].
Qed.

Lemma loop_panic silent n k s s1 e :
  (k < n)%nat -> at_pass silent k s = Some s1 ->
  iteration silent s1 = Panic e -> loop silent n s = Panic e.
Proof.
  revert n s. induction k as [|k IH]; intros n s Hk H Hit.
  - destruct n; [lia|]. simpl in *. injection H as ->. rewrite Hit. reflexivity.
  - destruct n; [lia|]. simpl in *.
    destruct (iteration silent s) as [[[] s2]|]; try discriminate. simpl.
    apply IH; [lia | assumption | assumption].
Qed.

(** The loop ends in one of two ways. *)
Lemma loop_cases silent n s fl s' :
  loop silent n s = Ok (fl, s') ->
  (fl = Continue /\ at_pass silent n s = Some s') \/
  (fl = Break /\ exists k s1, (k < n)%nat /\ at_pass silent k s = Some s1 /\
                  iteration silent s1 = Ok (Break, s')).
Proof.
  revert s. induction n as [|n IH]; simpl; intros s H.
  - injection H as <- <-. auto.
  - destruct (iteration silent s) as [[[] s2]|] eqn:E; simpl in H; try discriminate.
    + apply IH in H. destruct H as [[-> H]|[-> (k & s1 & Hk & H1 & H2)]]; [auto|].
      right. split; [reflexivity|]. exists (S k), s1. simpl. rewrite E.
      split; [lia|auto].
    + injection H as <- <-. right. split; [reflexivity|].
      exists O, s. simpl. split; [lia|auto].
Qed.

(** Across the passes only [o.It] moves among the settings. *)
Lemma at_pass_settings silent k s s' :
  at_pass silent k s = Some s' ->
  settings (slv s') = settings (set_It (It (slv s) + Z.of_nat k) (slv s)).
Proof.
  revert s. induction k as [|k IH]; intros s H.
  - simpl in H. injection H as <-. unfold settings. simpl.
    rewrite Z.add_0_r. reflexivity.
  - simpl in H.
    destruct (iteration silent s) as [[[] s2]|] eqn:E; try discriminate.
    apply IH in H. apply iteration_settings in E. rewrite H.
    unfold settings in *. simpl in *.
    injection E as -> -> -> -> -> -> -> -> -> -> -> -> -> -> -> ->.
    replace (It (slv s) + Z.of_nat (S k)) with (It (slv s) + 1 + Z.of_nat k) by lia.
    reflexivity.
Qed.

End Loop.

(** ** Entering and leaving [Solve] *)

Section SolveFacts.

Context {la : LinAlg}.
Implicit Types (o : NlSolver la) (s : state la).

Lemma enter_spec o x silent s0 :
  enter o x silent = Ok s0 ->
  exists sc, VecScaleAbs (scal o) (atol o) (rtol o) x = Ok sc /\
    slv s0 = set_It 0 (set_NJeval 0 (set_NFeval 1
               (set_fx (Ffcn o (fx o) x) (set_scal sc o)))) /\
    xs s0 = x /\ Ldx s0 = 0%float /\ LdxPrev s0 = 0%float.
Proof.
  unfold enter. intros H. inv_ok. exists r. split; [assumption|].
  destruct silent; simpl; auto.
Qed.

Lemma enter_settings o x silent s0 :
  enter o x silent = Ok s0 ->
  exists sc, VecScaleAbs (scal o) (atol o) (rtol o) x = Ok sc /\
    settings (slv s0) = settings (set_It 0 (set_scal sc o)).
Proof.
  intros H. apply enter_spec in H. destruct H as (sc & H1 & H2 & _).
  exists sc. split; [assumption|]. rewrite H2. reflexivity.
Qed.

(** The settings in pass [k] of a call. *)
Lemma pass_settings o x silent s0 k s :
  enter o x silent = Ok s0 -> at_pass silent k s0 = Some s ->
  exists sc, VecScaleAbs (scal o) (atol o) (rtol o) x = Ok sc /\
    settings (slv s) = settings (set_It (Z.of_nat k) (set_scal sc o)).
Proof.
  intros H0 Hk. apply enter_settings in H0. destruct H0 as (sc & Hsc & H0).
  exists sc. split; [assumption|].
  apply at_pass_settings in Hk. rewrite Hk. unfold settings in *. simpl in *.
  injection H0 as -> -> -> -> -> -> -> -> -> -> -> -> -> -> -> ->.
  reflexivity.
Qed.

(** A pass that leaves the loop by [break] ends the call normally. *)
Lemma Solve_break o x silent s0 k s s' :
  enter o x silent = Ok s0 -> at_pass silent k s0 = Some s ->
  (Z.of_nat k < maxIt o) -> iteration silent s = Ok (Break, s') ->
  Solve o x silent = Ok (output s') /\ It (slv s') = Z.of_nat k.
Proof.
  intros H0 Hk Hlt Hit. unfold Solve. rewrite H0. simpl.
  destruct (pass_settings _ _ _ _ _ _ H0 Hk) as (sc & _ & Hs).
  destruct (enter_settings _ _ _ _ H0) as (sc' & _ & Hs0).
  apply iteration_settings in Hit as Hs'. rewrite Hs in Hs'.
  unfold settings in Hs0, Hs'. simpl in Hs0, Hs'.
  injection Hs0 as _ _ _ Hm0 _ _ _ _ _ _ _ _ _ _ _ _.
  injection Hs' as _ _ _ Hm _ _ _ _ _ _ _ _ _ _ _ HIt.
  rewrite (loop_break silent (Z.to_nat (maxIt (slv s0))) k s0 s s');
    [| rewrite Hm0; lia | assumption | assumption ].
  simpl. rewrite output_slv, HIt, Hm.
  destruct (Z.eqb_spec (Z.of_nat k) (maxIt o)); [lia|]. auto.
Qed.

(** A panic in a pass is the outcome of the call. *)
Lemma Solve_panic o x silent s0 k s e :
  enter o x silent = Ok s0 -> at_pass silent k s0 = Some s ->
  (Z.of_nat k < maxIt o) -> iteration silent s = Panic e ->
  Solve o x silent = Panic e.
Proof.
  intros H0 Hk Hlt Hit. unfold Solve. rewrite H0. simpl.
  destruct (enter_settings _ _ _ _ H0) as (sc' & _ & Hs0).
  unfold settings in Hs0. simpl in Hs0.
  injection Hs0 as _ _ _ Hm0 _ _ _ _ _ _ _ _ _ _ _ _.
  rewrite (loop_panic silent (Z.to_nat (maxIt (slv s0))) k s0 s e);
    [reflexivity | rewrite Hm0; lia | assumption | assumption ].
Qed.

(** When every pass runs to its end the call panics. *)
Lemma Solve_exhausted o x silent s0 s' :
  enter o x silent = Ok s0 -> 0 <= maxIt o ->
  at_pass silent (Z.to_nat (maxIt o)) s0 = Some s' ->
  Solve o x silent = Panic (CannotConverge (maxIt o)).
Proof.
  intros H0 Hle Hn. unfold Solve. rewrite H0. simpl.
  destruct (pass_settings _ _ _ _ _ _ H0 Hn) as (sc & _ & Hs).
  destruct (enter_settings _ _ _ _ H0) as (sc' & _ & Hs0).
  unfold settings in Hs0, Hs. simpl in Hs0, Hs.
  injection Hs0 as _ _ _ Hm0 _ _ _ _ _ _ _ _ _ _ _ _.
  injection Hs as _ _ _ Hm _ _ _ _ _ _ _ _ _ _ _ HIt.
  rewrite Hm0, (loop_exhausted _ _ _ _ Hn). simpl.
  rewrite output_slv, HIt, Hm, Z2Nat.id, Z.eqb_refl by assumption.
  reflexivity.
Qed.

End SolveFacts.

(** ** The scaled norm of the increment *)

Lemma vget_Ok (v : Vector) (i : Z) (a : float) :
  vget v i = Ok a -> 0 <= i /\ v !! Z.to_nat i = Some a.
Proof.
  unfold vget. destruct (Z.ltb_spec i 0) as [|Hi]; [discriminate|].
  destruct (v !! Z.to_nat i); simpl; intros Hv; inv_ok. auto.
Qed.

Lemma for_from_ind {St : Type} (P : Z -> St -> Prop)
    (body : Z -> St -> result St) :
  (forall j s s', P j s -> body j s = Ok s' -> P (j + 1) s') ->
  forall k i s s', P i s -> for_from k i body s = Ok s' -> P (i + Z.of_nat k) s'.
Proof.
  intros Hb k. induction k as [|k IH]; simpl for_from; intros i s s' HP H.
  - injection H as <-. rewrite Z.add_0_r. assumption.
  - inv_bind H. replace (i + Z.of_nat (S k)) with (i + 1 + Z.of_nat k) by lia.
    eauto.
Qed.

Lemma sq_sum_step (dx scal : Vector) (j : Z) (d sc : float) :
  0 <= j -> dx !! Z.to_nat j = Some d -> scal !! Z.to_nat j = Some sc ->
  fold_left sq_term
    (zip (take (Z.to_nat (j + 1)) dx) (take (Z.to_nat (j + 1)) scal)) 0%float =
  (fold_left sq_term (zip (take (Z.to_nat j) dx) (take (Z.to_nat j) scal)) 0
   + (d / sc) * (d / sc))%float.
Proof.
  intros Hj Hd Hs. rewrite Z2Nat.inj_add by lia.
  change (Z.to_nat 1) with 1%nat. rewrite Nat.add_1_r.
  rewrite (take_S_r _ _ _ Hd), (take_S_r _ _ _ Hs).
  apply lookup_lt_Some in Hd, Hs.
  rewrite zip_with_app; [| rewrite !length_take; lia].
  rewrite fold_left_app. reflexivity.
Qed.

Section Norm.

Context {la : LinAlg}.
Implicit Types (o : NlSolver la) (s : state la).

(** [update_x] leaves [Ldx] at the scaled norm of [mdx]. *)
Lemma update_x_Ldx s s' :
  update_x s = Ok s' ->
  Ldx s' = scaled_rms (mdx (slv s)) (scal (slv s)) (neq (slv s)) /\
  mdx (slv s') = mdx (slv s).
Proof.
  unfold update_x, for_range. intros H. inv_ok.
  set (m0 := mdx (slv s)) in *. set (sc0 := scal (slv s)) in *.
  apply (for_from_ind (fun j t =>
           0 <= j /\ mdx (slv t) = m0 /\ scal (slv t) = sc0 /\
           neq (slv t) = neq (slv s) /\
           Ldx t = fold_left sq_term
                     (zip (take (Z.to_nat j) m0) (take (Z.to_nat j) sc0)) 0%float))
    in E.
  - simpl in E. destruct E as (_ & Hm & _ & Hn & HL).
    rewrite Z.add_0_l, Nat2Z.id in HL. simpl. unfold scaled_rms.
    rewrite HL, Hn. auto.
  - clear. intros j t t' (Hj & Hm & Hs & Hn & HL) H. inv_ok. simpl in *.
    repeat match goal with
    | H : vget _ _ = Ok _ |- _ => apply vget_Ok in H as [_ H]
    end.
    rewrite Hm, Hs in *.
    repeat split; try assumption; try lia.
    rewrite HL. symmetry. apply sq_sum_step; assumption.
  - simpl. repeat split; try reflexivity.
Qed.

End Norm.

Section Increment.

Context {la : LinAlg}.
Implicit Types (o : NlSolver la) (s : state la).

Lemma newton_update_Ldx silent s s1 :
  newton_update silent s = Ok s1 ->
  Ldx s1 = scaled_rms (mdx (slv s1)) (scal (slv s1)) (neq (slv s1)).
Proof.
  unfold newton_update. intros H. inv_bind H. inv_bind H. inv_bind H.
  injection H as <-. clear E E0.
  apply update_x_settings in E1 as Hs. apply update_x_Ldx in E1 as [HL Hm].
  unfold settings in Hs. simpl in *.
  injection Hs as _ _ _ _ _ _ _ _ _ Hn Hsc _ _ _ _ _.
  rewrite HL, Hm, Hn, Hsc. reflexivity.
Qed.

Local Open Scope string_scope.

(** After the update of a pass, an increment below [fnewt] leaves the loop
    (with the message of the residual test when that one holds too). *)
Lemma iteration_break_on_Ldx silent s s1 :
  (Largest (fx (slv s)) 1 <? ftol (slv s))%float = false ->
  newton_update silent (set_fxMax (Largest (fx (slv s)) 1) s) = Ok s1 ->
  (Ldx s1 <? fnewt (slv s1))%float = true ->
  exists typ,
    (typ = "fxMax" \/ typ = "Ldx") /\
    iteration silent s =
    Ok (Break, msg silent typ (It (slv s1)) (Ldx s1) (Largest (fx (slv s1)) 1)
                 false true (set_fxMax (Largest (fx (slv s1)) 1) s1)).
Proof.
  intros Hini Hup HL. unfold iteration, newton_pass. simpl.
  rewrite Hini, Hup. simpl.
  destruct (Largest (fx (slv s1)) 1 <? ftol (slv s1))%float.
  - exists "fxMax". auto.
  - rewrite HL. exists "Ldx". auto.
Qed.

Local Close Scope string_scope.

End Increment.

(** ** The ways [Solve] returns *)

Section Returns.

Context {la : LinAlg}.
Implicit Types (o : NlSolver la) (s : state la).

(** A normal return comes from a [break] in some pass, or from a negative
    [maxIt], with which the loop is not entered. *)
Lemma Solve_Ok_cases o x silent s' :
  Solve o x silent = Ok s' ->
  exists s0 s1, enter o x silent = Ok s0 /\ s' = output s1 /\
    ((maxIt o < 0 /\ s1 = s0) \/
     (exists k s, Z.of_nat k < maxIt o /\ at_pass silent k s0 = Some s /\
                  iteration silent s = Ok (Break, s1))).
Proof.
  unfold Solve. intros H. inv_bind H. rename r into s0. inv_bind H.
  destruct r as [fl s1]. exists s0, s1. split; [assumption|].
  destruct (enter_settings _ _ _ _ E) as (sc & _ & Hs0).
  unfold settings in Hs0. simpl in Hs0.
  injection Hs0 as _ _ _ Hm0 _ _ _ _ _ _ _ _ _ _ _ HI0.
  rewrite output_slv in H.
  destruct (Z.eqb_spec (It (slv s1)) (maxIt (slv s1))) as [|Hne];
    [discriminate|]. injection H as <-. split; [reflexivity|].
  apply loop_cases in E0.
  destruct E0 as [[-> Hn]|[-> (k & s & Hk & Hp & Hit)]].
  - left. apply at_pass_settings in Hn as Hs. unfold settings in Hs.
    simpl in Hs. injection Hs as _ _ _ Hm _ _ _ _ _ _ _ _ _ _ _ HI.
    rewrite Hm0 in *. rewrite HI0 in HI.
    assert (maxIt o < 0) as Hneg by lia. split; [assumption|].
    rewrite Z2Nat.nonpos in Hn by lia. simpl in Hn. congruence.
  - right. exists k, s. rewrite Hm0 in Hk. split; [lia|]. auto.
Qed.

End Returns.

(** ** The scaling vector *)

Lemma VecScaleAbs_lookup (scal : Vector) (a m : float) (x r : Vector) :
  VecScaleAbs scal a m x = Ok r ->
  forall (i : nat) (xi : float),
    x !! i = Some xi -> r !! i = Some (a + m * abs xi)%float.
Proof.
  revert scal r. induction x as [|x0 x IH]; intros scal r H i xi Hi.
  - destruct i; discriminate.
  - destruct scal as [|s0 scal]; simpl in H; [discriminate|].
    inv_bind H. injection H as <-. destruct i as [|i]; simpl in *.
    + congruence.
    + eauto.
Qed.

Lemma VecScaleAbs_total (scal : Vector) (a m : float) (x : Vector) :
  (length x <= length scal)%nat -> exists r, VecScaleAbs scal a m x = Ok r.
Proof.
  revert scal. induction x as [|x0 x IH]; intros scal H.
  - destruct scal; simpl; eauto.
  - destruct scal as [|s0 scal]; simpl in *; [lia|].
    destruct (IH scal) as [r ->]; [lia|]. simpl. eauto.
Qed.

(** ** Reading the parameters *)

Section Parameters.

Context {la : LinAlg}.
Implicit Types (o : NlSolver la).

Lemma read_param_unknown k v (st : NlSolver la * (float * float * float)) :
  k ∉ accepted_options -> read_param k v st = Panic (InvalidParameter k).
Proof.
  intros Hk. destruct st as [o [[a r] f]]. unfold read_param.
  repeat match goal with
  | |- context [String.eqb k ?n] =>
      destruct (String.eqb_spec k n) as [->|?];
        [exfalso; apply Hk; unfold accepted_options; set_solver|]
  end.
  reflexivity.
Qed.

Lemma read_params_unknown (kvs : list (string * float))
    (st : NlSolver la * (float * float * float)) k v :
  (k, v) ∈ kvs -> k ∉ accepted_options ->
  exists k' v', (k', v') ∈ kvs /\ (k' ∉ accepted_options) /\
    read_params kvs st = Panic (InvalidParameter k').
Proof.
  revert st. induction kvs as [|[k0 v0] kvs IH]; intros st Hin Hk.
  - inversion Hin.
  - simpl. destruct (read_param k0 v0 st) as [st'|e] eqn:E.
    + assert ((k, v) ∈ kvs) as Hin'.
      { apply elem_of_cons in Hin as [Heq|Hin]; [|assumption].
        injection Heq as -> ->. rewrite (read_param_unknown _ _ _ Hk) in E.
        discriminate. }
      destruct (IH st' Hin' Hk) as (k' & v' & H1 & H2 & H3).
      exists k', v'. simpl. rewrite H3.
      split; [apply elem_of_cons; auto|auto].
    + exists k0, v0. split; [apply elem_of_cons; auto|].
      assert (k0 ∉ accepted_options) as Hk0.
      { intros Hacc. destruct st as [o [[a r] f]]. unfold read_param in E.
        unfold accepted_options in Hacc.
        repeat (apply elem_of_cons in Hacc as [->|Hacc]; [discriminate E|]).
        inversion Hacc. }
      rewrite (read_param_unknown _ _ _ Hk0) in E. injection E as <-.
      auto.
Qed.

Lemma Init_in_order_unknown kvs neq0 F Jsp Jdn useDn0 numJ0 o k v :
  (k, v) ∈ kvs -> k ∉ accepted_options ->
  exists k' v', (k', v') ∈ kvs /\ (k' ∉ accepted_options) /\
    Init_in_order kvs neq0 F Jsp Jdn useDn0 numJ0 o =
    Panic (InvalidParameter k').
Proof.
  intros Hin Hk. unfold Init_in_order.
  edestruct read_params_unknown as (k' & v' & H1 & H2 & H3); [exact Hin|exact Hk|].
  exists k', v'. rewrite H3. auto.
Qed.

End Parameters.

(** ** The norm of the pass before *)

Section Rate.

Context {la : LinAlg}.
Implicit Types (o : NlSolver la) (s : state la).

Lemma msg_LdxPrev silent typ it l f a b s :
  LdxPrev (msg silent typ it l f a b s) = LdxPrev s.
Proof. unfold msg. destruct silent; reflexivity. Qed.

Lemma output_LdxPrev s : LdxPrev (output s) = LdxPrev s.
Proof. unfold output. destruct (Out (slv s)); reflexivity. Qed.

Lemma eval_jacobian_LdxPrev s s' :
  eval_jacobian s = Ok s' -> LdxPrev s' = LdxPrev s.
Proof. unfold eval_jacobian. intros H. inv_ok; reflexivity. Qed.

Lemma dense_solution_LdxPrev s s' :
  dense_solution s = Ok s' -> LdxPrev s' = LdxPrev s.
Proof. unfold dense_solution. intros H. inv_ok. reflexivity. Qed.

Lemma sparse_solution_LdxPrev s s' :
  sparse_solution s = Ok s' -> LdxPrev s' = LdxPrev s.
Proof.
  unfold sparse_solution. intros H.
  destruct (lsReady (slv s)); inv_ok; reflexivity.
Qed.

Lemma update_x_LdxPrev s s' : update_x s = Ok s' -> LdxPrev s' = LdxPrev s.
Proof.
  unfold update_x. intros H. inv_ok. simpl.
  apply (for_range_preserves LdxPrev) in E; [exact E|].
  clear. intros i s s' H. inv_ok. reflexivity.
Qed.

Lemma line_search_LdxPrev s s' :
  line_search s = Ok s' -> LdxPrev s' = LdxPrev s.
Proof.
  unfold line_search. intros H. inv_ok. simpl.
  apply (for_range_preserves LdxPrev) in E; [exact E|].
  clear. intros i s s' H. inv_ok. reflexivity.
Qed.

Lemma newton_update_LdxPrev silent s s' :
  newton_update silent s = Ok s' -> LdxPrev s' = LdxPrev s.
Proof.
  unfold newton_update. intros H. inv_ok; simpl.
  all: apply eval_jacobian_LdxPrev in E;
    rewrite output_LdxPrev, msg_LdxPrev in E.
  all: apply update_x_LdxPrev in E1.
  - apply dense_solution_LdxPrev in E0. congruence.
  - apply sparse_solution_LdxPrev in E0. congruence.
Qed.

(** A pass keeps the norm of the pass before it up to the rate check. *)
Lemma newton_pass_LdxPrev silent s fl s' :
  newton_pass silent s = Ok (fl, s') -> LdxPrev s' = LdxPrev s.
Proof.
  unfold newton_pass. intros H.
  inv_ok; rewrite ?msg_LdxPrev; simpl; try reflexivity.
  all: apply newton_update_LdxPrev in E; simpl in E; try exact E.
  all: apply line_search_LdxPrev in E0; simpl in E0; congruence.
Qed.

Lemma check_rate_Ldx s s' : check_rate s = Ok s' -> Ldx s' = Ldx s.
Proof. unfold check_rate. intros H. inv_ok; reflexivity. Qed.

(** The rate check of a pass after the first, when it is switched on. *)
Lemma check_rate_diverging s :
  0 < It (slv s) -> chkConv (slv s) = true ->
  (0.99 <? Ldx s / LdxPrev s)%float = true ->
  check_rate s = Panic (Diverging (Ldx s / LdxPrev s) (Ldx s) (LdxPrev s)).
Proof.
  intros HIt Hchk HΘ. unfold check_rate.
  destruct (Z.ltb_spec 0 (It (slv s))); [|lia]. rewrite Hchk. simpl.
  rewrite HΘ. reflexivity.
Qed.

(** Without the option the rate is not looked at. *)
Lemma check_rate_off s : chkConv (slv s) = false -> check_rate s = Ok s.
Proof. intros H. unfold check_rate. rewrite H, andb_false_r. reflexivity. Qed.

End Rate.

(** ** Counting calls *)

Lemma count_app (p : Event -> bool) (t u : list Event) :
  count p (t ++ u) = count p t + count p u.
Proof. induction t as [|e t IH]; simpl; [reflexivity | rewrite IH; lia]. Qed.

Section Counting.

Context {la : LinAlg}.
Implicit Types (o : NlSolver la) (s : state la).

Lemma count_emit p e s :
  count p (trace (emit e s)) = count p (trace s) + (if p e then 1 else 0).
Proof. simpl. rewrite count_app. simpl. lia. Qed.

Lemma msg_count p silent typ it l f a b s :
  (forall t i l0 f0 a0 b0, p (EvMsg t i l0 f0 a0 b0) = false) ->
  count p (trace (msg silent typ it l f a b s)) = count p (trace s).
Proof.
  intros Hp. unfold msg. destruct silent; [reflexivity|].
  rewrite count_emit, Hp. lia.
Qed.

Lemma output_count p s :
  (forall x, p (EvOut x) = false) ->
  count p (trace (output s)) = count p (trace s).
Proof.
  intros Hp. unfold output. destruct (Out (slv s)); [|reflexivity].
  rewrite count_emit, Hp. lia.
Qed.

(** What the evaluation of the Jacobian adds. *)
Lemma eval_jacobian_counts s s' :
  eval_jacobian s = Ok s' ->
  count is_jacobian (trace s') =
    count is_jacobian (trace s) + (if jacobian_due (slv s) then 1 else 0) /\
  count is_factorisation (trace s') = count is_factorisation (trace s) /\
  count is_evaluation (trace s') = count is_evaluation (trace s) /\
  NJeval (slv s') =
    (if jacobian_due (slv s) then GoInt.add (NJeval (slv s)) 1
     else NJeval (slv s)).
Proof.
  unfold eval_jacobian, jacobian_due. intros H.
  destruct ((It (slv s) =? 0) || negb (cteJac (slv s))).
  - inv_ok; simpl; rewrite !count_app; simpl; repeat split; lia.
  - inv_ok. repeat split; lia.
Qed.

Lemma dense_row_counters i j o o' :
  dense_row i j o = Ok o' -> counters o' = counters o.
Proof. unfold dense_row. intros H. inv_ok. reflexivity. Qed.

Lemma dense_solution_counters s s' :
  dense_solution s = Ok s' -> counters (slv s') = counters (slv s).
Proof.
  unfold dense_solution. intros H. inv_ok. simpl.
  apply (for_range_preserves counters) in E0; [exact E0|].
  clear. intros i o o' H. inv_ok.
  apply (for_range_preserves counters) in E1; [|apply dense_row_counters].
  exact E1.
Qed.

Lemma dense_solution_trace s s' :
  dense_solution s = Ok s' -> trace s' = trace s ++ [EvMatInv].
Proof. unfold dense_solution. intros H. inv_ok. reflexivity. Qed.

Lemma sparse_solution_counters s s' :
  sparse_solution s = Ok s' -> counters (slv s') = counters (slv s).
Proof.
  unfold sparse_solution. intros H.
  destruct (lsReady (slv s)); inv_ok; reflexivity.
Qed.

Lemma sparse_solution_counts s s' :
  sparse_solution s = Ok s' ->
  count is_jacobian (trace s') = count is_jacobian (trace s) /\
  count is_factorisation (trace s') = count is_factorisation (trace s) + 1 /\
  count is_evaluation (trace s') = count is_evaluation (trace s).
Proof.
  unfold sparse_solution. intros H.
  destruct (lsReady (slv s)); inv_ok; simpl; rewrite !count_app; simpl;
    repeat split; lia.
Qed.

Lemma update_x_counters s s' :
  update_x s = Ok s' -> counters (slv s') = counters (slv s).
Proof.
  unfold update_x. intros H. inv_ok. simpl.
  apply (for_range_preserves (fun s => counters (slv s))) in E; [exact E|].
  clear. intros i s s' H. inv_ok. reflexivity.
Qed.

Lemma update_x_trace s s' : update_x s = Ok s' -> trace s' = trace s.
Proof.
  unfold update_x. intros H. inv_ok. simpl.
  apply (for_range_preserves trace) in E; [exact E|].
  clear. intros i s s' H. inv_ok. reflexivity.
Qed.

Lemma line_search_trace s s' :
  line_search s = Ok s' -> trace s' = trace s ++ [EvLineSearch (xs s)].
Proof.
  unfold line_search. intros H. inv_ok. simpl.
  apply (for_range_preserves trace) in E; [exact E|].
  clear. intros i s s' H. inv_ok. reflexivity.
Qed.

Lemma line_search_counters s s' :
  line_search s = Ok s' ->
  NJeval (slv s') = NJeval (slv s) /\
  NFeval (slv s') =
    GoInt.add (NFeval (slv s))
      (fst (fst (LineSearch la (xs s) (fx (slv s)) (Ffcn (slv s)) (mdx (slv s))
                   (x0 (slv s)) (dφdx (slv s)) (φ (slv s))
                   (linSchMaxIt (slv s)) true))).
Proof.
  unfold line_search. intros H. inv_ok. simpl.
  apply (for_range_preserves (fun s => counters (slv s))) in E.
  - unfold counters in E. simpl in E. injection E as -> ->.
    auto.
  - clear. intros i s s' H. inv_ok. reflexivity.
Qed.

Lemma check_rate_trace s s' : check_rate s = Ok s' -> trace s' = trace s.
Proof. unfold check_rate. intros H. inv_ok; reflexivity. Qed.

(** What the Newton update of a pass adds: one factorisation, one
    evaluation of [f], and the Jacobian when it is due. *)
Lemma newton_update_counts silent s s' :
  newton_update silent s = Ok s' ->
  count is_jacobian (trace s') =
    count is_jacobian (trace s) + (if jacobian_due (slv s) then 1 else 0) /\
  count is_factorisation (trace s') = count is_factorisation (trace s) + 1 /\
  count is_evaluation (trace s') = count is_evaluation (trace s) + 1 /\
  NJeval (slv s') =
    (if jacobian_due (slv s) then GoInt.add (NJeval (slv s)) 1
     else NJeval (slv s)).
Proof.
  unfold newton_update. intros H. inv_bind H. inv_bind H. inv_bind H.
  injection H as <-.
  apply eval_jacobian_counts in E. rewrite output_slv, msg_slv in E.
  rewrite !output_count, !msg_count in E by reflexivity.
  destruct E as (Hj & Hf & He & HN).
  apply update_x_trace in E1 as Ht. apply update_x_counters in E1 as Hc.
  unfold counters in Hc. injection Hc as _ HN1.
  assert (count is_jacobian (trace r0) = count is_jacobian (trace r) /\
          count is_factorisation (trace r0) = count is_factorisation (trace r) + 1 /\
          count is_evaluation (trace r0) = count is_evaluation (trace r) /\
          NJeval (slv r0) = NJeval (slv r)) as (Hj0 & Hf0 & He0 & HN0).
  { destruct (useDn (slv r)).
    - apply dense_solution_trace in E0 as Ht0.
      apply dense_solution_counters in E0. unfold counters in E0.
      injection E0 as _ ->. rewrite Ht0, !count_app. simpl.
      repeat split; lia.
    - pose proof (sparse_solution_counts _ _ E0) as (? & ? & ?).
      apply sparse_solution_counters in E0. unfold counters in E0.
      injection E0 as _ ->. auto. }
  simpl. rewrite !count_app, Ht. simpl.
  rewrite HN1, HN0, Hj0, Hf0, He0, Hj, Hf, He.
  unfold jacobian_due in *. repeat split; try lia; try exact HN.
Qed.

End Counting.

(** ** Modified Newton: what is reused *)

Section Modified.

Context {la : LinAlg}.
Implicit Types (o : NlSolver la) (s : state la).

(** A pass either leaves the loop before its update, adding nothing, or
    makes the update. *)
Lemma newton_pass_counts silent s fl s' :
  newton_pass silent s = Ok (fl, s') ->
  (fl = Break /\
   count is_jacobian (trace s') = count is_jacobian (trace s) /\
   count is_factorisation (trace s') = count is_factorisation (trace s) /\
   count is_evaluation (trace s') = count is_evaluation (trace s) /\
   NJeval (slv s') = NJeval (slv s)) \/
  (count is_jacobian (trace s') =
     count is_jacobian (trace s) + (if jacobian_due (slv s) then 1 else 0) /\
   count is_factorisation (trace s') = count is_factorisation (trace s) + 1 /\
   count is_evaluation (trace s') = count is_evaluation (trace s) + 1 /\
   NJeval (slv s') =
     (if jacobian_due (slv s) then GoInt.add (NJeval (slv s)) 1
      else NJeval (slv s))).
Proof.
  unfold newton_pass. intros H.
  destruct (fxMax (set_fxMax (Largest (fx (slv s)) 1) s) <?
            ftol (slv (set_fxMax (Largest (fx (slv s)) 1) s)))%float.
  - injection H as <- <-. left. rewrite !msg_count, msg_slv by reflexivity.
    simpl. auto.
  - right. inv_bind H. apply newton_update_counts in E. simpl in E.
    destruct E as (Hj & Hf & He & HN).
    inv_ok; rewrite ?msg_count, ?msg_slv by reflexivity; simpl; auto.
    all: apply line_search_trace in E as Ht;
      apply line_search_counters in E as [HNJ _];
      simpl in Ht, HNJ; rewrite Ht, !count_app, HNJ; simpl;
      rewrite !Z.add_0_r; auto.
Qed.

Lemma iteration_counts silent s fl s' :
  iteration silent s = Ok (fl, s') ->
  (fl = Break /\
   count is_jacobian (trace s') = count is_jacobian (trace s) /\
   count is_factorisation (trace s') = count is_factorisation (trace s) /\
   count is_evaluation (trace s') = count is_evaluation (trace s) /\
   NJeval (slv s') = NJeval (slv s)) \/
  (count is_jacobian (trace s') =
     count is_jacobian (trace s) + (if jacobian_due (slv s) then 1 else 0) /\
   count is_factorisation (trace s') = count is_factorisation (trace s) + 1 /\
   count is_evaluation (trace s') = count is_evaluation (trace s) + 1 /\
   NJeval (slv s') =
     (if jacobian_due (slv s) then GoInt.add (NJeval (slv s)) 1
      else NJeval (slv s))).
Proof.
  unfold iteration. intros H. inv_bind H. destruct r as [[] t].
  - inv_bind H. injection H as <- <-.
    apply check_rate_trace in E0 as Ht. apply check_rate_slv in E0 as Ho.
    apply newton_pass_counts in E. simpl. rewrite Ht, Ho.
    destruct E as [[? _]|E]; [discriminate|]. right. exact E.
  - injection H as <- <-. apply newton_pass_counts in E. exact E.
Qed.

Lemma modified_newton_calls_enter o x silent s0 :
  enter o x silent = Ok s0 -> modified_newton_calls s0.
Proof.
  unfold enter. intros H. inv_ok. unfold modified_newton_calls.
  destruct silent; simpl; repeat split; reflexivity || lia.
Qed.

Lemma modified_newton_calls_step silent s s' :
  cteJac (slv s) = true -> modified_newton_calls s ->
  iteration silent s = Ok (Continue, s') -> modified_newton_calls (next_It s').
Proof.
  intros Hc (HIt & Hf & He & Hj & HN) Hit.
  apply iteration_settings in Hit as Hs. unfold settings in Hs. simpl in Hs.
  injection Hs as _ _ _ _ _ _ _ _ _ _ _ _ _ _ _ HI.
  apply iteration_counts in Hit. destruct Hit as [[? _]|(Hj' & Hf' & He' & HN')];
    [discriminate|].
  unfold jacobian_due in Hj', HN'. rewrite Hc, orb_false_r in Hj', HN'.
  unfold modified_newton_calls. simpl. rewrite HI.
  destruct (Z.eqb_spec (It (slv s) + 1) 0); [lia|].
  destruct (Z.eqb_spec (It (slv s)) 0) as [H0|H0].
  - rewrite HN in HN'. change (GoInt.add 0 1) with 1 in HN'.
    repeat split; lia.
  - repeat split; lia.
Qed.

Lemma modified_newton_calls_pass o x silent s0 k s :
  cteJac o = true -> enter o x silent = Ok s0 ->
  at_pass silent k s0 = Some s -> modified_newton_calls s /\ cteJac (slv s) = true.
Proof.
  intros Hc H0 Hk.
  assert (cteJac (slv s0) = true) as Hc0.
  { destruct (enter_settings _ _ _ _ H0) as (sc & _ & Hs).
    unfold settings in Hs. simpl in Hs.
    injection Hs as -> _ _ _ _ _ _ _ _ _ _ _ _ _ _ _. exact Hc. }
  apply (at_pass_inv (fun t => modified_newton_calls t /\ cteJac (slv t) = true)
           silent) with (k := k) (s := s0); [| |assumption].
  - intros t t' [Hinv Hct] Hit. split.
    + apply modified_newton_calls_step with silent t; assumption.
    + apply iteration_settings in Hit. unfold settings in Hit. simpl in *.
      injection Hit as -> _ _ _ _ _ _ _ _ _ _ _ _ _ _ _. exact Hct.
  - split; [exact (modified_newton_calls_enter _ _ _ _ H0) | exact Hc0].
Qed.

End Modified.

(** ** The counter of evaluations *)

Lemma GoInt_add_small (a b : Z) :
  GoInt.min_int <= a + b <= GoInt.max_int -> GoInt.add a b = a + b.
Proof.
  unfold GoInt.add, GoInt.wrap, GoInt.min_int, GoInt.max_int. intros H.
  rewrite Z.mod_small; lia.
Qed.

Section Evaluations.

Context {la : LinAlg}.
Implicit Types (o : NlSolver la) (s : state la).

Lemma eval_jacobian_NFeval s s' :
  eval_jacobian s = Ok s' ->
  NFeval (slv s') = NFeval (slv s) \/
  NFeval (slv s') = GoInt.add (NFeval (slv s)) (neq (slv s)).
Proof. unfold eval_jacobian. intros H. inv_ok; simpl; auto. Qed.

Lemma newton_update_NFeval silent s s' :
  newton_update silent s = Ok s' ->
  exists n1, (n1 = NFeval (slv s) \/
              n1 = GoInt.add (NFeval (slv s)) (neq (slv s))) /\
             NFeval (slv s') = GoInt.add n1 1.
Proof.
  unfold newton_update. intros H. inv_bind H. inv_bind H. inv_bind H.
  injection H as <-.
  apply eval_jacobian_NFeval in E. rewrite output_slv, msg_slv in E.
  apply update_x_counters in E1. unfold counters in E1. injection E1 as HF _.
  assert (NFeval (slv r0) = NFeval (slv r)) as HF0.
  { destruct (useDn (slv r)).
    - apply dense_solution_counters in E0. unfold counters in E0.
      injection E0 as -> _. reflexivity.
    - apply sparse_solution_counters in E0. unfold counters in E0.
      injection E0 as -> _. reflexivity. }
  exists (NFeval (slv r)). split; [exact E|]. simpl. congruence.
Qed.

(** Within the range of [int] a pass adds between 0 and [neq + 1 + B]
    evaluations. *)
Lemma iteration_NFeval silent B s fl s' :
  0 <= neq (slv s) -> LineSearch_within la B ->
  1 <= NFeval (slv s) ->
  NFeval (slv s) + (neq (slv s) + 1 + B) <= GoInt.max_int ->
  iteration silent s = Ok (fl, s') ->
  NFeval (slv s) <= NFeval (slv s') <= NFeval (slv s) + (neq (slv s) + 1 + B).
Proof.
  intros Hneq HB H1 Hmax Hit.
  assert (0 <= B) as HB0.
  { specialize (HB [] [] (fun _ x => x) [] [] [] 0%float 0 true). lia. }
  assert (forall t, newton_pass silent s = Ok (fl, t) ->
            NFeval (slv s) <= NFeval (slv t)
            <= NFeval (slv s) + (neq (slv s) + 1 + B)) as Hpass.
  { clear Hit. unfold newton_pass. intros t H.
    destruct (fxMax (set_fxMax (Largest (fx (slv s)) 1) s) <?
              ftol (slv (set_fxMax (Largest (fx (slv s)) 1) s)))%float.
    - injection H as <- <-. rewrite msg_slv. simpl. lia.
    - inv_bind H. apply newton_update_NFeval in E. simpl in E.
      destruct E as (n1 & Hn1 & Hr).
      assert (NFeval (slv s) <= n1 <= NFeval (slv s) + neq (slv s)) as Hb1.
      { destruct Hn1 as [->| ->]; [lia|].
        rewrite GoInt_add_small; unfold GoInt.min_int, GoInt.max_int in *; lia. }
      rewrite GoInt_add_small in Hr
        by (unfold GoInt.min_int, GoInt.max_int in *; lia).
      inv_ok; rewrite ?msg_slv; simpl; try lia.
      all: pose proof (line_search_settings _ _ E) as Hs;
        apply line_search_counters in E as [_ HF]; simpl in HF;
        match type of HF with
        | _ = GoInt.add _ (fst (fst ?c)) =>
            assert (0 <= fst (fst c) <= B) as Hls by apply HB
        end;
        rewrite GoInt_add_small in HF
          by (unfold GoInt.min_int, GoInt.max_int in *; lia);
        lia. }
  unfold iteration in Hit. inv_bind Hit. destruct r as [[] t].
  - inv_bind Hit. injection Hit as <- <-. apply check_rate_slv in E0.
    simpl. rewrite E0. apply Hpass. exact E.
  - injection Hit as <- <-. apply Hpass. exact E.
Qed.

Lemma NFeval_pass o x silent B s0 k s :
  0 <= neq o -> LineSearch_within la B ->
  1 + maxIt o * (neq o + 1 + B) <= GoInt.max_int ->
  enter o x silent = Ok s0 -> at_pass silent k s0 = Some s ->
  Z.of_nat k <= maxIt o ->
  1 <= NFeval (slv s) <= 1 + Z.of_nat k * (neq o + 1 + B).
Proof.
  intros Hneq HB Hmax H0. revert s.
  assert (0 <= B) as HB0.
  { specialize (HB [] [] (fun _ x => x) [] [] [] 0%float 0 true). lia. }
  induction k as [|k IH]; intros s Hk Hle.
  - simpl in Hk. injection Hk as <-.
    destruct (enter_spec _ _ _ _ H0) as (sc & _ & -> & _). simpl. lia.
  - apply at_pass_S in Hk. destruct Hk as (s1 & s2 & Hk & Hit & ->).
    specialize (IH s1 Hk ltac:(lia)).
    destruct (pass_settings _ _ _ _ _ _ H0 Hk) as (sc & _ & Hs).
    unfold settings in Hs. simpl in Hs.
    injection Hs as _ _ _ _ _ _ _ _ _ Hn _ _ _ _ _ _.
    apply (iteration_NFeval silent B) in Hit; rewrite ?Hn; try assumption; try lia.
    + simpl. rewrite Hn in Hit. nia.
    + nia.
Qed.

(** The counters with which [Solve] is entered do not matter. *)
Lemma enter_ignores_counters o x silent a b c :
  enter (set_It c (set_NJeval b (set_NFeval a o))) x silent = enter o x silent.
Proof.
  unfold enter. simpl. destruct (VecScaleAbs _ _ _ _); [|reflexivity].
  simpl. destruct silent; reflexivity.
Qed.

End Evaluations.

(** ** The numerical Jacobian *)

Section Numerical.

Context {la : LinAlg}.
Implicit Types (o : NlSolver la) (s : state la).

(** What [Init] leaves in the fields that choose the Jacobian. *)
Lemma Init_in_order_fields kvs neq0 F Jsp Jdn useDn0 numJ0 o0 o :
  Init_in_order kvs neq0 F Jsp Jdn useDn0 numJ0 o0 = Ok o ->
  neq o = neq0 /\ Ffcn o = F /\ useDn o = useDn0 /\ JfcnSp o = Jsp /\
  (useDn0 = false -> Jsp = None -> numJ o = true) /\
  (useDn0 = false -> numJ0 = true -> numJ o = true) /\
  fnewt o =
    utl_Max la (10 * MACHEPS la / rtol o)%float
      (utl_Min la 0.03 (sqrt (rtol o)))%float.
Proof.
  unfold Init_in_order. intros H. inv_bind H.
  destruct r as [o1 [[a r] f]]. clear E.
  simpl in H. inv_bind H. inv_bind H. inv_bind H. inv_bind H.
  destruct useDn0.
  - inv_ok. simpl. repeat split; congruence.
  - destruct Jsp; destruct numJ0; simpl in E2; inv_ok; simpl;
      repeat split; congruence.
Qed.

(** With the sparse solver and [numJ], an evaluation of the Jacobian that
    is due calls [Jacobian] with [o.fx] as it stands, without evaluating
    [f], and adds [neq] to [NFeval] and 1 to [NJeval]. *)
Lemma eval_jacobian_numerical s :
  useDn (slv s) = false -> numJ (slv s) = true ->
  jacobian_due (slv s) = true ->
  exists s', eval_jacobian s = Ok s' /\
    Jtri (slv s') =
      fst (Jacobian la (Jtri (slv s)) (Ffcn (slv s)) (xs s) (fx (slv s))
             (w (slv s))) /\
    fx (slv s') = fx (slv s) /\ xs s' = xs s /\
    NFeval (slv s') = GoInt.add (NFeval (slv s)) (neq (slv s)) /\
    NJeval (slv s') = GoInt.add (NJeval (slv s)) 1 /\
    trace s' = trace s ++ [EvJacobian (xs s) (fx (slv s))].
Proof.
  intros Hd Hn Hdue. unfold eval_jacobian. unfold jacobian_due in Hdue.
  rewrite Hdue, Hd, Hn.
  destruct (Jacobian la (Jtri (slv s)) (Ffcn (slv s)) (xs s) (fx (slv s))
              (w (slv s))) as [jt wk] eqn:EJ.
  simpl. eexists. split; [reflexivity|]. simpl. repeat split; reflexivity.
Qed.

Lemma newton_update_residual silent s s' :
  newton_update silent s = Ok s' -> residual_current s'.
Proof.
  unfold newton_update. intros H. inv_bind H. inv_bind H. inv_bind H.
  injection H as <-. exists (fx (slv r1)). reflexivity.
Qed.

Lemma line_search_residual s s' :
  LineSearch_consistent la (Ffcn (slv s)) -> residual_current s ->
  line_search s = Ok s' -> residual_current s'.
Proof.
  intros HLS Hres. unfold line_search. intros H.
  specialize (HLS (xs s) (fx (slv s)) (mdx (slv s)) (x0 (slv s))
                (dφdx (slv s)) (φ (slv s)) (linSchMaxIt (slv s)) true Hres).
  destruct (LineSearch la (xs s) (fx (slv s)) (Ffcn (slv s)) (mdx (slv s))
              (x0 (slv s)) (dφdx (slv s)) (φ (slv s)) (linSchMaxIt (slv s))
              true) as [[n x'] fx'].
  simpl in HLS. inv_bind H. injection H as <-.
  apply (for_range_preserves (fun t => (fx (slv t), Ffcn (slv t), xs t))) in E.
  - simpl in E. injection E as E1 E2 E3. unfold residual_current. simpl.
    rewrite E1, E2, E3. exact HLS.
  - clear. intros i t t' H. inv_ok. reflexivity.
Qed.

Lemma newton_pass_residual silent s s' :
  LineSearch_consistent la (Ffcn (slv s)) ->
  newton_pass silent s = Ok (Continue, s') -> residual_current s'.
Proof.
  intros HLS. unfold newton_pass. intros H.
  destruct (fxMax (set_fxMax (Largest (fx (slv s)) 1) s) <?
            ftol (slv (set_fxMax (Largest (fx (slv s)) 1) s)))%float;
    [discriminate|].
  inv_bind H. apply newton_update_settings in E as Hs.
  apply newton_update_residual in E.
  unfold settings in Hs. simpl in Hs.
  injection Hs as _ _ _ _ _ _ _ _ _ _ _ _ _ HF _ _.
  repeat match type of H with
  | (if ?b then _ else _) = _ => destruct b; try discriminate H
  end.
  - inv_bind H. rename E0 into Hls.
    destruct (Ldx r0 <? fnewt (slv r0))%float; [discriminate|].
    injection H as <-.
    apply (line_search_residual _ _) in Hls; [exact Hls| |exact E].
    simpl. rewrite HF. exact HLS.
  - injection H as <-. exact E.
Qed.

Lemma residual_current_pass o x silent s0 k s :
  LineSearch_consistent la (Ffcn o) ->
  enter o x silent = Ok s0 -> at_pass silent k s0 = Some s ->
  residual_current s.
Proof.
  intros HLS H0 Hk. destruct k as [|k].
  - simpl in Hk. injection Hk as <-.
    destruct (enter_spec _ _ _ _ H0) as (sc & _ & Ho & Hx & _).
    exists (fx o). rewrite Ho, Hx. reflexivity.
  - apply at_pass_S in Hk. destruct Hk as (sp & t & Hp & Hit & ->).
    destruct (pass_settings _ _ _ _ _ _ H0 Hp) as (sc & _ & Hs).
    unfold settings in Hs. simpl in Hs.
    injection Hs as _ _ _ _ _ _ _ _ _ _ _ _ _ HF _ _.
    unfold iteration in Hit. inv_bind Hit. destruct r as [[] tp]; [|discriminate].
    inv_bind Hit. injection Hit as <-.
    apply newton_pass_residual in E; [|rewrite HF; exact HLS].
    apply check_rate_slv in E0 as Ho.
    assert (xs r = xs tp) as Hx.
    { unfold check_rate in E0. inv_ok; reflexivity. }
    destruct E as [f0 E]. exists f0. simpl. rewrite Ho, Hx. exact E.
Qed.

End Numerical.

(** * The claims *)

(** ** Convergence on the increment *)

(** C2: [SetTols] stores [fnewt = max(10·ϵ/rtol, min(0.03, sqrt(rtol)))],
    and a solver that [Init] made has it for its [rtol] and [MACHEPS]; no
    step of [Solve] changes [fnewt]; after the update of a pass [Ldx] is
    the scaled RMS norm [sqrt((1/n)·sum_i (mdx_i/scal_i)^2)] of the
    increment; and when that norm is below [fnewt] the loop is left in this
    pass and [Solve] returns with the updated [x]. *)
Theorem Newton_increment_convergence {la : LinAlg} (Atol Rtol Ftol ϵ : float)
    (o0 o : NlSolver la) (x : Vector) (silent : bool) (s0 : state la)
    (k : nat) (s s1 : state la) :
  enter o x silent = Ok s0 ->
  at_pass silent k s0 = Some s ->
  Z.of_nat k < maxIt o ->
  (Largest (fx (slv s)) 1 <? ftol o)%float = false ->
  newton_update silent (set_fxMax (Largest (fx (slv s)) 1) s) = Ok s1 ->
  fnewt (SetTols Atol Rtol Ftol ϵ o0) =
    utl_Max la (10 * ϵ / Rtol)%float (utl_Min la 0.03 (sqrt Rtol))%float /\
  (forall kvs neq0 F Jsp Jdn useDn0 numJ0 o1,
     Init_in_order kvs neq0 F Jsp Jdn useDn0 numJ0 o1 = Ok o ->
     fnewt o =
       utl_Max la (10 * MACHEPS la / rtol o)%float
         (utl_Min la 0.03 (sqrt (rtol o)))%float) /\
  fnewt (slv s1) = fnewt o /\
  Ldx s1 = scaled_rms (mdx (slv s1)) (scal (slv s1)) (neq o) /\
  ((Ldx s1 <? fnewt o)%float = true ->
   exists s', Solve o x silent = Ok s' /\ It (slv s') = Z.of_nat k /\
              xs s' = xs s1).
Proof.
  intros H0 Hk Hlt Hini Hup.
  destruct (pass_settings _ _ _ _ _ _ H0 Hk) as (sc & _ & Hs).
  apply newton_update_settings in Hup as Hs1. simpl in Hs1. rewrite Hs in Hs1.
  unfold settings in Hs, Hs1. simpl in Hs, Hs1.
  injection Hs as _ _ _ _ _ _ _ Hft _ _ _ _ _ _ _ _.
  injection Hs1 as _ _ _ _ _ _ _ _ Hfn Hn _ _ _ _ _ _.
  split; [reflexivity|].
  split; [intros kvs neq0 F Jsp Jdn useDn0 numJ0 o1 HI;
          apply (Init_in_order_fields _ _ _ _ _ _ _ _ _ HI)|].
  split; [assumption|].
  split; [rewrite <- Hn; exact (newton_update_Ldx _ _ _ Hup)|].
  intros HL. rewrite <- Hft in Hini. rewrite <- Hfn in HL.
  destruct (iteration_break_on_Ldx silent s s1 Hini Hup HL) as (typ & _ & Hit).
  destruct (Solve_break _ _ _ _ _ _ _ H0 Hk Hlt Hit) as [HS HI].
  eexists. split; [exact HS|]. rewrite output_slv, output_xs, msg_xs.
  split; [exact HI | reflexivity].
Qed.

Lemma Newton_increment_convergence_witness :
  let s0 := Scalar.the_state (enter Scalar.o_loose [1%float] true) in
  let s := Scalar.the_pass 2 s0 in
  let s1 := Scalar.the_state (newton_update true (set_fxMax (Largest (fx (slv s)) 1) s)) in
  Ldx s1 = scaled_rms (mdx (slv s1)) (scal (slv s1)) 1 /\
  (Ldx s1 <? fnewt Scalar.o_loose)%float = true /\
  exists s', Solve Scalar.o_loose [1%float] true = Ok s' /\ It (slv s') = 2 /\
             xs s' = xs s1.
Proof.
  intros s0 s s1.
  destruct (Newton_increment_convergence 1 1 1 1 Scalar.o_loose Scalar.o_loose
              [1%float] true s0 2 s s1) as (_ & _ & _ & HL & Hconv);
    [vm_compute; reflexivity .. |].
  split; [exact HL|]. split; [vm_compute; reflexivity|].
  apply Hconv. vm_compute. reflexivity.
Defined.

(** ** The scaling vector *)

(** C8: [Solve] computes [scal_i = atol + rtol·|x_i|] from the [x] it is
    given, when it is entered; in every pass of the loop, and when [Solve]
    returns, [scal] is still that vector, whatever [x] has become. *)
Theorem scaling_vector_fixed {la : LinAlg} (o : NlSolver la) (x : Vector)
    (silent : bool) (s0 : state la) (k : nat) (s : state la) (i : nat)
    (xi : float) :
  enter o x silent = Ok s0 ->
  at_pass silent k s0 = Some s ->
  x !! i = Some xi ->
  VecScaleAbs (scal o) (atol o) (rtol o) x = Ok (scal (slv s0)) /\
  scal (slv s) = scal (slv s0) /\
  scal (slv s) !! i = Some (atol o + rtol o * abs xi)%float /\
  (forall s', Solve o x silent = Ok s' -> scal (slv s') = scal (slv s0)).
Proof.
  intros H0 Hk Hi.
  destruct (pass_settings _ _ _ _ _ _ H0 Hk) as (sc & Hsc & Hs).
  destruct (enter_settings _ _ _ _ H0) as (sc0 & Hsc0 & Hs0).
  assert (sc0 = sc) as -> by congruence.
  unfold settings in Hs, Hs0. simpl in Hs, Hs0.
  injection Hs as _ _ _ _ _ _ _ _ _ _ Hscal _ _ _ _ _.
  injection Hs0 as _ _ _ _ _ _ _ _ _ _ Hscal0 _ _ _ _ _.
  rewrite Hscal, Hscal0. split; [assumption|]. split; [reflexivity|].
  split; [exact (VecScaleAbs_lookup _ _ _ _ _ Hsc _ _ Hi)|].
  intros s' HS. apply Solve_Ok_cases in HS.
  destruct HS as (t0 & s1 & Ht0 & -> & Hc).
  assert (t0 = s0) as -> by congruence. rewrite output_slv.
  destruct Hc as [[_ ->]|(k' & t & _ & Hp & Hit)]; [assumption|].
  destruct (pass_settings _ _ _ _ _ _ H0 Hp) as (sc' & Hsc' & Ht).
  apply iteration_settings in Hit. rewrite Ht in Hit.
  unfold settings in Hit. simpl in Hit.
  injection Hit as _ _ _ _ _ _ _ _ _ _ Hscal' _ _ _ _ _. congruence.
Qed.

Lemma scaling_vector_fixed_witness :
  let s0 := Scalar.the_state (enter Scalar.o_loose [1%float] true) in
  let s := Scalar.the_pass 2 s0 in
  xs s = [1.4166666666666667%float] /\
  scal (slv s) = scal (slv s0) /\
  scal (slv s) !! 0%nat = Some (1 + 0.01 * abs 1)%float /\
  (forall s', Solve Scalar.o_loose [1%float] true = Ok s' ->
              scal (slv s') = scal (slv s0)).
Proof.
  intros s0 s. split; [vm_compute; reflexivity|].
  destruct (scaling_vector_fixed Scalar.o_loose [1%float] true s0 2 s 0 1%float)
    as (_ & H1 & H2 & H3); [vm_compute; reflexivity .. |].
  split; [exact H1|]. split; [exact H2 | exact H3].
Defined.

(** ** Convergence on the residual *)

(** C9, as the code has it: in every pass the loop is left as soon as
    [max_i |f_i(x)| < ftol], tested before the update (then [x] is the one
    of the start of the pass) and again after it; when [maxIt] is not 0 and
    the first guess passes the test, [Solve] returns with [x] as given,
    [NJeval = 0] and [NFeval = 1]. *)
Theorem residual_convergence {la : LinAlg} (o : NlSolver la) (x : Vector)
    (silent : bool) (s0 : state la) :
  enter o x silent = Ok s0 ->
  maxIt o <> 0 ->
  (forall k s, at_pass silent k s0 = Some s -> Z.of_nat k < maxIt o ->
     (Largest (fx (slv s)) 1 <? ftol o)%float = true ->
     exists s', Solve o x silent = Ok s' /\ xs s' = xs s /\
                It (slv s') = Z.of_nat k) /\
  (forall k s s1, at_pass silent k s0 = Some s -> Z.of_nat k < maxIt o ->
     (Largest (fx (slv s)) 1 <? ftol o)%float = false ->
     newton_update silent (set_fxMax (Largest (fx (slv s)) 1) s) = Ok s1 ->
     (Largest (fx (slv s1)) 1 <? ftol o)%float = true ->
     exists s', Solve o x silent = Ok s' /\ xs s' = xs s1 /\
                It (slv s') = Z.of_nat k) /\
  ((Largest (Ffcn o (fx o) x) 1 <? ftol o)%float = true ->
   exists s', Solve o x silent = Ok s' /\ xs s' = x /\
              NJeval (slv s') = 0 /\ NFeval (slv s') = 1).
Proof.
  intros H0 Hm.
  assert (forall k s, at_pass silent k s0 = Some s ->
            ftol (slv s) = ftol o) as Hftol.
  { intros k s Hk. destruct (pass_settings _ _ _ _ _ _ H0 Hk) as (sc & _ & Hs).
    unfold settings in Hs. simpl in Hs.
    injection Hs as _ _ _ _ _ _ _ Hft _ _ _ _ _ _ _ _. exact Hft. }
  assert (forall k s, at_pass silent k s0 = Some s -> Z.of_nat k < maxIt o ->
            (Largest (fx (slv s)) 1 <? ftol o)%float = true ->
            exists s', Solve o x silent = Ok s' /\ xs s' = xs s /\
                       It (slv s') = Z.of_nat k /\
                       NJeval (slv s') = NJeval (slv s) /\
                       NFeval (slv s') = NFeval (slv s)) as Hfirst.
  { intros k s Hk Hlt Hf.
    assert (exists t, iteration silent s = Ok (Break, t) /\ xs t = xs s /\
                      slv t = slv s) as (t & Hit & Hx & Ho).
    { unfold iteration, newton_pass. simpl. rewrite (Hftol _ _ Hk), Hf. simpl.
      eexists. split; [reflexivity|]. rewrite msg_xs, msg_slv. auto. }
    destruct (Solve_break _ _ _ _ _ _ _ H0 Hk Hlt Hit) as [HS HI].
    eexists. split; [exact HS|]. rewrite output_xs, output_slv, Ho.
    rewrite Ho in HI. auto. }
  split; [|split].
  - intros k s Hk Hlt Hf. destruct (Hfirst k s Hk Hlt Hf) as (s' & ? & ? & ? & _).
    eauto.
  - intros k s s1 Hk Hlt Hini Hup Hf.
    apply newton_update_settings in Hup as Hs1. unfold settings in Hs1.
    simpl in Hs1. injection Hs1 as _ _ _ _ _ _ _ Hft _ _ _ _ _ _ _ _.
    assert (exists t, iteration silent s = Ok (Break, t) /\ xs t = xs s1)
      as (t & Hit & Hx).
    { unfold iteration, newton_pass. simpl.
      rewrite (Hftol _ _ Hk), Hini, Hup. simpl.
      rewrite Hft, (Hftol _ _ Hk), Hf. simpl.
      eexists. split; [reflexivity|]. rewrite msg_xs. reflexivity. }
    destruct (Solve_break _ _ _ _ _ _ _ H0 Hk Hlt Hit) as [HS HI].
    eexists. split; [exact HS|]. rewrite output_xs, output_slv. auto.
  - intros Hf. destruct (enter_spec _ _ _ _ H0) as (sc & _ & Ho & Hx & _).
    destruct (Z.lt_trichotomy (maxIt o) 0) as [Hneg|[?|Hpos]]; [|lia|].
    + exists (output s0). rewrite output_xs, output_slv, Ho. simpl.
      split; [|auto]. unfold Solve. rewrite H0. simpl.
      rewrite Ho. simpl. rewrite Z2Nat.nonpos by lia. simpl.
      rewrite output_slv, Ho. simpl.
      destruct (maxIt o); try lia. reflexivity.
    + destruct (Hfirst O s0 eq_refl Hpos) as (s' & HS & Hx' & _ & HJ & HF).
      { rewrite Ho. simpl. exact Hf. }
      exists s'. rewrite HJ, HF, Hx', Ho. simpl. auto.
Qed.

Lemma residual_convergence_witness :
  exists s', Solve Scalar.o_ident [0%float] true = Ok s' /\ xs s' = [0%float] /\
             NJeval (slv s') = 0 /\ NFeval (slv s') = 1.
Proof.
  destruct (residual_convergence Scalar.o_ident [0%float] true
              (Scalar.the_state (enter Scalar.o_ident [0%float] true)))
    as (_ & _ & H); [vm_compute; reflexivity | vm_compute; discriminate |].
  apply H. vm_compute. reflexivity.
Defined.

(** C9 as stated fails when [maxIt = 0]: the first guess is the root, yet
    [Solve] panics, since the loop, and with it the test, is not
    entered. *)
Lemma residual_convergence_counterexample :
  (Largest (Ffcn Scalar.o_ident_maxIt0 (fx Scalar.o_ident_maxIt0) [0%float]) 1
   <? ftol Scalar.o_ident_maxIt0)%float = true /\
  Solve Scalar.o_ident_maxIt0 [0%float] true = Panic (CannotConverge 0).
Proof. split; vm_compute; reflexivity. Qed.

(** ** Exhaustion *)

(** C6: when [maxIt] passes have run to their end, none of them leaving
    the loop by a convergence test, [Solve] panics with "cannot converge
    after [maxIt] iterations". *)
Theorem exhaustion_is_fatal {la : LinAlg} (o : NlSolver la) (x : Vector)
    (silent : bool) (s0 s' : state la) :
  enter o x silent = Ok s0 ->
  0 <= maxIt o ->
  at_pass silent (Z.to_nat (maxIt o)) s0 = Some s' ->
  Solve o x silent = Panic (CannotConverge (maxIt o)) /\
  It (slv s') = maxIt o.
Proof.
  intros H0 Hle Hn. split; [exact (Solve_exhausted _ _ _ _ _ H0 Hle Hn)|].
  destruct (pass_settings _ _ _ _ _ _ H0 Hn) as (sc & _ & Hs).
  unfold settings in Hs. simpl in Hs.
  injection Hs as _ _ _ _ _ _ _ _ _ _ _ _ _ _ _ HIt. lia.
Qed.

Lemma exhaustion_is_fatal_witness :
  Solve Scalar.o_two_passes [1%float] true = Panic (CannotConverge 2) /\
  It (slv (Scalar.the_pass 2
             (Scalar.the_state (enter Scalar.o_two_passes [1%float] true)))) = 2.
Proof.
  apply (exhaustion_is_fatal Scalar.o_two_passes [1%float] true
           (Scalar.the_state (enter Scalar.o_two_passes [1%float] true))).
  - vm_compute. reflexivity.
  - vm_compute. discriminate.
  - vm_compute. reflexivity.
Defined.

(** ** Unknown options *)

(** C5: when the parameter map has a key outside
    [cteJac, linSearch, linSchMaxIt, maxIt, chkConv, atol, rtol, ftol],
    [Init] panics with "parameter named ... is invalid", naming such a key
    of the map, in whatever order the map is traversed. *)
Theorem Init_rejects_unknown_option {la : LinAlg} (neq0 : Z) (F : Vv)
    (Jsp : option (Tv la)) (Jdn : option (Mv la)) (useDn0 numJ0 : bool)
    (prms : gmap string float) (o : NlSolver la)
    (kvs : list (string * float)) (k : string) :
  kvs ≡ₚ map_to_list prms ->
  is_Some (prms !! k) ->
  k ∉ accepted_options ->
  (exists k', is_Some (prms !! k') /\ (k' ∉ accepted_options) /\
     Init_in_order kvs neq0 F Jsp Jdn useDn0 numJ0 o =
     Panic (InvalidParameter k')) /\
  (exists k', is_Some (prms !! k') /\ (k' ∉ accepted_options) /\
     Init neq0 F Jsp Jdn useDn0 numJ0 prms o = Panic (InvalidParameter k')).
Proof.
  intros Hperm [v Hv] Hk.
  assert ((k, v) ∈ map_to_list prms) as Hin by (apply elem_of_map_to_list; exact Hv).
  split.
  - destruct (Init_in_order_unknown kvs neq0 F Jsp Jdn useDn0 numJ0 o k v)
      as (k' & v' & H1 & H2 & H3); [rewrite Hperm; exact Hin | exact Hk |].
    exists k'. rewrite Hperm in H1. apply elem_of_map_to_list in H1. eauto.
  - destruct (Init_in_order_unknown (map_to_list prms) neq0 F Jsp Jdn useDn0
                numJ0 o k v) as (k' & v' & H1 & H2 & H3); [exact Hin | exact Hk |].
    exists k'. apply elem_of_map_to_list in H1. unfold Init. eauto.
Qed.

Lemma Init_rejects_unknown_option_witness :
  Init 1 Scalar.sq2 (Some (Scalar.sq2_J : Tv Scalar.la1)) None false false
       Scalar.with_unknown (Scalar.zero Scalar.sq2) =
  Panic (InvalidParameter "tol").
Proof.
  destruct (Init_rejects_unknown_option 1 Scalar.sq2
              (Some (Scalar.sq2_J : Tv Scalar.la1)) None false false
              Scalar.with_unknown (Scalar.zero Scalar.sq2)
              (map_to_list Scalar.with_unknown) "tol")
    as [_ (k' & _ & _ & H)].
  - reflexivity.
  - vm_compute. eauto.
  - unfold accepted_options. intros Hin.
    repeat (apply elem_of_cons in Hin as [Hin|Hin]; [discriminate Hin|]).
    inversion Hin.
  - rewrite H. vm_compute in H. injection H as <-. reflexivity.
Defined.

(** ** Divergence *)

(** C4, as the code has it: with the option [chkConv] set, in a pass after
    the first that reaches the rate check (no convergence test left the
    loop), a ratio [Θ = Ldx / LdxPrev] above 0.99 makes [Solve] panic at
    once with "solver is diverging", carrying [Θ], [Ldx] and [LdxPrev];
    [LdxPrev] is the [Ldx] with which the pass before reached its rate
    check. *)
Theorem divergence_is_fatal_when_checked {la : LinAlg} (o : NlSolver la)
    (x : Vector) (silent : bool) (s0 : state la) (k : nat)
    (s s2 : state la) :
  enter o x silent = Ok s0 ->
  at_pass silent (S k) s0 = Some s ->
  Z.of_nat (S k) < maxIt o ->
  chkConv o = true ->
  newton_pass silent s = Ok (Continue, s2) ->
  (0.99 <? Ldx s2 / LdxPrev s2)%float = true ->
  Solve o x silent =
    Panic (Diverging (Ldx s2 / LdxPrev s2) (Ldx s2) (LdxPrev s2)) /\
  exists sp tp, at_pass silent k s0 = Some sp /\
    newton_pass silent sp = Ok (Continue, tp) /\ LdxPrev s2 = Ldx tp.
Proof.
  intros H0 Hk Hlt Hchk Hpass HΘ.
  destruct (pass_settings _ _ _ _ _ _ H0 Hk) as (sc & _ & Hs).
  apply newton_pass_settings in Hpass as Hs2. rewrite Hs in Hs2.
  unfold settings in Hs2. simpl in Hs2.
  injection Hs2 as _ _ _ _ Hc _ _ _ _ _ _ _ _ _ _ HIt.
  split.
  - apply (Solve_panic _ _ _ _ _ _ _ H0 Hk Hlt).
    unfold iteration. rewrite Hpass. simpl.
    rewrite check_rate_diverging; [reflexivity | lia | congruence | assumption].
  - apply at_pass_S in Hk. destruct Hk as (sp & t & Hp & Hit & ->).
    unfold iteration in Hit. inv_bind Hit. destruct r as [[] tp]; [|discriminate].
    inv_bind Hit. injection Hit as <-.
    exists sp, tp. split; [assumption|]. split; [assumption|].
    apply newton_pass_LdxPrev in Hpass. rewrite Hpass. simpl.
    apply check_rate_Ldx in E0. exact E0.
Qed.

Lemma divergence_is_fatal_when_checked_witness :
  Solve Scalar.o_cubic_chk [0%float] true =
  Panic (Diverging 1 100000000 100000000).
Proof.
  pose (s0 := Scalar.the_state (enter Scalar.o_cubic_chk [0%float] true)).
  pose (s := Scalar.the_pass 1 s0).
  pose (s2 := Scalar.the_state
                (match newton_pass true s with
                 | Ok (_, t) => Ok t
                 | Panic e => Panic e
                 end)).
  destruct (divergence_is_fatal_when_checked Scalar.o_cubic_chk [0%float] true
              s0 0 s s2) as [H _]; [vm_compute; reflexivity .. |].
  rewrite H. vm_compute. reflexivity.
Defined.

(** C4 as stated fails when [chkConv] is not set (the default): in pass 1
    the rate check is reached with [Ldx / LdxPrev > 0.99], the pass runs
    to its end all the same, and [Solve] ends with the panic of
    exhaustion. *)
Lemma divergence_unchecked_counterexample :
  chkConv Scalar.o_cubic = false /\
  exists s2 s3,
    newton_pass true
      (Scalar.the_pass 1
         (Scalar.the_state (enter Scalar.o_cubic [0%float] true))) =
      Ok (Continue, s2) /\
    (0.99 <? Ldx s2 / LdxPrev s2)%float = true /\
    iteration true
      (Scalar.the_pass 1
         (Scalar.the_state (enter Scalar.o_cubic [0%float] true))) =
      Ok (Continue, s3) /\
    Solve Scalar.o_cubic [0%float] true = Panic (CannotConverge 20).
Proof.
  split; [vm_compute; reflexivity|].
  eexists. eexists.
  split; [vm_compute; reflexivity|].
  split; [vm_compute; reflexivity|].
  split; vm_compute; reflexivity.
Qed.

(** ** Modified Newton *)

(** C3, as the code has it: with [cteJac] set, a call of [Solve] that
    returns has evaluated the Jacobian once, in the first pass, if it made
    a Newton update at all ([NJeval] is 0 or 1 and counts those
    evaluations); the matrix is factorised anew ([lis.Fact()], or
    [la.MatInv] in the dense mode) in every update, one factorisation for
    each evaluation of [f] after the first: no factorisation is reused. *)
Theorem modified_Newton_keeps_Jacobian_only {la : LinAlg} (o : NlSolver la)
    (x : Vector) (silent : bool) (s' : state la) :
  cteJac o = true ->
  Solve o x silent = Ok s' ->
  count is_jacobian (trace s') = NJeval (slv s') /\
  NJeval (slv s') =
    (if count is_factorisation (trace s') =? 0 then 0 else 1) /\
  count is_factorisation (trace s') + 1 = count is_evaluation (trace s') /\
  It (slv s') <= count is_factorisation (trace s') <= It (slv s') + 1.
Proof.
  intros Hc HS. apply Solve_Ok_cases in HS.
  destruct HS as (s0 & s1 & H0 & -> & Hcases).
  rewrite !output_count, output_slv by reflexivity.
  destruct Hcases as [[_ ->]|(k & s & _ & Hk & Hit)].
  - destruct (modified_newton_calls_enter _ _ _ _ H0) as (HIt & Hf & He & Hj & HN).
    rewrite Hf, He, Hj, HN. destruct (Z.eqb_spec (It (slv s0)) 0); lia.
  - destruct (modified_newton_calls_pass _ _ _ _ _ _ Hc H0 Hk)
      as [(HIt & Hf & He & Hj & HN) Hcs].
    apply iteration_settings in Hit as Hs. unfold settings in Hs. simpl in Hs.
    injection Hs as _ _ _ _ _ _ _ _ _ _ _ _ _ _ _ HI.
    apply iteration_counts in Hit.
    destruct Hit as [(_ & Hj' & Hf' & He' & HN')|(Hj' & Hf' & He' & HN')].
    + rewrite Hj', Hf', He', HN', HI, Hf, He, Hj, HN.
      destruct (Z.eqb_spec (It (slv s)) 0); lia.
    + unfold jacobian_due in Hj', HN'. rewrite Hcs, orb_false_r in Hj', HN'.
      rewrite Hj', Hf', He', HN', HI, Hf, He, Hj, HN.
      destruct (Z.eqb_spec (It (slv s) + 1) 0); [lia|].
      destruct (Z.eqb_spec (It (slv s)) 0).
      * change (GoInt.add 0 1) with 1. lia.
      * lia.
Qed.

Lemma modified_Newton_keeps_Jacobian_only_witness :
  exists s', Solve Scalar.o_modified [1%float] true = Ok s' /\
    count is_jacobian (trace s') = NJeval (slv s') /\
    NJeval (slv s') =
      (if count is_factorisation (trace s') =? 0 then 0 else 1) /\
    count is_factorisation (trace s') + 1 = count is_evaluation (trace s') /\
    It (slv s') <= count is_factorisation (trace s') <= It (slv s') + 1.
Proof.
  exists (Scalar.the_state (Solve Scalar.o_modified [1%float] true)).
  split; [vm_compute; reflexivity|].
  apply (modified_Newton_keeps_Jacobian_only Scalar.o_modified [1%float] true);
    vm_compute; reflexivity.
Defined.

(** C3 as stated fails in its second half: with [cteJac] set the Jacobian
    is evaluated once, and still the call below factorises four times, once
    in each of its four passes. *)
Lemma factorisation_not_reused_counterexample :
  cteJac Scalar.o_modified = true /\
  exists s', Solve Scalar.o_modified [1%float] true = Ok s' /\
    NJeval (slv s') = 1 /\
    count is_jacobian (trace s') = 1 /\
    count is_factorisation (trace s') = 4 /\
    It (slv s') = 3.
Proof.
  split; [vm_compute; reflexivity|].
  eexists. split; [vm_compute; reflexivity|].
  repeat split; vm_compute; reflexivity.
Qed.

(** ** The counters *)

(** C10: [Solve] sets [NFeval] to 1 and [NJeval] to 0 before the loop, so
    that the counters with which it is entered have no influence on its
    outcome; and (while the number of evaluations stays in the range of
    [int]: [neq >= 0], at most [B] evaluations in a line search, and
    [1 + maxIt·(neq + 1 + B)] no more than the largest [int]) a call that
    returns leaves [NFeval >= 1]. *)
Theorem counters_reset_by_Solve {la : LinAlg} (o : NlSolver la) (x : Vector)
    (silent : bool) (a b c B : Z) (s' : state la) :
  0 <= neq o ->
  LineSearch_within la B ->
  1 + maxIt o * (neq o + 1 + B) <= GoInt.max_int ->
  Solve o x silent = Ok s' ->
  Solve (set_It c (set_NJeval b (set_NFeval a o))) x silent = Solve o x silent /\
  (forall s0, enter o x silent = Ok s0 ->
              NFeval (slv s0) = 1 /\ NJeval (slv s0) = 0) /\
  1 <= NFeval (slv s').
Proof.
  intros Hneq HB Hmax HS. split; [|split].
  - unfold Solve. rewrite enter_ignores_counters. reflexivity.
  - intros s0 H0. destruct (enter_spec _ _ _ _ H0) as (sc & _ & -> & _).
    simpl. auto.
  - assert (0 <= B) as HB0.
    { specialize (HB [] [] (fun _ x => x) [] [] [] 0%float 0 true). lia. }
    apply Solve_Ok_cases in HS. destruct HS as (s0 & s1 & H0 & -> & Hc).
    rewrite output_slv. destruct Hc as [[_ ->]|(k & s & Hlt & Hk & Hit)].
    + destruct (enter_spec _ _ _ _ H0) as (sc & _ & -> & _). simpl. lia.
    + pose proof (NFeval_pass o x silent B s0 k s Hneq HB Hmax H0 Hk
                    ltac:(lia)) as Hb.
      destruct (pass_settings _ _ _ _ _ _ H0 Hk) as (sc & _ & Hs).
      unfold settings in Hs. simpl in Hs.
      injection Hs as _ _ _ _ _ _ _ _ _ Hn _ _ _ _ _ _.
      apply (iteration_NFeval silent B) in Hit;
        rewrite ?Hn; try assumption; try lia.
      nia.
Qed.

Lemma counters_reset_by_Solve_witness :
  Solve (set_It 7 (set_NJeval 9 (set_NFeval 100 Scalar.o_loose))) [1%float] true =
  Solve Scalar.o_loose [1%float] true /\
  (forall s0, enter Scalar.o_loose [1%float] true = Ok s0 ->
              NFeval (slv s0) = 1 /\ NJeval (slv s0) = 0) /\
  1 <= NFeval (slv (Scalar.the_state (Solve Scalar.o_loose [1%float] true))).
Proof.
  apply (counters_reset_by_Solve Scalar.o_loose [1%float] true 100 9 7 0).
  - vm_compute. discriminate.
  - intros x fx f dx x0 d φ m b. simpl. lia.
  - vm_compute. discriminate.
  - vm_compute. reflexivity.
Defined.

(** ** The numerical Jacobian *)

(** C7: after [Init] with the sparse solver and no [JfcnSp], [numJ] is
    set; in every pass of [Solve] in which the Jacobian is due (the first
    pass, or any pass when [cteJac] is off), [o.fx] is a value of [f] at
    the present [x], and the evaluation of the Jacobian calls [Jacobian]
    with that [o.fx], does not evaluate [f] itself, adds [neq] to [NFeval]
    and 1 to [NJeval].  The difference formula is the one of
    [num.Jacobian], a collaborator here. *)
Theorem numerical_Jacobian_fallback {la : LinAlg}
    (kvs : list (string * float)) (neq0 : Z) (F : Vv) (Jdn : option (Mv la))
    (numJ0 : bool) (o0 o : NlSolver la) (x : Vector) (silent : bool)
    (s0 : state la) (k : nat) (s t : state la) :
  Init_in_order kvs neq0 F None Jdn false numJ0 o0 = Ok o ->
  LineSearch_consistent la F ->
  enter o x silent = Ok s0 ->
  at_pass silent k s0 = Some s ->
  k = 0%nat \/ cteJac o = false ->
  slv t = slv s -> xs t = xs s ->
  numJ o = true /\
  (exists f0, fx (slv s) = F f0 (xs s)) /\
  exists t', eval_jacobian t = Ok t' /\
    Jtri (slv t') =
      fst (Jacobian la (Jtri (slv s)) F (xs s) (fx (slv s)) (w (slv s))) /\
    fx (slv t') = fx (slv s) /\
    NFeval (slv t') = GoInt.add (NFeval (slv s)) neq0 /\
    NJeval (slv t') = GoInt.add (NJeval (slv s)) 1 /\
    trace t' = trace t ++ [EvJacobian (xs s) (fx (slv s))].
Proof.
  intros HI HLS H0 Hk Hdue Ho Hx.
  destruct (Init_in_order_fields _ _ _ _ _ _ _ _ _ HI)
    as (Hneq & HF & Hd & _ & HnumJ & _ & _).
  specialize (HnumJ eq_refl eq_refl).
  destruct (pass_settings _ _ _ _ _ _ H0 Hk) as (sc & _ & Hs).
  unfold settings in Hs. simpl in Hs.
  injection Hs as Hc _ _ _ _ _ _ _ _ Hn _ Hdn HnJ HFs _ HIt.
  split; [exact HnumJ|]. split.
  - rewrite <- HF in HLS.
    destruct (residual_current_pass _ _ _ _ _ _ HLS H0 Hk) as [f0 Hf0].
    exists f0. rewrite Hf0, HFs, HF. reflexivity.
  - destruct (eval_jacobian_numerical t) as (t' & He & HJ & Hfx & _ & HNF & HNJ & Ht).
    + rewrite Ho, Hdn. congruence.
    + rewrite Ho, HnJ. exact HnumJ.
    + rewrite Ho. unfold jacobian_due. rewrite Hc, HIt.
      destruct Hdue as [-> | ->]; [reflexivity | apply orb_true_r].
    + exists t'. rewrite Ho, Hx, HFs, HF in *. rewrite Hn, Hneq in HNF. auto 10.
Qed.

Lemma numerical_Jacobian_fallback_witness :
  let s0 := Scalar.the_state (enter Scalar.o_numerical [1%float] true) in
  let s := Scalar.the_pass 1 s0 in
  numJ Scalar.o_numerical = true /\
  (exists f0, fx (slv s) = Scalar.sq2 f0 (xs s)) /\
  exists t', eval_jacobian s = Ok t' /\
    Jtri (slv t') =
      fst (Jacobian Scalar.la1 (Jtri (slv s)) Scalar.sq2 (xs s) (fx (slv s))
             (w (slv s))) /\
    fx (slv t') = fx (slv s) /\
    NFeval (slv t') = GoInt.add (NFeval (slv s)) 1 /\
    NJeval (slv t') = GoInt.add (NJeval (slv s)) 1 /\
    trace t' = trace s ++ [EvJacobian (xs s) (fx (slv s))].
Proof.
  intros s0 s.
  apply (numerical_Jacobian_fallback Scalar.init_numerical_order 1 Scalar.sq2
           None false (Scalar.zero Scalar.sq2) Scalar.o_numerical [1%float]
           true s0 1 s s).
  - vm_compute. reflexivity.
  - intros x fx dx x0 d φ m b Hres. simpl. exact Hres.
  - vm_compute. reflexivity.
  - vm_compute. reflexivity.
  - right. vm_compute. reflexivity.
  - reflexivity.
  - reflexivity.
Defined.

(** * Further properties of [Solve] *)

Section Leaving.

Context {la : LinAlg}.
Implicit Types (o : NlSolver la) (s : state la).

Lemma msg_locals silent typ it l f a b s :
  Ldx (msg silent typ it l f a b s) = Ldx s /\
  fxMax (msg silent typ it l f a b s) = fxMax s.
Proof. unfold msg. destruct silent; auto. Qed.

Lemma output_locals s : Ldx (output s) = Ldx s /\ fxMax (output s) = fxMax s.
Proof. unfold output. destruct (Out (slv s)); auto. Qed.

(** A pass leaves the loop only on one of its convergence tests. *)
Lemma newton_pass_break silent s s1 :
  newton_pass silent s = Ok (Break, s1) ->
  ((fxMax s1 <? ftol (slv s1))%float = true /\
   fxMax s1 = Largest (fx (slv s1)) 1) \/
  (Ldx s1 <? fnewt (slv s1))%float = true.
Proof.
  unfold newton_pass. intros H. inv_ok.
  all: try match goal with Hc : Continue = Break |- _ => discriminate Hc end.
  all: rewrite ?msg_slv;
    repeat match goal with
    | |- context [Ldx (msg ?a ?b ?c ?d ?e ?f ?g ?h)] =>
        rewrite (proj1 (msg_locals a b c d e f g h))
    | |- context [fxMax (msg ?a ?b ?c ?d ?e ?f ?g ?h)] =>
        rewrite (proj2 (msg_locals a b c d e f g h))
    end; auto.
Qed.

Lemma iteration_break silent s s1 :
  iteration silent s = Ok (Break, s1) -> newton_pass silent s = Ok (Break, s1).
Proof.
  unfold iteration. intros H. inv_bind H. destruct r as [[] t].
  - inv_bind H. discriminate.
  - injection H as <-. assumption.
Qed.

End Leaving.

(** X1: when [Solve] returns and [maxIt] is not negative, a convergence
    test held in the last pass: at return either [fxMax], which is
    [max_i |f_i(x)|] for the [fx] left in the solver, is below [ftol], or
    [Ldx] is below [fnewt]; and [It], the index of that pass, is below
    [maxIt]. *)
Theorem Solve_returns_converged {la : LinAlg} (o : NlSolver la) (x : Vector)
    (silent : bool) (s' : state la) :
  0 <= maxIt o ->
  Solve o x silent = Ok s' ->
  0 <= It (slv s') < maxIt o /\
  (((fxMax s' <? ftol o)%float = true /\
    fxMax s' = Largest (fx (slv s')) 1) \/
   (Ldx s' <? fnewt o)%float = true).
Proof.
  intros Hm HS. apply Solve_Ok_cases in HS.
  destruct HS as (s0 & s1 & H0 & -> & [[Hneg _]|(k & s & Hlt & Hk & Hit)]);
    [lia|].
  destruct (pass_settings _ _ _ _ _ _ H0 Hk) as (sc & _ & Hs).
  apply iteration_settings in Hit as Hs1. rewrite Hs in Hs1.
  unfold settings in Hs1. simpl in Hs1.
  injection Hs1 as _ _ _ _ _ _ _ Hft Hfn _ _ _ _ _ _ HIt.
  rewrite output_slv, HIt.
  destruct (output_locals s1) as [-> ->]. split; [lia|].
  apply iteration_break, newton_pass_break in Hit.
  rewrite Hft, Hfn in Hit. exact Hit.
Qed.

Lemma Solve_returns_converged_witness :
  let s' := Scalar.the_state (Solve Scalar.o_loose [1%float] true) in
  0 <= It (slv s') < maxIt Scalar.o_loose /\
  (((fxMax s' <? ftol Scalar.o_loose)%float = true /\
    fxMax s' = Largest (fx (slv s')) 1) \/
   (Ldx s' <? fnewt Scalar.o_loose)%float = true).
Proof.
  intros s'.
  apply (Solve_returns_converged Scalar.o_loose [1%float] true s').
  - vm_compute. discriminate.
  - vm_compute. reflexivity.
Defined.

(** X2: [Solve] leaves the options of the solver as they were: the flags,
    the limits, the tolerances, [fnewt], [neq] and the choice of the linear
    solver and of the Jacobian. *)
Theorem Solve_keeps_options {la : LinAlg} (o : NlSolver la) (x : Vector)
    (silent : bool) (s' : state la) :
  Solve o x silent = Ok s' -> options (slv s') = options o.
Proof.
  intros HS. apply Solve_Ok_cases in HS.
  destruct HS as (s0 & s1 & H0 & -> & Hc). rewrite output_slv.
  destruct (enter_settings _ _ _ _ H0) as (sc0 & _ & Hs0).
  destruct Hc as [[_ ->]|(k & s & _ & Hk & Hit)].
  - unfold settings in Hs0. simpl in Hs0. unfold options.
    injection Hs0 as -> -> -> -> -> -> -> -> -> -> _ -> -> _ _ _.
    reflexivity.
  - destruct (pass_settings _ _ _ _ _ _ H0 Hk) as (sc & _ & Hs).
    apply iteration_settings in Hit. rewrite Hs in Hit.
    unfold settings in Hit. simpl in Hit. unfold options.
    injection Hit as -> -> -> -> -> -> -> -> -> -> _ -> -> _ _ _.
    reflexivity.
Qed.

Lemma Solve_keeps_options_witness :
  options (slv (Scalar.the_state (Solve Scalar.o_loose [1%float] true))) =
  options Scalar.o_loose.
Proof.
  apply (Solve_keeps_options Scalar.o_loose [1%float] true).
  vm_compute. reflexivity.
Defined.

(** ** Where the panics of [Solve] come from *)

Lemma bind_Panic {A B} (m : result A) (f : A -> result B) (e : panic) :
  m ≫= f = Panic e -> m = Panic e \/ exists a, m = Ok a /\ f a = Panic e.
Proof.
  destruct m as [a|e']; simpl; intros H; [right; eauto | left; congruence].
Qed.

Lemma vget_Panic (v : Vector) (i : Z) (e : panic) :
  vget v i = Panic e -> e = IndexOutOfRange.
Proof.
  unfold vget. destruct (i <? 0); [congruence|].
  destruct (v !! Z.to_nat i); simpl; congruence.
Qed.

Lemma vset_Panic (v : Vector) (i : Z) (a : float) (e : panic) :
  vset v i a = Panic e -> e = IndexOutOfRange.
Proof. unfold vset. destruct (_ && _); congruence. Qed.

Lemma for_from_Panic {St : Type} (P : panic -> Prop)
    (body : Z -> St -> result St) :
  (forall i s e, body i s = Panic e -> P e) ->
  forall k i s e, for_from k i body s = Panic e -> P e.
Proof.
  intros Hb k. induction k as [|k IH]; simpl; intros i s e H.
  - discriminate.
  - apply bind_Panic in H as [H|(a & _ & H)]; eauto.
Qed.

(** Splits a hypothesis [c = Panic e] along the binds, the conditionals and
    the lets of [c]. *)
Ltac inv_panic :=
  repeat match goal with
  | H : Ok _ = Panic _ |- _ => discriminate H
  | H : Panic _ = Panic _ |- _ => injection H as H; try subst
  | H : vget _ _ = Panic _ |- _ => apply vget_Panic in H; try subst
  | H : vset _ _ _ = Panic _ |- _ => apply vset_Panic in H; try subst
  | H : (_ ≫= _) = Panic _ |- _ =>
      let a := fresh "r" in
      let Ha := fresh "E" in
      apply bind_Panic in H; destruct H as [H|(a & Ha & H)]
  | H : of_option _ ?m = Panic _ |- _ => destruct m eqn:?; simpl in H
  | H : (if ?b then _ else _) = Panic _ |- _ => destruct b eqn:?
  | H : (let '(_, _) := ?p in _) = Panic _ |- _ => destruct p eqn:?
  | H : match ?p with Some _ => _ | None => _ end = Panic _ |- _ =>
      destruct p eqn:?
  end.

Section Panics.

Context {la : LinAlg}.
Implicit Types (o : NlSolver la) (s : state la).

Lemma eval_jacobian_Panic s e :
  eval_jacobian s = Panic e -> runtime_panic e.
Proof. unfold eval_jacobian, runtime_panic. intros H. inv_panic; auto. Qed.

Lemma dense_row_Panic i j o e : dense_row i j o = Panic e -> runtime_panic e.
Proof. unfold dense_row, runtime_panic. intros H. inv_panic; auto. Qed.

Lemma dense_solution_Panic s e :
  dense_solution s = Panic e -> runtime_panic e.
Proof.
  unfold dense_solution. intros H. inv_panic; try (unfold runtime_panic; auto; fail).
  revert H. apply for_from_Panic. clear. intros i o e H. inv_panic;
    try (unfold runtime_panic; auto; fail).
  revert H. apply for_from_Panic. intros j o' e'. apply dense_row_Panic.
Qed.

Lemma sparse_solution_Panic s e :
  sparse_solution s = Panic e -> runtime_panic e.
Proof.
  unfold sparse_solution, runtime_panic. intros H.
  destruct (lsReady (slv s)); inv_panic; auto.
Qed.

Lemma update_x_Panic s e : update_x s = Panic e -> e = IndexOutOfRange.
Proof.
  unfold update_x. intros H. inv_panic.
  revert H. apply (for_from_Panic (fun e => e = IndexOutOfRange)).
  clear. intros i s e H. inv_panic; reflexivity.
Qed.

Lemma line_search_Panic s e : line_search s = Panic e -> e = IndexOutOfRange.
Proof.
  unfold line_search. intros H. inv_panic.
  revert H. apply (for_from_Panic (fun e => e = IndexOutOfRange)).
  clear. intros i s e H. inv_panic; reflexivity.
Qed.

Lemma newton_update_Panic silent s e :
  newton_update silent s = Panic e -> runtime_panic e.
Proof.
  unfold newton_update. intros H. inv_panic.
  - eapply eval_jacobian_Panic, H.
  - eapply dense_solution_Panic, H.
  - eapply sparse_solution_Panic, H.
  - apply update_x_Panic in H. unfold runtime_panic. auto.
Qed.

Lemma newton_pass_Panic silent s e :
  newton_pass silent s = Panic e -> runtime_panic e.
Proof.
  unfold newton_pass. intros H. inv_panic.
  - eapply newton_update_Panic, H.
  - apply line_search_Panic in H. unfold runtime_panic. auto.
Qed.

Lemma check_rate_Panic s e :
  check_rate s = Panic e ->
  e = Diverging (Ldx s / LdxPrev s) (Ldx s) (LdxPrev s) /\
  0 < It (slv s) /\ chkConv (slv s) = true /\
  (0.99 <? Ldx s / LdxPrev s)%float = true.
Proof.
  unfold check_rate. intros H.
  destruct (Z.ltb_spec 0 (It (slv s))); simpl in H; [|discriminate].
  destruct (chkConv (slv s)); simpl in H; [|discriminate].
  destruct (0.99 <? Ldx s / LdxPrev s)%float eqn:HΘ; [|discriminate].
  injection H as <-. auto.
Qed.

(** A pass panics in the run time or a collaborator, or on the rate. *)
Lemma iteration_Panic silent s e :
  iteration silent s = Panic e ->
  runtime_panic e \/
  exists t, newton_pass silent s = Ok (Continue, t) /\
    e = Diverging (Ldx t / LdxPrev t) (Ldx t) (LdxPrev t) /\
    0 < It (slv t) /\ chkConv (slv t) = true /\
    (0.99 <? Ldx t / LdxPrev t)%float = true.
Proof.
  unfold iteration. intros H.
  apply bind_Panic in H as [H|([[] t] & Hp & H)].
  - left. eapply newton_pass_Panic, H.
  - apply bind_Panic in H as [H|(a & _ & H)]; [|discriminate].
    right. exists t. split; [assumption|]. apply check_rate_Panic, H.
  - discriminate.
Qed.

Lemma loop_Panic silent n s e :
  loop silent n s = Panic e ->
  exists k s1, (k < n)%nat /\ at_pass silent k s = Some s1 /\
               iteration silent s1 = Panic e.
Proof.
  revert s. induction n as [|n IH]; simpl; intros s H; [discriminate|].
  destruct (iteration silent s) as [[[] s2]|e'] eqn:E; simpl in H.
  - apply IH in H. destruct H as (k & s1 & Hk & H1 & H2).
    exists (S k), s1. simpl. rewrite E. split; [lia|auto].
  - discriminate.
  - injection H as <-. exists O, s. simpl. split; [lia|auto].
Qed.

Lemma VecScaleAbs_Panic (scal : Vector) (a m : float) (x : Vector) e :
  VecScaleAbs scal a m x = Panic e -> e = IndexOutOfRange.
Proof.
  revert scal. induction x as [|x0 x IH]; intros scal H.
  - destruct scal; discriminate.
  - destruct scal as [|s0 scal]; simpl in H; [congruence|].
    apply bind_Panic in H as [H|(r & _ & H)]; [eauto | discriminate].
Qed.

(** The three ways in which [Solve] panics. *)
Lemma Solve_Panic_cases o x silent e :
  Solve o x silent = Panic e ->
  (enter o x silent = Panic e /\ e = IndexOutOfRange) \/
  (exists s0 k s, enter o x silent = Ok s0 /\ Z.of_nat k < maxIt o /\
     at_pass silent k s0 = Some s /\ iteration silent s = Panic e) \/
  (e = CannotConverge (maxIt o) /\ 0 <= maxIt o /\
   exists s0 s', enter o x silent = Ok s0 /\
     at_pass silent (Z.to_nat (maxIt o)) s0 = Some s').
Proof.
  unfold Solve. intros H. apply bind_Panic in H as [H|(s0 & H0 & H)].
  - left. split; [assumption|]. unfold enter in H.
    apply bind_Panic in H as [H|(a & _ & H)]; [|discriminate].
    eapply VecScaleAbs_Panic, H.
  - right. destruct (enter_settings _ _ _ _ H0) as (sc & _ & Hs0).
    unfold settings in Hs0. simpl in Hs0.
    injection Hs0 as _ _ _ Hm0 _ _ _ _ _ _ _ _ _ _ _ HI0.
    apply bind_Panic in H as [H|([fl s1] & Hl & H)].
    + left. apply loop_Panic in H. destruct H as (k & s & Hk & Hp & Hit).
      exists s0, k, s. rewrite Hm0 in Hk. repeat split; try assumption. lia.
    + right. rewrite output_slv in H.
      destruct (Z.eqb_spec (It (slv s1)) (maxIt (slv s1))) as [Heq|];
        [|discriminate]. injection H as <-.
      apply loop_cases in Hl.
      destruct Hl as [[-> Hn]|[-> (k & s & Hk & Hp & Hit)]].
      * apply at_pass_settings in Hn as Hs. unfold settings in Hs.
        simpl in Hs. injection Hs as _ _ _ Hm _ _ _ _ _ _ _ _ _ _ _ HI.
        rewrite Hm0 in *. rewrite HI0 in HI. rewrite Hm in Heq.
        assert (0 <= maxIt o) by lia.
        split; [congruence|]. split; [assumption|]. eauto.
      * exfalso. apply at_pass_settings in Hp as Hs.
        apply iteration_settings in Hit. rewrite Hs in Hit.
        unfold settings in Hit. simpl in Hit.
        injection Hit as _ _ _ Hm _ _ _ _ _ _ _ _ _ _ _ HI.
        rewrite Hm0 in *. lia.
Qed.

End Panics.

(** X3: [Solve] panics with "cannot converge after n iterations" only when
    [n] is [maxIt], [maxIt] is not negative and all [maxIt] passes of the
    loop ran to their end. *)
Theorem cannot_converge_only_when_exhausted {la : LinAlg} (o : NlSolver la)
    (x : Vector) (silent : bool) (n : Z) :
  Solve o x silent = Panic (CannotConverge n) ->
  n = maxIt o /\ 0 <= maxIt o /\
  exists s0 s', enter o x silent = Ok s0 /\
    at_pass silent (Z.to_nat (maxIt o)) s0 = Some s'.
Proof.
  intros H. apply Solve_Panic_cases in H.
  destruct H as [[_ H]|[(s0 & k & s & _ & _ & _ & H)|(H & Hm & Hex)]].
  - discriminate.
  - apply iteration_Panic in H as [[H|[H|H]]|(t & _ & H & _)]; discriminate.
  - injection H as ->. auto.
Qed.

Lemma cannot_converge_only_when_exhausted_witness :
  2 = maxIt Scalar.o_two_passes /\ 0 <= maxIt Scalar.o_two_passes /\
  exists s0 s', enter Scalar.o_two_passes [1%float] true = Ok s0 /\
    at_pass true (Z.to_nat (maxIt Scalar.o_two_passes)) s0 = Some s'.
Proof.
  apply (cannot_converge_only_when_exhausted Scalar.o_two_passes [1%float] true 2).
  vm_compute. reflexivity.
Defined.

(** X4: [Solve] panics with "solver is diverging" only when [chkConv] is
    set, in a pass after the first that reached the rate check, and the
    three numbers it reports are [Ldx / LdxPrev], above 0.99, [Ldx] and
    [LdxPrev] of that pass. *)
Theorem diverging_only_when_checked {la : LinAlg} (o : NlSolver la)
    (x : Vector) (silent : bool) (θ l lp : float) :
  Solve o x silent = Panic (Diverging θ l lp) ->
  chkConv o = true /\ θ = (l / lp)%float /\ (0.99 <? θ)%float = true /\
  exists s0 k s t, enter o x silent = Ok s0 /\
    at_pass silent (S k) s0 = Some s /\ Z.of_nat (S k) < maxIt o /\
    newton_pass silent s = Ok (Continue, t) /\ l = Ldx t /\ lp = LdxPrev t.
Proof.
  intros H. apply Solve_Panic_cases in H.
  destruct H as [[_ H]|[(s0 & k & s & H0 & Hlt & Hk & H)|(H & _)]];
    try discriminate.
  apply iteration_Panic in H as [[H|[H|H]]|(t & Hp & H & HIt & Hchk & HΘ)];
    try discriminate.
  injection H as -> -> ->.
  destruct (pass_settings _ _ _ _ _ _ H0 Hk) as (sc & _ & Hs).
  apply newton_pass_settings in Hp as Hs1. rewrite Hs in Hs1.
  unfold settings in Hs1. simpl in Hs1.
  injection Hs1 as _ _ _ _ Hc _ _ _ _ _ _ _ _ _ _ HI.
  split; [congruence|]. split; [reflexivity|]. split; [assumption|].
  destruct k as [|k]; [simpl in HI; lia|].
  exists s0, k, s, t. auto 10.
Qed.

Lemma diverging_only_when_checked_witness :
  chkConv Scalar.o_cubic_chk = true /\
  1%float = (100000000 / 100000000)%float /\ (0.99 <? 1)%float = true /\
  exists s0 k s t, enter Scalar.o_cubic_chk [0%float] true = Ok s0 /\
    at_pass true (S k) s0 = Some s /\
    Z.of_nat (S k) < maxIt Scalar.o_cubic_chk /\
    newton_pass true s = Ok (Continue, t) /\
    100000000%float = Ldx t /\ 100000000%float = LdxPrev t.
Proof.
  apply (diverging_only_when_checked Scalar.o_cubic_chk [0%float] true).
  vm_compute. reflexivity.
Defined.

(** ** What [silent] changes *)

Lemma unmsg_snoc (t : list Event) (e : Event) :
  unmsg (t ++ [e]) = unmsg t ++ (if is_msg e then [] else [e]).
Proof.
  unfold unmsg. rewrite List.filter_app. simpl. destruct (is_msg e); reflexivity.
Qed.

Lemma result_map_bind {A B A' B'} (f : A -> A') (g : B -> B')
    (m : result A) (m' : result A') (k : A -> result B) (k' : A' -> result B') :
  m' = result_map f m ->
  (forall a, k' (f a) = result_map g (k a)) ->
  m' ≫= k' = result_map g (m ≫= k).
Proof. intros -> Hk. destruct m as [a|e]; simpl; [apply Hk | reflexivity]. Qed.

Lemma for_from_map {St : Type} (q : St -> St) (body : Z -> St -> result St) :
  (forall i s, body i (q s) = result_map q (body i s)) ->
  forall k i s, for_from k i body (q s) = result_map q (for_from k i body s).
Proof.
  intros Hb k. induction k as [|k IH]; simpl; intros i s; [reflexivity|].
  apply (result_map_bind q q); [apply Hb | intros a; apply IH].
Qed.

Section Silent.

Context {la : LinAlg}.
Implicit Types (o : NlSolver la) (s : state la).

Lemma quiet_emit e s :
  is_msg e = false -> quiet (emit e s) = emit e (quiet s).
Proof. intros He. unfold quiet, emit. simpl. rewrite unmsg_snoc, He. reflexivity. Qed.

Lemma quiet_msg silent typ it l f a b s :
  quiet (msg silent typ it l f a b s) = quiet s.
Proof.
  unfold msg. destruct silent; [reflexivity|].
  unfold quiet, emit. simpl. rewrite unmsg_snoc. simpl.
  rewrite app_nil_r. reflexivity.
Qed.

Lemma state_eq (a b : state la) :
  slv a = slv b -> xs a = xs b -> Ldx a = Ldx b -> LdxPrev a = LdxPrev b ->
  Θ a = Θ b -> fxMax a = fxMax b -> nfv a = nfv b -> trace a = trace b ->
  a = b.
Proof. destruct a, b; simpl; intros; subst; reflexivity. Qed.

Ltac quiet_norm :=
  cbn [slv xs Ldx LdxPrev Θ fxMax nfv trace quiet emit upd set_xs set_Ldx
       set_fxMax set_nfv set_Θ set_LdxPrev mbind result_bind of_option
       result_map].

Ltac quiet_eq :=
  quiet_norm;
  try match goal with |- Ok _ = Ok _ => apply f_equal end;
  apply state_eq; quiet_norm;
  [ reflexivity .. |
    rewrite ?unmsg_snoc; cbn [is_msg negb]; rewrite ?app_nil_r; reflexivity ].

Lemma quiet_output s : output (quiet s) = quiet (output s).
Proof. unfold output. quiet_norm. destruct (Out (slv s)); quiet_eq. Qed.

Lemma quiet_eval_f s : eval_f (quiet s) = quiet (eval_f s).
Proof. unfold eval_f. quiet_eq. Qed.

Lemma quiet_eval_jacobian s :
  eval_jacobian (quiet s) = result_map quiet (eval_jacobian s).
Proof.
  unfold eval_jacobian. quiet_norm.
  destruct ((It (slv s) =? 0) || negb (cteJac (slv s))); [|reflexivity].
  destruct (useDn (slv s)).
  - destruct (JfcnDn (slv s)); [|reflexivity]. quiet_eq.
  - destruct (numJ (slv s)).
    + destruct (Jacobian la _ _ _ _ _). quiet_eq.
    + destruct (JfcnSp (slv s)); [|reflexivity]. quiet_eq.
Qed.

Lemma quiet_dense_solution s :
  dense_solution (quiet s) = result_map quiet (dense_solution s).
Proof.
  unfold dense_solution. quiet_norm.
  destruct (MatInv la (Ji (slv s)) (J (slv s))); [|reflexivity].
  quiet_norm. destruct (for_range _ _ _); [|reflexivity]. quiet_eq.
Qed.

Lemma quiet_sparse_solution s :
  sparse_solution (quiet s) = result_map quiet (sparse_solution s).
Proof.
  unfold sparse_solution. quiet_norm.
  destruct (lsReady (slv s)); quiet_norm.
  all: match goal with
       | |- context [Umfpack_Fact la ?a ?b] =>
           destruct (Umfpack_Fact la a b); [|reflexivity]
       end; quiet_norm.
  all: match goal with
       | |- context [Umfpack_Solve la ?a ?b ?c] =>
           destruct (Umfpack_Solve la a b c); [|reflexivity]
       end; quiet_norm.
  all: match goal with
       | |- context [if ?b then _ else _] => destruct b
       end; quiet_eq.
Qed.

Lemma quiet_update_x s : update_x (quiet s) = result_map quiet (update_x s).
Proof.
  unfold update_x, for_range.
  change (set_Ldx 0 (quiet s)) with (quiet (set_Ldx 0 s)).
  change (slv (quiet (set_Ldx 0 s))) with (slv (set_Ldx 0 s)).
  apply (result_map_bind quiet quiet); [|reflexivity].
  apply (for_from_map quiet). clear. intros i s. quiet_norm.
  repeat match goal with
  | |- context [vget ?v ?i] => destruct (vget v i); quiet_norm; [|reflexivity]
  | |- context [vset ?v ?i ?a] =>
      destruct (vset v i a); quiet_norm; [|reflexivity]
  end.
  reflexivity.
Qed.

Lemma quiet_line_search s :
  line_search (quiet s) = result_map quiet (line_search s).
Proof.
  unfold line_search, for_range. quiet_norm.
  destruct (LineSearch la _ _ _ _ _ _ _ _ _) as [[n x'] fx']. quiet_norm.
  match goal with
  | |- for_from ?k ?i ?body ?a ≫= _ = result_map _ (for_from _ _ _ ?b ≫= _) =>
      assert (a = quiet b) as -> by quiet_eq
  end.
  apply (result_map_bind quiet quiet); [|reflexivity].
  apply (for_from_map quiet). clear. intros i s. quiet_norm.
  repeat match goal with
  | |- context [vget ?v ?i] => destruct (vget v i); quiet_norm; [|reflexivity]
  end.
  reflexivity.
Qed.

Lemma quiet_check_rate s : check_rate (quiet s) = result_map quiet (check_rate s).
Proof.
  unfold check_rate. quiet_norm.
  destruct ((0 <? It (slv s)) && chkConv (slv s)); [|reflexivity].
  destruct (0.99 <? Ldx s / LdxPrev s)%float; reflexivity.
Qed.

Lemma quiet_newton_update silent s :
  newton_update true (quiet s) = result_map quiet (newton_update silent s).
Proof.
  unfold newton_update.
  change (msg true EmptyString (It (slv (quiet s))) (Ldx (quiet s)) (fxMax (quiet s))
            false false (quiet s)) with (quiet s).
  set (s1 := msg silent EmptyString (It (slv s)) (Ldx s) (fxMax s) false false s).
  assert (output (quiet s) = quiet (output s1)) as ->.
  { rewrite quiet_output. unfold s1, output. rewrite msg_slv, msg_xs.
    destruct (Out (slv s)); [|apply eq_sym, quiet_msg].
    unfold quiet, emit. simpl. rewrite !unmsg_snoc. simpl.
    unfold msg. destruct silent; simpl; rewrite ?unmsg_snoc; simpl;
      rewrite ?app_nil_r; reflexivity. }
  apply (result_map_bind quiet quiet); [apply quiet_eval_jacobian|].
  intros a. apply (result_map_bind quiet quiet).
  { change (slv (quiet a)) with (slv a). destruct (useDn (slv a));
      [apply quiet_dense_solution | apply quiet_sparse_solution]. }
  intros a0. apply (result_map_bind quiet quiet); [apply quiet_update_x|].
  intros a1. simpl. rewrite quiet_eval_f. reflexivity.
Qed.

Lemma quiet_newton_pass silent s :
  newton_pass true (quiet s) =
  result_map (fun r => (fst r, quiet (snd r))) (newton_pass silent s).
Proof.
  unfold newton_pass.
  change (set_fxMax (Largest (fx (slv (quiet s))) 1) (quiet s))
    with (quiet (set_fxMax (Largest (fx (slv s)) 1) s)).
  set (s1 := set_fxMax (Largest (fx (slv s)) 1) s).
  change (fxMax (quiet s1)) with (fxMax s1).
  change (slv (quiet s1)) with (slv s1).
  destruct (fxMax s1 <? ftol (slv s1))%float.
  { simpl. rewrite quiet_msg. reflexivity. }
  apply (result_map_bind quiet (fun r => (fst r, quiet (snd r))));
    [apply quiet_newton_update|].
  intros a.
  change (set_fxMax (Largest (fx (slv (quiet a))) 1) (quiet a))
    with (quiet (set_fxMax (Largest (fx (slv a)) 1) a)).
  set (a1 := set_fxMax (Largest (fx (slv a)) 1) a).
  change (fxMax (quiet a1)) with (fxMax a1).
  change (slv (quiet a1)) with (slv a1).
  change (Ldx (quiet a1)) with (Ldx a1).
  destruct (fxMax a1 <? ftol (slv a1))%float.
  { simpl. rewrite quiet_msg. reflexivity. }
  destruct (Ldx a1 <? fnewt (slv a1))%float.
  { simpl. rewrite quiet_msg. reflexivity. }
  destruct (linSearch (slv a1)); [|reflexivity].
  apply (result_map_bind quiet (fun r => (fst r, quiet (snd r))));
    [apply quiet_line_search|].
  intros b.
  change (slv (quiet b)) with (slv b). change (Ldx (quiet b)) with (Ldx b).
  destruct (Ldx b <? fnewt (slv b))%float; [|reflexivity].
  simpl. rewrite quiet_msg. reflexivity.
Qed.

Lemma quiet_iteration silent s :
  iteration true (quiet s) =
  result_map (fun r => (fst r, quiet (snd r))) (iteration silent s).
Proof.
  unfold iteration.
  apply (result_map_bind (fun r => (fst r, quiet (snd r)))
           (fun r => (fst r, quiet (snd r)))); [apply quiet_newton_pass|].
  intros [[] t]; simpl; [|reflexivity].
  apply (result_map_bind quiet (fun r => (fst r, quiet (snd r))));
    [apply quiet_check_rate|].
  intros a. reflexivity.
Qed.

Lemma quiet_loop silent n s :
  loop true n (quiet s) =
  result_map (fun r => (fst r, quiet (snd r))) (loop silent n s).
Proof.
  revert s. induction n as [|n IH]; intros s; [reflexivity|].
  simpl. apply (result_map_bind (fun r => (fst r, quiet (snd r)))
                  (fun r => (fst r, quiet (snd r)))); [apply quiet_iteration|].
  intros [[] t]; simpl; [|reflexivity]. apply (IH (next_It t)).
Qed.

Lemma quiet_enter o x silent :
  enter o x true = result_map quiet (enter o x silent).
Proof.
  unfold enter. destruct (VecScaleAbs _ _ _ _); [|reflexivity]. simpl.
  f_equal. destruct silent; quiet_eq.
Qed.

End Silent.

(** X5: [silent] only switches the messages off: the call with [silent]
    set has the outcome of the call without it, the same panic or the same
    solver, [x] and local values, and makes the same calls in the same
    order, the messages apart. *)
Theorem silent_only_drops_messages {la : LinAlg} (o : NlSolver la)
    (x : Vector) (silent : bool) :
  Solve o x true = result_map quiet (Solve o x silent).
Proof.
  unfold Solve.
  apply (result_map_bind quiet quiet); [apply quiet_enter|].
  intros s0. change (slv (quiet s0)) with (slv s0).
  apply (result_map_bind (fun r => (fst r, quiet (snd r))) quiet);
    [apply quiet_loop|].
  intros [fl s1]. simpl. rewrite quiet_output.
  change (slv (quiet (output s1))) with (slv (output s1)).
  destruct (It (slv (output s1)) =? maxIt (slv (output s1))); reflexivity.
Qed.

(** ** The calls of a pass, in order *)

Section Calls.

Context {la : LinAlg}.
Implicit Types (o : NlSolver la) (s : state la).

Lemma pair4_eq {A B C D} (a a' : A) (b b' : B) (c c' : C) (d d' : D) :
  a = a' -> b = b' -> c = c' -> d = d' -> (a, b, c, d) = (a', b', c', d').
Proof. congruence. Qed.

Ltac proj_eq := first [reflexivity | assumption | symmetry; assumption].

Lemma eval_jacobian_trace s s' :
  eval_jacobian s = Ok s' ->
  trace s' = trace s ++ (if jacobian_due (slv s) then [jacobian_call s] else []) /\
  (useDn (slv s'), lsReady (slv s'), fx (slv s'), xs s') =
  (useDn (slv s), lsReady (slv s), fx (slv s), xs s).
Proof.
  unfold eval_jacobian, jacobian_due, jacobian_call. intros H.
  destruct ((It (slv s) =? 0) || negb (cteJac (slv s))).
  - inv_ok; (split; [reflexivity | apply pair4_eq; proj_eq]).
  - inv_ok. rewrite app_nil_r. auto.
Qed.

Lemma solution_trace s s' :
  (if useDn (slv s) then dense_solution s else sparse_solution s) = Ok s' ->
  trace s' = trace s ++ solution_calls s /\ xs s' = xs s /\
  lsReady (slv s') = lsReady (slv s) || negb (useDn (slv s)).
Proof.
  unfold solution_calls. destruct (useDn (slv s)) eqn:Hd; intros H.
  - apply dense_solution_trace in H as Ht. split; [assumption|].
    unfold dense_solution in H. inv_ok. simpl.
    apply (for_range_preserves lsReady) in E0.
    + simpl in E0. rewrite E0, orb_false_r. auto.
    + clear. intros i o o' H. inv_ok.
      apply (for_range_preserves lsReady) in E1; [exact E1|].
      clear. intros j o o' H. unfold dense_row in H. inv_ok. reflexivity.
  - unfold sparse_solution in H.
    destruct (lsReady (slv s)) eqn:Hr; inv_ok; simpl;
      rewrite <- ?app_assoc; simpl; auto.
Qed.

Lemma update_x_xs_trace s s' :
  update_x s = Ok s' -> trace s' = trace s /\ lsReady (slv s') = lsReady (slv s).
Proof.
  intros H. split; [exact (update_x_trace _ _ H)|].
  unfold update_x in H. inv_ok. simpl.
  apply (for_range_preserves (fun s => lsReady (slv s))) in E; [exact E|].
  clear. intros i s s' H. inv_ok. reflexivity.
Qed.

Lemma line_search_lsReady s s' :
  line_search s = Ok s' -> lsReady (slv s') = lsReady (slv s).
Proof.
  unfold line_search. intros H. inv_ok.
  match goal with
  | HE : for_range _ _ _ = Ok _ |- _ =>
      apply (for_range_preserves (fun s => lsReady (slv s))) in HE;
        [exact HE | clear; intros i s s' H; inv_ok; reflexivity]
  end.
Qed.

(** The calls of a Newton update, in the order in which they are made, and
    what it does to [lsReady]. *)
Lemma newton_update_trace silent s s' :
  newton_update silent s = Ok s' ->
  trace s' = trace s ++ update_calls silent s s' /\
  lsReady (slv s') = lsReady (slv s) || negb (useDn (slv s)).
Proof.
  unfold newton_update. intros H. inv_bind H. inv_bind H. inv_bind H.
  injection H as <-.
  apply eval_jacobian_trace in E as [Ht1 Hk1].
  rewrite output_slv, msg_slv in Ht1, Hk1. rewrite output_xs, msg_xs in Hk1.
  injection Hk1 as Hd Hls Hfx Hxs.
  assert (jacobian_call (output (msg silent EmptyString (It (slv s)) (Ldx s) (fxMax s)
                                   false false s)) = jacobian_call s) as HJ.
  { unfold jacobian_call. rewrite output_slv, msg_slv, output_xs, msg_xs.
    reflexivity. }
  rewrite HJ in Ht1.
  apply solution_trace in E0 as (Ht2 & Hx2 & Hl2).
  assert (solution_calls r = solution_calls s) as HS.
  { unfold solution_calls. rewrite Hd, Hls, Hfx. reflexivity. }
  rewrite HS in Ht2. apply update_x_xs_trace in E1 as [Ht3 Hl3].
  split.
  - simpl. rewrite Ht3, Ht2, Ht1. unfold update_calls, output.
    rewrite msg_slv, msg_xs. unfold msg.
    destruct silent, (Out (slv s)); cbn [trace emit];
      rewrite <- ?app_assoc; reflexivity.
  - simpl. rewrite Hl3, Hl2, Hls, Hd. reflexivity.
Qed.

(** Among the calls of a pass, those of a kind that is neither a message
    nor a line search are those of its Newton update, if it makes one. *)
Lemma iteration_count silent s fl s' :
  iteration silent s = Ok (fl, s') ->
  (fl = Break /\
   (forall p, plain p -> count p (trace s') = count p (trace s)) /\
   slv s' = slv s) \/
  (exists s1, newton_update silent (set_fxMax (Largest (fx (slv s)) 1) s) = Ok s1 /\
     (forall p, plain p ->
        count p (trace s') =
          count p (trace s) +
          count p (update_calls silent (set_fxMax (Largest (fx (slv s)) 1) s) s1)) /\
     lsReady (slv s') = lsReady (slv s) || negb (useDn (slv s)) /\
     (linSearch (slv s) = false -> slv s' = slv s1)).
Proof.
  intros H.
  assert (forall t, newton_pass silent s = Ok (fl, t) ->
    (fl = Break /\
     (forall p, plain p -> count p (trace t) = count p (trace s)) /\
     slv t = slv s) \/
    (exists s1, newton_update silent (set_fxMax (Largest (fx (slv s)) 1) s) = Ok s1 /\
       (forall p, plain p ->
          count p (trace t) =
            count p (trace s) +
            count p (update_calls silent (set_fxMax (Largest (fx (slv s)) 1) s) s1)) /\
       lsReady (slv t) = lsReady (slv s) || negb (useDn (slv s)) /\
       (linSearch (slv s) = false -> slv t = slv s1))) as Hpass.
  { clear H. unfold newton_pass. intros t H.
    destruct (fxMax (set_fxMax (Largest (fx (slv s)) 1) s) <?
              ftol (slv (set_fxMax (Largest (fx (slv s)) 1) s)))%float.
    - injection H as <- <-. left. rewrite msg_slv. split; [reflexivity|].
      split; [|reflexivity]. intros p [Hmsg _].
      rewrite msg_count by apply Hmsg. reflexivity.
    - right. inv_bind H. exists r. split; [assumption|].
      apply newton_update_settings in E as Hset. simpl in Hset.
      unfold settings in Hset.
      injection Hset as _ HlS _ _ _ _ _ _ _ _ _ _ _ _ _ _.
      apply newton_update_trace in E as [Ht Hl]. simpl in Ht, Hl.
      assert (forall u : state la, trace u = trace r \/
                        trace u = trace r ++ [EvLineSearch (xs r)] ->
                forall p, plain p ->
                count p (trace u) =
                count p (trace s) +
                count p (update_calls silent
                           (set_fxMax (Largest (fx (slv s)) 1) s) r)) as Hc.
      { intros u [Hu|Hu] p [_ Hls]; rewrite Hu, ?count_app, Ht, count_app;
          simpl; rewrite ?Hls; lia. }
      cbn [slv xs Ldx LdxPrev Θ fxMax nfv trace set_fxMax upd] in H.
      destruct (Largest (fx (slv r)) 1 <? ftol (slv r))%float.
      { injection H as <- <-. rewrite msg_slv. simpl.
        split; [|split; [exact Hl|reflexivity]].
        intros p Hp. rewrite msg_count by apply Hp.
        apply (Hc (set_fxMax (Largest (fx (slv r)) 1) r));
          [left; reflexivity | exact Hp]. }
      destruct (Ldx r <? fnewt (slv r))%float.
      { injection H as <- <-. rewrite msg_slv. simpl.
        split; [|split; [exact Hl|reflexivity]].
        intros p Hp. rewrite msg_count by apply Hp.
        apply (Hc (set_fxMax (Largest (fx (slv r)) 1) r));
          [left; reflexivity | exact Hp]. }
      destruct (linSearch (slv r)) eqn:HLS.
      + inv_bind H. rename r0 into u.
        pose proof (line_search_trace _ _ E) as Ht'. simpl in Ht'.
        pose proof (line_search_lsReady _ _ E) as Hl'. simpl in Hl'.
        assert (forall p, plain p ->
                  count p (trace u) =
                  count p (trace s) +
                  count p (update_calls silent
                             (set_fxMax (Largest (fx (slv s)) 1) s) r)) as Hcu.
        { apply Hc. right. exact Ht'. }
        destruct (Ldx u <? fnewt (slv u))%float; injection H as <- <-;
          rewrite ?msg_slv; (split; [|split; [congruence|congruence]]).
        * intros p Hp. rewrite msg_count by apply Hp. apply Hcu, Hp.
        * exact Hcu.
      + injection H as <- <-. simpl.
        split; [|split; [exact Hl|reflexivity]].
        apply (Hc (set_fxMax (Largest (fx (slv r)) 1) r)).
        left; reflexivity. }
  unfold iteration in H. inv_bind H. destruct r as [[] t].
  - inv_bind H. injection H as <- <-.
    apply check_rate_trace in E0 as Ht. apply check_rate_slv in E0 as Ho.
    simpl. rewrite Ht, Ho. apply Hpass. exact E.
  - injection H as <- <-. apply Hpass. exact E.
Qed.

End Calls.

(** X6: the calls of one Newton update, in order: the message (unless
    [silent]), [Out] with the [x] of the start of the pass (when [Out] is
    set), the Jacobian when it is due, the linear solution ([MatInv], or
    the initialisation of the sparse solver when it is not ready, then
    [Fact] and [Solve] with the residual of the start of the pass), and
    the evaluation of [f] at the updated [x]; afterwards the sparse
    solver is ready. *)
Theorem Newton_update_calls {la : LinAlg} (silent : bool) (s s' : state la) :
  newton_update silent s = Ok s' ->
  trace s' = trace s ++ update_calls silent s s' /\
  lsReady (slv s') = lsReady (slv s) || negb (useDn (slv s)).
Proof. apply newton_update_trace. Qed.

Lemma Newton_update_calls_witness :
  let s := Scalar.the_state (enter Scalar.o_loose [1%float] false) in
  let s' := Scalar.the_state (newton_update false s) in
  trace s' =
    [EvFfcn [1%float]; EvMsg EmptyString 0 0 0 true false;
     EvMsg EmptyString 0 0 0 false false; EvJfcnSp [1%float]; EvLisInit;
     EvLisFact; EvLisSolve [(-1)%float]; EvFfcn [1.5%float]] /\
  lsReady (slv s') = true.
Proof.
  intros s s'.
  destruct (Newton_update_calls false s s') as [Ht Hl];
    [vm_compute; reflexivity|].
  split; [rewrite Ht | rewrite Hl]; vm_compute; reflexivity.
Defined.

(** ** Counting the calls of a whole [Solve] *)

Section Tally.

Context {la : LinAlg}.
Implicit Types (o : NlSolver la) (s : state la).

Lemma plain_kinds :
  plain is_out /\ plain is_factorisation /\ plain is_evaluation /\
  plain is_lis_init /\ plain is_lis /\ plain is_dense /\ plain is_jacobian /\
  plain is_numerical.
Proof. unfold plain. repeat split; reflexivity. Qed.

(** What a Newton update adds to each count. *)
Lemma update_calls_counts silent s s1 :
  count is_out (update_calls silent s s1) =
    match Out (slv s) with Some _ => 1 | None => 0 end /\
  count is_factorisation (update_calls silent s s1) = 1 /\
  count is_evaluation (update_calls silent s s1) = 1 /\
  count is_lis_init (update_calls silent s s1) =
    (if useDn (slv s) || lsReady (slv s) then 0 else 1) /\
  count is_lis (update_calls silent s s1) =
    (if useDn (slv s) then 0 else if lsReady (slv s) then 2 else 3) /\
  count is_dense (update_calls silent s s1) =
    (if useDn (slv s) then (if jacobian_due (slv s) then 2 else 1) else 0) /\
  count is_jacobian (update_calls silent s s1) =
    (if jacobian_due (slv s) then 1 else 0) /\
  count is_numerical (update_calls silent s s1) =
    (if jacobian_due (slv s) && negb (useDn (slv s)) && numJ (slv s)
     then 1 else 0).
Proof.
  unfold update_calls, solution_calls, jacobian_call.
  destruct silent, (Out (slv s)), (jacobian_due (slv s)), (useDn (slv s)),
    (lsReady (slv s)), (numJ (slv s)); repeat split; reflexivity.
Qed.

Lemma enter_counts o x silent s0 :
  enter o x silent = Ok s0 ->
  forall p, plain p -> (forall y, p (EvFfcn y) = false) -> count p (trace s0) = 0.
Proof.
  unfold enter. intros H p [Hmsg _] Hf. inv_ok.
  destruct silent; simpl; rewrite ?Hf, ?Hmsg; reflexivity.
Qed.

Lemma enter_evaluations o x silent s0 :
  enter o x silent = Ok s0 -> count is_evaluation (trace s0) = 1.
Proof. unfold enter. intros H. inv_ok. destruct silent; reflexivity. Qed.

(** A pass adds the calls of one update, or leaves the loop at once. *)
Lemma iteration_calls_after o silent n s fl s1 :
  0 <= n -> useDn (slv s) = useDn o -> Out (slv s) = Out o ->
  calls_after o n s -> iteration silent s = Ok (fl, s1) ->
  (fl = Break /\ calls_after o n s1) \/ calls_after o (n + 1) s1.
Proof.
  intros Hn HuD HOut (Hf & He & Ho & Hi & Hl & Hd & Hr) Hit.
  destruct plain_kinds as (P1 & P2 & P3 & P4 & P5 & P6 & _).
  apply iteration_count in Hit.
  destruct Hit as [(Hfl & Hc & Hslv)|(r & Hup & Hc & Hls & _)].
  - left. split; [assumption|]. unfold calls_after.
    rewrite !Hc, Hslv by assumption. auto 10.
  - right. unfold calls_after.
    destruct (update_calls_counts silent
                (set_fxMax (Largest (fx (slv s)) 1) s) r)
      as (C1 & C2 & C3 & C4 & C5 & C6 & _).
    simpl in C1, C4, C5, C6.
    rewrite (Hc _ P1), (Hc _ P2), (Hc _ P3), (Hc _ P4), (Hc _ P5), (Hc _ P6).
    rewrite C1, C2, C3, C4, C5, C6, Hf, He, Ho, Hi, HuD, HOut, Hr.
    rewrite Hls, Hr, HuD.
    destruct (Z.eqb_spec (n + 1) 0); [lia|].
    destruct (Z.eqb_spec n 0);
      destruct (Out o), (useDn o), (lsReady o); simpl;
      repeat split; try lia; try reflexivity; try discriminate;
      intros _; try (rewrite Hl by reflexivity); try (rewrite Hd by reflexivity);
      lia.
Qed.

Lemma enter_calls_after o x silent s0 :
  enter o x silent = Ok s0 -> calls_after o 0 s0.
Proof.
  intros H0. unfold calls_after.
  destruct plain_kinds as (P1 & P2 & P3 & P4 & P5 & P6 & _).
  rewrite (enter_evaluations _ _ _ _ H0).
  rewrite !(enter_counts _ _ _ _ H0) by (assumption || reflexivity).
  destruct (enter_spec _ _ _ _ H0) as (sc & _ & -> & _). simpl.
  rewrite !orb_true_r, andb_false_r, orb_false_r.
  destruct (Out o); repeat split; reflexivity.
Qed.

(** The calls made when pass [k] is entered. *)
Lemma pass_calls_after o x silent s0 k s :
  enter o x silent = Ok s0 -> at_pass silent k s0 = Some s ->
  calls_after o (Z.of_nat k) s /\ useDn (slv s) = useDn o /\
  Out (slv s) = Out o.
Proof.
  intros H0 Hk.
  assert (useDn (slv s) = useDn o /\ Out (slv s) = Out o) as [HuD HOut].
  { destruct (pass_settings _ _ _ _ _ _ H0 Hk) as (sc & _ & Hs).
    unfold settings in Hs. simpl in Hs.
    injection Hs as _ _ _ _ _ _ _ _ _ _ _ HuD _ _ HOut _. auto. }
  split; [|auto]. clear HuD HOut. revert s Hk.
  induction k as [|k IH]; intros s Hk.
  - simpl in Hk. injection Hk as <-. exact (enter_calls_after _ _ _ _ H0).
  - apply at_pass_S in Hk. destruct Hk as (s1 & s2 & Hk & Hit & ->).
    specialize (IH s1 Hk).
    destruct (pass_settings _ _ _ _ _ _ H0 Hk) as (sc & _ & Hs).
    unfold settings in Hs. simpl in Hs.
    injection Hs as _ _ _ _ _ _ _ _ _ _ _ HuD _ _ HOut _.
    destruct (iteration_calls_after o silent (Z.of_nat k) s1 Continue s2
                ltac:(lia) HuD HOut IH Hit) as [[Hfl _]|Hc]; [discriminate|].
    replace (Z.of_nat (S k)) with (Z.of_nat k + 1) by lia. exact Hc.
Qed.

(** The calls made when [Solve] returns, before the last [Out]. *)
Lemma Solve_calls_after o x silent s' :
  Solve o x silent = Ok s' ->
  exists s1 n, s' = output s1 /\ 0 <= n /\ calls_after o n s1 /\
               Out (slv s1) = Out o.
Proof.
  intros HS. apply Solve_Ok_cases in HS.
  destruct HS as (s0 & s1 & H0 & -> & Hc). exists s1.
  destruct Hc as [[_ ->]|(k & s & _ & Hk & Hit)].
  - exists 0. split; [reflexivity|]. split; [lia|].
    split; [exact (enter_calls_after _ _ _ _ H0)|].
    destruct (enter_spec _ _ _ _ H0) as (sc & _ & -> & _). reflexivity.
  - destruct (pass_calls_after _ _ _ _ _ _ H0 Hk) as (Hc & HuD & HOut).
    assert (Out (slv s1) = Out o) as HOut1.
    { apply iteration_settings in Hit. unfold settings in Hit. simpl in Hit.
      injection Hit as _ _ _ _ _ _ _ _ _ _ _ _ _ _ -> _. exact HOut. }
    destruct (iteration_calls_after o silent (Z.of_nat k) s Break s1
                ltac:(lia) HuD HOut Hc Hit) as [[_ Hc1]|Hc1].
    + exists (Z.of_nat k). split; [reflexivity|]. split; [lia|]. auto.
    + exists (Z.of_nat k + 1). split; [reflexivity|]. split; [lia|]. auto.
Qed.

End Tally.

(** X7: when [Out] is set, a call of [Solve] that returns has called it
    once in every pass that made a Newton update and once more at the end,
    with the [x] it returns: as many calls as evaluations of [f] by
    [Solve], the last call of all being [Out] with the final [x]; when
    [Out] is nil it is never called. *)
Theorem Out_is_called_each_update_and_last {la : LinAlg} (o : NlSolver la)
    (x : Vector) (silent : bool) (s' : state la) :
  Solve o x silent = Ok s' ->
  match Out o with
  | Some _ =>
      count is_out (trace s') = count is_evaluation (trace s') /\
      last (trace s') = Some (EvOut (xs s'))
  | None => count is_out (trace s') = 0
  end.
Proof.
  intros HS. apply Solve_calls_after in HS.
  destruct HS as (s1 & n & -> & Hn & (Hf & He & Ho & _) & HOut).
  unfold output. rewrite HOut. destruct (Out o).
  - simpl. rewrite !count_app, last_snoc, Ho, He. simpl. split; [lia|reflexivity].
  - exact Ho.
Qed.

Lemma Out_is_called_each_update_and_last_witness :
  let s' := Scalar.the_state (Solve More.o_out [1%float] true) in
  count is_out (trace s') = 4 /\ count is_evaluation (trace s') = 4 /\
  last (trace s') = Some (EvOut (xs s')).
Proof.
  intros s'.
  pose proof (Out_is_called_each_update_and_last More.o_out [1%float] true s')
    as H.
  change (Out More.o_out) with (Some (fun _ : Vector => tt)) in H.
  destruct H as [H1 H2]; [vm_compute; reflexivity|].
  split; [rewrite H1; vm_compute; reflexivity|].
  split; [vm_compute; reflexivity | exact H2].
Defined.

(** X8: with the sparse solver, a call of [Solve] that returns has
    initialised the linear solver once if it was not ready and a Newton
    update was made, and not at all otherwise; after a call with an update
    the solver is ready, so that later calls do not initialise it again;
    the dense routines ([MatInv], [JfcnDn]) are never called. *)
Theorem sparse_solver_initialised_once {la : LinAlg} (o : NlSolver la)
    (x : Vector) (silent : bool) (s' : state la) :
  useDn o = false ->
  Solve o x silent = Ok s' ->
  count is_lis_init (trace s') =
    (if lsReady o || (count is_factorisation (trace s') =? 0) then 0 else 1) /\
  lsReady (slv s') =
    lsReady o || negb (count is_factorisation (trace s') =? 0) /\
  count is_dense (trace s') = 0.
Proof.
  intros HuD HS. apply Solve_calls_after in HS.
  destruct HS as (s1 & n & -> & Hn & (Hf & He & Ho & Hi & Hl & Hd & Hr) & HOut).
  rewrite !output_count, output_slv by reflexivity.
  rewrite Hf, Hi, Hr, HuD, (Hd HuD). auto.
Qed.

Lemma sparse_solver_initialised_once_witness :
  let s' := Scalar.the_state (Solve Scalar.o_loose [1%float] true) in
  count is_lis_init (trace s') = 1 /\ lsReady (slv s') = true /\
  count is_dense (trace s') = 0 /\
  count is_lis_init
    (trace (Scalar.the_state (Solve (slv s') [1%float] true))) = 0.
Proof.
  intros s'.
  destruct (sparse_solver_initialised_once Scalar.o_loose [1%float] true s')
    as (H1 & H2 & H3); [vm_compute; reflexivity ..|].
  split; [rewrite H1; vm_compute; reflexivity|].
  split; [rewrite H2; vm_compute; reflexivity|].
  split; [exact H3|].
  destruct (sparse_solver_initialised_once (slv s') [1%float] true
              (Scalar.the_state (Solve (slv s') [1%float] true)))
    as (H4 & _); [vm_compute; reflexivity ..|].
  rewrite H4. vm_compute. reflexivity.
Defined.

(** X9: with the dense solver, a call of [Solve] that returns has made no
    call on the sparse solver (no [Init], [Fact] or [Solve] of [lis]) and
    leaves [lsReady] as it was. *)
Theorem dense_mode_leaves_sparse_solver {la : LinAlg} (o : NlSolver la)
    (x : Vector) (silent : bool) (s' : state la) :
  useDn o = true ->
  Solve o x silent = Ok s' ->
  count is_lis (trace s') = 0 /\ lsReady (slv s') = lsReady o.
Proof.
  intros HuD HS. apply Solve_calls_after in HS.
  destruct HS as (s1 & n & -> & Hn & (Hf & He & Ho & Hi & Hl & Hd & Hr) & HOut).
  rewrite !output_count, output_slv by reflexivity.
  rewrite Hr, HuD, (Hl HuD). simpl. rewrite orb_false_r. auto.
Qed.

Lemma dense_mode_leaves_sparse_solver_witness :
  let s' := Scalar.the_state (Solve More.o_dense [1%float] true) in
  count is_lis (trace s') = 0 /\ lsReady (slv s') = lsReady More.o_dense.
Proof.
  intros s'.
  apply (dense_mode_leaves_sparse_solver More.o_dense [1%float] true s');
    vm_compute; reflexivity.
Defined.

(** ** Exact Newton, and what [NFeval] counts *)

Section Exact.

Context {la : LinAlg}.
Implicit Types (o : NlSolver la) (s : state la).

Lemma enter_no_update o x silent s0 :
  enter o x silent = Ok s0 ->
  count is_jacobian (trace s0) = 0 /\
  count is_factorisation (trace s0) = 0 /\ NJeval (slv s0) = 0.
Proof.
  intros H0.
  destruct (modified_newton_calls_enter _ _ _ _ H0) as (_ & Hf & _ & Hj & _).
  destruct (enter_spec _ _ _ _ H0) as (sc & _ & Ho & _).
  assert (It (slv s0) = 0) as HI by (rewrite Ho; reflexivity).
  assert (NJeval (slv s0) = 0) as HN by (rewrite Ho; reflexivity).
  rewrite Hj, Hf, HI, HN. auto.
Qed.

Lemma exact_pass o x silent s0 k s :
  cteJac o = false -> maxIt o <= GoInt.max_int ->
  enter o x silent = Ok s0 -> at_pass silent k s0 = Some s ->
  Z.of_nat k <= maxIt o ->
  count is_jacobian (trace s) = Z.of_nat k /\
  count is_factorisation (trace s) = Z.of_nat k /\
  NJeval (slv s) = Z.of_nat k.
Proof.
  intros Hc Hmax H0. revert s. induction k as [|k IH]; intros s Hk Hle.
  - simpl in Hk. injection Hk as <-. exact (enter_no_update _ _ _ _ H0).
  - apply at_pass_S in Hk. destruct Hk as (s1 & s2 & Hk & Hit & ->).
    destruct (IH s1 Hk ltac:(lia)) as (Hj & Hf & HN). clear IH.
    destruct (pass_settings _ _ _ _ _ _ H0 Hk) as (sc & _ & Hs).
    unfold settings in Hs. simpl in Hs.
    injection Hs as Hcs _ _ _ _ _ _ _ _ _ _ _ _ _ _ _.
    apply iteration_counts in Hit.
    destruct Hit as [[Hfl _]|(Hj' & Hf' & _ & HN')]; [discriminate|].
    unfold jacobian_due in Hj', HN'. rewrite Hcs, Hc, orb_true_r in Hj', HN'.
    simpl. rewrite Hj', Hf', HN', Hj, Hf, HN.
    rewrite GoInt_add_small
      by (unfold GoInt.min_int, GoInt.max_int in *; lia).
    repeat split; lia.
Qed.

Lemma eval_jacobian_NFeval_exact s s' :
  eval_jacobian s = Ok s' ->
  NFeval (slv s') =
    (if jacobian_due (slv s) && negb (useDn (slv s)) && numJ (slv s)
     then GoInt.add (NFeval (slv s)) (neq (slv s)) else NFeval (slv s)).
Proof.
  unfold eval_jacobian, jacobian_due. intros H.
  destruct ((It (slv s) =? 0) || negb (cteJac (slv s))); simpl.
  - destruct (useDn (slv s)); simpl; [inv_ok; reflexivity|].
    destruct (numJ (slv s)); inv_ok; reflexivity.
  - inv_ok. reflexivity.
Qed.

Lemma newton_update_NFeval_exact silent s s' :
  newton_update silent s = Ok s' ->
  NFeval (slv s') =
    GoInt.add
      (if jacobian_due (slv s) && negb (useDn (slv s)) && numJ (slv s)
       then GoInt.add (NFeval (slv s)) (neq (slv s)) else NFeval (slv s)) 1.
Proof.
  unfold newton_update. intros H. inv_bind H. inv_bind H. inv_bind H.
  injection H as <-.
  apply eval_jacobian_NFeval_exact in E. rewrite output_slv, msg_slv in E.
  apply update_x_counters in E1. unfold counters in E1. injection E1 as HF _.
  assert (NFeval (slv r0) = NFeval (slv r)) as HF0.
  { destruct (useDn (slv r)).
    - apply dense_solution_counters in E0. unfold counters in E0.
      injection E0 as -> _. reflexivity.
    - apply sparse_solution_counters in E0. unfold counters in E0.
      injection E0 as -> _. reflexivity. }
  simpl. rewrite HF, HF0, E. reflexivity.
Qed.

(** Without line search, what a pass does to [NFeval] and to the numbers
    of evaluations and of numerical Jacobians. *)
Lemma iteration_NFeval_exact silent s fl s' :
  linSearch (slv s) = false -> iteration silent s = Ok (fl, s') ->
  (fl = Break /\ NFeval (slv s') = NFeval (slv s) /\
   count is_evaluation (trace s') = count is_evaluation (trace s) /\
   count is_numerical (trace s') = count is_numerical (trace s)) \/
  (exists d : bool,
     NFeval (slv s') =
       GoInt.add (if d then GoInt.add (NFeval (slv s)) (neq (slv s))
                  else NFeval (slv s)) 1 /\
     count is_evaluation (trace s') = count is_evaluation (trace s) + 1 /\
     count is_numerical (trace s') =
       count is_numerical (trace s) + (if d then 1 else 0)).
Proof.
  intros HLS Hit. apply iteration_count in Hit.
  destruct plain_kinds as (_ & _ & P3 & _ & _ & _ & _ & P8).
  destruct Hit as [(Hfl & Hc & Hslv)|(r & Hup & Hc & _ & Hslv)].
  - left. rewrite Hslv, !Hc by assumption. auto.
  - right. rewrite (Hslv HLS).
    exists (jacobian_due (slv s) && negb (useDn (slv s)) && numJ (slv s)).
    apply newton_update_NFeval_exact in Hup as HF. simpl in HF.
    destruct (update_calls_counts silent
                (set_fxMax (Largest (fx (slv s)) 1) s) r)
      as (_ & _ & C3 & _ & _ & _ & _ & C8).
    simpl in C8. rewrite (Hc _ P3), (Hc _ P8), C3, C8. auto.
Qed.

Lemma NFeval_exact_pass o x silent s0 k s :
  linSearch o = false -> 0 <= neq o ->
  1 + maxIt o * (neq o + 1) <= GoInt.max_int ->
  enter o x silent = Ok s0 -> at_pass silent k s0 = Some s ->
  Z.of_nat k <= maxIt o ->
  NFeval (slv s) =
    count is_evaluation (trace s) + neq o * count is_numerical (trace s) /\
  count is_evaluation (trace s) = Z.of_nat k + 1 /\
  0 <= count is_numerical (trace s) <= Z.of_nat k.
Proof.
  intros HLS Hneq Hmax H0. revert s. induction k as [|k IH]; intros s Hk Hle.
  - simpl in Hk. injection Hk as <-.
    destruct plain_kinds as (_ & _ & _ & _ & _ & _ & _ & P8).
    rewrite (enter_evaluations _ _ _ _ H0).
    rewrite (enter_counts _ _ _ _ H0 _ P8) by reflexivity.
    destruct (enter_spec _ _ _ _ H0) as (sc & _ & -> & _). simpl. lia.
  - apply at_pass_S in Hk. destruct Hk as (s1 & s2 & Hk & Hit & ->).
    destruct (IH s1 Hk ltac:(lia)) as (HF & He & Hnum). clear IH.
    destruct (pass_settings _ _ _ _ _ _ H0 Hk) as (sc & _ & Hs).
    unfold settings in Hs. simpl in Hs.
    injection Hs as _ HL _ _ _ _ _ _ _ Hn _ _ _ _ _ _.
    apply iteration_NFeval_exact in Hit; [|congruence].
    destruct Hit as [[Hfl _]|(d & HF' & He' & Hn')]; [discriminate|].
    simpl. rewrite HF', He', Hn', HF, He, Hn.
    set (c := count is_numerical (trace s1)) in *.
    assert (0 <= neq o * c <= neq o * Z.of_nat k) as Hb1 by nia.
    assert ((Z.of_nat k + 1) * (neq o + 1) <= maxIt o * (neq o + 1)) as Hb2
      by nia.
    unfold GoInt.max_int in Hmax.
    destruct d.
    + rewrite (GoInt_add_small (Z.of_nat k + 1 + neq o * c) (neq o))
        by (unfold GoInt.min_int, GoInt.max_int; lia).
      rewrite GoInt_add_small by (unfold GoInt.min_int, GoInt.max_int; lia).
      repeat split; lia.
    + rewrite GoInt_add_small by (unfold GoInt.min_int, GoInt.max_int; lia).
      repeat split; lia.
Qed.

End Exact.

(** X10: in exact mode ([cteJac] off) a call of [Solve] that returns has
    evaluated the Jacobian in every Newton update, as many times as it
    factorised, and [NJeval] is that number. *)
Theorem exact_Newton_evaluates_Jacobian_each_update {la : LinAlg}
    (o : NlSolver la) (x : Vector) (silent : bool) (s' : state la) :
  cteJac o = false ->
  maxIt o <= GoInt.max_int ->
  Solve o x silent = Ok s' ->
  count is_jacobian (trace s') = count is_factorisation (trace s') /\
  NJeval (slv s') = count is_jacobian (trace s').
Proof.
  intros Hc Hmax HS. apply Solve_Ok_cases in HS.
  destruct HS as (s0 & s1 & H0 & -> & Hcases).
  rewrite !output_count, output_slv by reflexivity.
  destruct Hcases as [[_ ->]|(k & s & Hlt & Hk & Hit)].
  - destruct (enter_no_update _ _ _ _ H0) as (Hj & Hf & HN). lia.
  - destruct (exact_pass o x silent s0 k s Hc Hmax H0 Hk ltac:(lia))
      as (Hj & Hf & HN).
    destruct (pass_settings _ _ _ _ _ _ H0 Hk) as (sc & _ & Hs).
    unfold settings in Hs. simpl in Hs.
    injection Hs as Hcs _ _ _ _ _ _ _ _ _ _ _ _ _ _ _.
    apply iteration_counts in Hit.
    destruct Hit as [(_ & Hj' & Hf' & _ & HN')|(Hj' & Hf' & _ & HN')].
    + lia.
    + unfold jacobian_due in Hj', HN'. rewrite Hcs, Hc, orb_true_r in Hj', HN'.
      rewrite Hj', Hf', HN', Hj, Hf, HN.
      rewrite GoInt_add_small
        by (unfold GoInt.min_int, GoInt.max_int in *; lia).
      lia.
Qed.

Lemma exact_Newton_evaluates_Jacobian_each_update_witness :
  let s' := Scalar.the_state (Solve Scalar.o_loose [1%float] true) in
  count is_jacobian (trace s') = count is_factorisation (trace s') /\
  NJeval (slv s') = count is_jacobian (trace s') /\
  NJeval (slv s') = 3.
Proof.
  intros s'.
  destruct (exact_Newton_evaluates_Jacobian_each_update Scalar.o_loose
              [1%float] true s') as [H1 H2];
    [vm_compute; reflexivity | vm_compute; discriminate
     | vm_compute; reflexivity |].
  split; [exact H1|]. split; [exact H2 | vm_compute; reflexivity].
Defined.

(** X11: without line search, [NFeval] accounts for every evaluation of
    [f]: a call of [Solve] that returns leaves in it the number of
    evaluations made by [Solve] itself (one at entry and one after each
    update) plus [neq] for each numerical Jacobian (while the count stays
    in the range of [int]: [neq >= 0] and [1 + maxIt·(neq + 1)] no more
    than the largest [int]). *)
Theorem NFeval_counts_all_evaluations {la : LinAlg} (o : NlSolver la)
    (x : Vector) (silent : bool) (s' : state la) :
  linSearch o = false ->
  0 <= neq o ->
  1 + maxIt o * (neq o + 1) <= GoInt.max_int ->
  Solve o x silent = Ok s' ->
  NFeval (slv s') =
    count is_evaluation (trace s') + neq o * count is_numerical (trace s').
Proof.
  intros HLS Hneq Hmax HS. apply Solve_Ok_cases in HS.
  destruct HS as (s0 & s1 & H0 & -> & Hcases).
  rewrite !output_count, output_slv by reflexivity.
  destruct Hcases as [[Hneg ->]|(k & s & Hlt & Hk & Hit)].
  - destruct plain_kinds as (_ & _ & _ & _ & _ & _ & _ & P8).
    rewrite (enter_evaluations _ _ _ _ H0).
    rewrite (enter_counts _ _ _ _ H0 _ P8) by reflexivity.
    destruct (enter_spec _ _ _ _ H0) as (sc & _ & -> & _). simpl. lia.
  - destruct (NFeval_exact_pass o x silent s0 k s HLS Hneq Hmax H0 Hk
                ltac:(lia)) as (HF & He & Hnum).
    destruct (pass_settings _ _ _ _ _ _ H0 Hk) as (sc & _ & Hs).
    unfold settings in Hs. simpl in Hs.
    injection Hs as _ HL _ _ _ _ _ _ _ Hn _ _ _ _ _ _.
    apply iteration_NFeval_exact in Hit; [|congruence].
    destruct Hit as [(_ & HF' & He' & Hn')|(d & HF' & He' & Hn')].
    + rewrite HF', He', Hn'. exact HF.
    + rewrite HF', He', Hn', HF, He, Hn.
      set (c := count is_numerical (trace s)) in *.
      assert (0 <= neq o * c <= neq o * Z.of_nat k) as Hb1 by nia.
      assert ((Z.of_nat k + 1) * (neq o + 1) <= maxIt o * (neq o + 1)) as Hb2
        by nia.
      unfold GoInt.max_int in Hmax.
      destruct d.
      * rewrite (GoInt_add_small (Z.of_nat k + 1 + neq o * c) (neq o))
          by (unfold GoInt.min_int, GoInt.max_int; lia).
        rewrite GoInt_add_small by (unfold GoInt.min_int, GoInt.max_int; lia).
        lia.
      * rewrite GoInt_add_small by (unfold GoInt.min_int, GoInt.max_int; lia).
        lia.
Qed.

Lemma NFeval_counts_all_evaluations_witness :
  let s' := Scalar.the_state (Solve Scalar.o_numerical [1%float] true) in
  NFeval (slv s') =
    count is_evaluation (trace s') + 1 * count is_numerical (trace s') /\
  NFeval (slv s') = 7.
Proof.
  intros s'. split; [|vm_compute; reflexivity].
  apply (NFeval_counts_all_evaluations Scalar.o_numerical [1%float] true s').
  - vm_compute. reflexivity.
  - vm_compute. discriminate.
  - vm_compute. discriminate.
  - vm_compute. reflexivity.
Defined.

(** ** The update of [x] *)

Lemma vset_Ok (v : Vector) (i : Z) (a : float) (v' : Vector) :
  vset v i a = Ok v' ->
  0 <= i /\ (Z.to_nat i < length v)%nat /\ v' = <[Z.to_nat i := a]> v.
Proof.
  unfold vset. destruct (Z.leb_spec 0 i); simpl; [|discriminate].
  destruct (Z.ltb_spec i (Z.of_nat (length v))); [|discriminate].
  intros H'. injection H' as <-. repeat split; lia.
Qed.

Lemma vget_in_range (v : Vector) (i : Z) :
  0 <= i < Z.of_nat (length v) -> exists a, vget v i = Ok a.
Proof.
  intros Hi. unfold vget. destruct (Z.ltb_spec i 0); [lia|].
  destruct (v !! Z.to_nat i) as [a|] eqn:Ha; simpl; [eauto|].
  apply lookup_ge_None in Ha. lia.
Qed.

Lemma vset_in_range (v : Vector) (i : Z) (a : float) :
  0 <= i < Z.of_nat (length v) -> vset v i a = Ok (<[Z.to_nat i := a]> v).
Proof.
  intros Hi. unfold vset. destruct (Z.leb_spec 0 i); [|lia].
  destruct (Z.ltb_spec i (Z.of_nat (length v))); [|lia]. reflexivity.
Qed.

Lemma for_from_total {St : Type} (P : Z -> St -> Prop)
    (body : Z -> St -> result St) (n : Z) :
  (forall j s, P j s -> j < n -> exists s', body j s = Ok s' /\ P (j + 1) s') ->
  forall k i s, i + Z.of_nat k <= n -> P i s ->
    exists s', for_from k i body s = Ok s'.
Proof.
  intros Hb k. induction k as [|k IH]; simpl; intros i s Hle HP; [eauto|].
  destruct (Hb i s HP ltac:(lia)) as (s1 & -> & HP1). simpl.
  apply IH; [lia | assumption].
Qed.

Lemma bind_Ok_intro {A B} (m : result A) (k : A -> result B) (a : A) (b : B) :
  m = Ok a -> k a = Ok b -> m ≫= k = Ok b.
Proof. intros -> Hk. exact Hk. Qed.

Section Update.

Context {la : LinAlg}.
Implicit Types (o : NlSolver la) (s : state la).

(** [update_x] on the entries: below [neq] the old [x] goes to [x0] and
    [x - mdx] to [x]; from [neq] on [x] is left alone. *)
Lemma update_x_entries s s' :
  update_x s = Ok s' ->
  (forall i : nat, Z.of_nat i < neq (slv s) ->
     exists xi mi, xs s !! i = Some xi /\ mdx (slv s) !! i = Some mi /\
       xs s' !! i = Some (xi - mi)%float /\ x0 (slv s') !! i = Some xi) /\
  (forall i : nat, neq (slv s) <= Z.of_nat i -> xs s' !! i = xs s !! i) /\
  length (xs s') = length (xs s).
Proof.
  unfold update_x, for_range. intros H. inv_ok. simpl.
  set (n := neq (slv s)) in *.
  apply (for_from_ind (fun j t =>
           0 <= j /\ mdx (slv t) = mdx (slv s) /\
           length (xs t) = length (xs s) /\
           (forall i : nat, Z.of_nat i < j ->
              exists xi mi, xs s !! i = Some xi /\ mdx (slv s) !! i = Some mi /\
                xs t !! i = Some (xi - mi)%float /\ x0 (slv t) !! i = Some xi) /\
           (forall i : nat, j <= Z.of_nat i -> xs t !! i = xs s !! i))) in E.
  - simpl in E. destruct E as (_ & _ & Hlen & Hlow & Hhigh).
    rewrite Z.add_0_l in Hlow, Hhigh. split; [|split; [|exact Hlen]].
    + intros i Hi. apply Hlow. lia.
    + intros i Hi. apply Hhigh. lia.
  - clear. intros j t t' (Hj & Hm & Hlen & Hlow & Hhigh) H. inv_ok. simpl in *.
    repeat match goal with
    | H : vget _ _ = Ok _ |- _ => apply vget_Ok in H as [_ H]
    | H : vset _ _ _ = Ok _ |- _ => apply vset_Ok in H as (_ & ? & ->)
    end.
    unfold Vector in *. split; [lia|]. split; [assumption|].
    split; [rewrite length_insert; assumption|]. split.
    + intros i Hi. destruct (decide (i = Z.to_nat j)) as [->|Hne].
      * exists r1, r2. rewrite <- (Hhigh (Z.to_nat j)) by lia.
        rewrite <- Hm. rewrite !list_lookup_insert_eq by lia.
        assert (r = r1) as -> by congruence. auto.
      * destruct (Hlow i ltac:(lia)) as (xi & mi & H1 & H2 & H3 & H4).
        exists xi, mi. rewrite !list_lookup_insert_ne by auto. auto.
    + intros i Hi. rewrite list_lookup_insert_ne by lia. apply Hhigh. lia.
  - simpl. repeat split; try reflexivity; try lia.
Qed.

(** [update_x] runs when the four slices it indexes have [neq] entries. *)
Lemma update_x_total s :
  neq (slv s) <= Z.of_nat (length (xs s)) ->
  neq (slv s) <= Z.of_nat (length (x0 (slv s))) ->
  neq (slv s) <= Z.of_nat (length (mdx (slv s))) ->
  neq (slv s) <= Z.of_nat (length (scal (slv s))) ->
  exists s', update_x s = Ok s'.
Proof.
  intros H1 H2 H3 H4. unfold update_x, for_range.
  set (n := neq (slv s)) in *.
  destruct (for_from_total
              (fun j (t : state la) =>
                 0 <= j /\ neq (slv t) = n /\
                 n <= Z.of_nat (length (xs t)) /\
                 n <= Z.of_nat (length (x0 (slv t))) /\
                 n <= Z.of_nat (length (mdx (slv t))) /\
                 n <= Z.of_nat (length (scal (slv t))))
              (fun i s =>
                 xi ← vget (xs s) i;
                 v ← vset (x0 (slv s)) i xi;
                 let s := upd (set_x0 v) s in
                 xi ← vget (xs s) i;
                 mi ← vget (mdx (slv s)) i;
                 v ← vset (xs s) i (xi - mi)%float;
                 let s := set_xs v s in
                 mi ← vget (mdx (slv s)) i;
                 sc ← vget (scal (slv s)) i;
                 Ok (set_Ldx (Ldx s + (mi / sc) * (mi / sc))%float s))
              (Z.max 0 n)) with (k := Z.to_nat n) (i := 0) (s := set_Ldx 0%float s)
    as [t Ht].
  - clear. intros j t (Hj & Hn & L1 & L2 & L3 & L4) Hlt. unfold Vector in *.
    repeat first
      [ match goal with
        | |- context [vget ?v j] =>
            let a := fresh "a" in
            destruct (vget_in_range v j) as [a ->];
              [cbn [slv xs upd set_xs mdx scal x0 set_x0];
               rewrite ?length_insert; lia|];
            cbn [mbind result_bind]
        end
      | match goal with
        | |- context [vset ?v j ?a] =>
            rewrite (vset_in_range v j a)
              by (cbn [slv xs upd set_xs mdx scal x0 set_x0];
                  rewrite ?length_insert; lia);
            cbn [mbind result_bind]
        end ].
    eexists. split; [reflexivity|].
    cbn [slv xs upd set_xs set_Ldx mdx scal x0 set_x0 neq].
    unfold Vector in *. rewrite !length_insert.
    repeat split; try assumption; lia.
  - lia.
  - simpl. repeat split; try assumption; try lia.
  - eexists. cbv zeta. eapply bind_Ok_intro; [exact Ht | reflexivity].
Qed.

End Update.

(** X12: the Newton update of a pass: for every index below [neq], the
    new [x_i] is the old [x_i] minus [mdx_i], where [mdx] is the solution
    of the linear system left in the solver, and [x0_i] keeps the old
    [x_i]; entries of [x] from [neq] on are not touched. *)
Theorem Newton_update_of_x {la : LinAlg} (silent : bool) (s s' : state la) :
  newton_update silent s = Ok s' ->
  (forall i : nat, Z.of_nat i < neq (slv s) ->
     exists xi mi, xs s !! i = Some xi /\ mdx (slv s') !! i = Some mi /\
       xs s' !! i = Some (xi - mi)%float /\ x0 (slv s') !! i = Some xi) /\
  (forall i : nat, neq (slv s) <= Z.of_nat i -> xs s' !! i = xs s !! i).
Proof.
  unfold newton_update. intros H. inv_bind H. inv_bind H. inv_bind H.
  injection H as <-.
  apply eval_jacobian_settings in E as Hs1.
  apply eval_jacobian_trace in E as [_ Hk1].
  rewrite output_slv, msg_slv in Hs1, Hk1. rewrite output_xs, msg_xs in Hk1.
  injection Hk1 as _ _ _ Hx1.
  assert (settings (slv r0) = settings (slv r)) as Hs2.
  { destruct (useDn (slv r));
      [apply dense_solution_settings | apply sparse_solution_settings];
      assumption. }
  apply solution_trace in E0 as (_ & Hx2 & _).
  apply update_x_Ldx in E1 as Hm. destruct Hm as [_ Hm].
  apply update_x_entries in E1 as (Hlow & Hhigh & _).
  unfold settings in Hs1, Hs2. simpl in Hs1, Hs2.
  injection Hs1 as _ _ _ _ _ _ _ _ _ Hn1 _ _ _ _ _ _.
  injection Hs2 as _ _ _ _ _ _ _ _ _ Hn2 _ _ _ _ _ _.
  rewrite Hn2, Hn1, Hx2, Hx1 in Hlow, Hhigh. simpl. split.
  - intros i Hi. destruct (Hlow i Hi) as (xi & mi & H1 & H2 & H3 & H4).
    exists xi, mi. rewrite Hm. auto.
  - exact Hhigh.
Qed.

Lemma Newton_update_of_x_witness :
  let s := Scalar.the_state (enter Scalar.o_loose [1%float] true) in
  let s' := Scalar.the_state (newton_update true s) in
  exists xi mi, xs s !! 0%nat = Some xi /\ mdx (slv s') !! 0%nat = Some mi /\
    xs s' !! 0%nat = Some (xi - mi)%float /\ x0 (slv s') !! 0%nat = Some xi.
Proof.
  intros s s'.
  destruct (Newton_update_of_x true s s') as [H _]; [vm_compute; reflexivity|].
  apply H. vm_compute. reflexivity.
Defined.

(** X13: the update of [x] indexes [x], [x0], [mdx] and [scal] up to
    [neq]: it runs when each of them has at least [neq] entries, and
    otherwise it panics with index out of range. *)
Theorem update_x_bounds {la : LinAlg} (s : state la) :
  if (neq (slv s) <=? Z.of_nat (length (xs s))) &&
     (neq (slv s) <=? Z.of_nat (length (x0 (slv s)))) &&
     (neq (slv s) <=? Z.of_nat (length (mdx (slv s)))) &&
     (neq (slv s) <=? Z.of_nat (length (scal (slv s))))
  then exists s', update_x s = Ok s'
  else update_x s = Panic IndexOutOfRange.
Proof.
  destruct (Z.leb_spec (neq (slv s)) (Z.of_nat (length (xs s)))) as [H1|H1];
  destruct (Z.leb_spec (neq (slv s)) (Z.of_nat (length (x0 (slv s))))) as [H2|H2];
  destruct (Z.leb_spec (neq (slv s)) (Z.of_nat (length (mdx (slv s))))) as [H3|H3];
  destruct (Z.leb_spec (neq (slv s)) (Z.of_nat (length (scal (slv s))))) as [H4|H4];
  simpl; try (apply update_x_total; assumption).
  all: destruct (update_x s) as [s'|e] eqn:E;
    [exfalso | apply update_x_Panic in E; congruence].
  all: unfold update_x, for_range in E; inv_ok.
  all: set (n := neq (slv s)) in *.
  all: apply (for_from_ind (fun j (t : state la) =>
           0 <= j /\ j <= Z.of_nat (length (xs t)) /\
           j <= Z.of_nat (length (x0 (slv t))) /\
           j <= Z.of_nat (length (mdx (slv t))) /\
           j <= Z.of_nat (length (scal (slv t))) /\
           length (xs t) = length (xs s) /\
           length (x0 (slv t)) = length (x0 (slv s)) /\
           length (mdx (slv t)) = length (mdx (slv s)) /\
           length (scal (slv t)) = length (scal (slv s)))) in E0;
    [ simpl in E0; destruct E0 as (_ & L1 & L2 & L3 & L4 & E1 & E2 & E3 & E4);
      rewrite ?E1, ?E2, ?E3, ?E4 in *; lia
    | clear; intros j t t' (Hj & _ & _ & _ & _ & E1 & E2 & E3 & E4) H; inv_ok;
      simpl in *;
      repeat match goal with
      | H : vget _ _ = Ok _ |- _ =>
          apply vget_Ok in H as [_ H]; apply lookup_lt_Some in H
      | H : vset _ _ _ = Ok _ |- _ => apply vset_Ok in H as (_ & ? & ->)
      end;
      unfold Vector in *; rewrite ?length_insert in *; repeat split; lia
    | simpl; repeat split; lia ].
Qed.

(** ** The passes counted by [It], and the line search *)

Section Passes.

Context {la : LinAlg}.
Implicit Types (o : NlSolver la) (s : state la).

Lemma update_calls_no_line_search silent s s1 :
  count is_line_search (update_calls silent s s1) = 0.
Proof.
  unfold update_calls, solution_calls, jacobian_call.
  destruct silent, (Out (slv s)), (jacobian_due (slv s)), (useDn (slv s)),
    (lsReady (slv s)), (numJ (slv s)); reflexivity.
Qed.

Lemma newton_pass_no_line_search silent s fl s' :
  linSearch (slv s) = false -> newton_pass silent s = Ok (fl, s') ->
  count is_line_search (trace s') = count is_line_search (trace s).
Proof.
  unfold newton_pass. intros HLS H.
  destruct (fxMax (set_fxMax (Largest (fx (slv s)) 1) s) <?
            ftol (slv (set_fxMax (Largest (fx (slv s)) 1) s)))%float.
  - injection H as <- <-. rewrite msg_count by reflexivity. reflexivity.
  - inv_bind H.
    apply newton_update_settings in E as Hset. simpl in Hset.
    unfold settings in Hset.
    injection Hset as _ HlS _ _ _ _ _ _ _ _ _ _ _ _ _ _.
    apply newton_update_trace in E as [Ht _]. simpl in Ht.
    assert (count is_line_search (trace r) = count is_line_search (trace s))
      as Hc.
    { rewrite Ht, count_app, update_calls_no_line_search. lia. }
    cbn [slv xs Ldx LdxPrev Θ fxMax nfv trace set_fxMax upd] in H.
    rewrite HlS, HLS in H.
    destruct (Largest (fx (slv r)) 1 <? ftol (slv r))%float;
      [injection H as <- <-; rewrite msg_count by reflexivity; exact Hc|].
    destruct (Ldx r <? fnewt (slv r))%float;
      [injection H as <- <-; rewrite msg_count by reflexivity; exact Hc|].
    injection H as <- <-. exact Hc.
Qed.

Lemma iteration_no_line_search silent s fl s' :
  linSearch (slv s) = false -> iteration silent s = Ok (fl, s') ->
  count is_line_search (trace s') = count is_line_search (trace s).
Proof.
  unfold iteration. intros HLS H. inv_bind H. destruct r as [[] t].
  - inv_bind H. injection H as <- <-.
    apply check_rate_trace in E0 as Ht. simpl. rewrite Ht.
    exact (newton_pass_no_line_search _ _ _ _ HLS E).
  - injection H as <- <-. exact (newton_pass_no_line_search _ _ _ _ HLS E).
Qed.

Lemma enter_no_line_search o x silent s0 :
  enter o x silent = Ok s0 -> count is_line_search (trace s0) = 0.
Proof. unfold enter. intros H. inv_ok. destruct silent; reflexivity. Qed.

Lemma pass_no_line_search o x silent s0 k s :
  linSearch o = false ->
  enter o x silent = Ok s0 -> at_pass silent k s0 = Some s ->
  count is_line_search (trace s) = 0 /\ linSearch (slv s) = false.
Proof.
  intros HLS H0 Hk.
  assert (linSearch (slv s) = false) as HL.
  { destruct (pass_settings _ _ _ _ _ _ H0 Hk) as (sc & _ & Hs).
    unfold settings in Hs. simpl in Hs.
    injection Hs as _ HL _ _ _ _ _ _ _ _ _ _ _ _ _ _. congruence. }
  split; [|exact HL]. clear HL. revert s Hk.
  induction k as [|k IH]; intros s Hk.
  - simpl in Hk. injection Hk as <-. exact (enter_no_line_search _ _ _ _ H0).
  - apply at_pass_S in Hk. destruct Hk as (s1 & s2 & Hk & Hit & ->).
    destruct (pass_settings _ _ _ _ _ _ H0 Hk) as (sc & _ & Hs).
    unfold settings in Hs. simpl in Hs.
    injection Hs as _ HL _ _ _ _ _ _ _ _ _ _ _ _ _ _.
    apply iteration_no_line_search in Hit; [|congruence].
    simpl. rewrite Hit. exact (IH s1 Hk).
Qed.


End Passes.



(** X15: without the option [linSearch], [Solve] never calls
    [LineSearch]. *)
Theorem line_search_only_when_set {la : LinAlg} (o : NlSolver la)
    (x : Vector) (silent : bool) (s' : state la) :
  linSearch o = false ->
  Solve o x silent = Ok s' ->
  count is_line_search (trace s') = 0.
Proof.
  intros HLS HS. apply Solve_Ok_cases in HS.
  destruct HS as (s0 & s1 & H0 & -> & Hc).
  rewrite output_count by reflexivity.
  destruct Hc as [[_ ->]|(k & s & Hlt & Hk & Hit)].
  - exact (enter_no_line_search _ _ _ _ H0).
  - destruct (pass_no_line_search _ _ _ _ _ _ HLS H0 Hk) as [Hc HL].
    apply iteration_no_line_search in Hit; [|exact HL]. congruence.
Qed.

Lemma line_search_only_when_set_witness :
  count is_line_search
    (trace (Scalar.the_state (Solve Scalar.o_loose [1%float] true))) = 0.
Proof.
  apply (line_search_only_when_set Scalar.o_loose [1%float] true);
    vm_compute; reflexivity.
Defined.

(** ** The options read by [Init] *)

Section Options.

Context {la : LinAlg}.
Implicit Types (o : NlSolver la).

Local Open Scope string_scope.

(** A value that the loop of [Init] takes from the key [name] alone ends
    as the entry of that key says, whatever the order of the entries. *)
Lemma read_params_key {X : Type}
    (g : NlSolver la * (float * float * float) -> X) (name : string)
    (c : float -> X) :
  (forall k v st st', read_param k v st = Ok st' ->
     g st' = if String.eqb k name then c v else g st) ->
  forall kvs st st', NoDup kvs.*1 -> read_params kvs st = Ok st' ->
    g st' = match (list_to_map kvs : gmap string float) !! name with
            | Some v => c v
            | None => g st
            end.
Proof.
  intros Hstep kvs. induction kvs as [|[k v] kvs IH]; intros st st' Hnd H.
  - simpl in H. injection H as <-. reflexivity.
  - simpl in H. inv_bind H. rename r into st1.
    apply NoDup_cons in Hnd as [Hk Hnd].
    rewrite (IH _ _ Hnd H), (Hstep _ _ _ _ E). simpl.
    destruct (String.eqb_spec k name) as [->|Hne].
    + rewrite lookup_insert_eq.
      rewrite (not_elem_of_list_to_map_1 _ _ Hk). reflexivity.
    + rewrite lookup_insert_ne by assumption. reflexivity.
Qed.

Ltac read_param_field :=
  let key := fresh "key" in
  intros key ? [? [[? ?] ?]] ?; unfold read_param;
  repeat match goal with
  | |- context [String.eqb key ?n] =>
      destruct (String.eqb_spec key n) as [->|?]
  end;
  let Hr := fresh "Hr" in
  intros Hr; first [discriminate Hr | injection Hr as <-; reflexivity].

Lemma read_params_options kvs o a r f o1 a1 r1 f1 :
  NoDup kvs.*1 ->
  read_params kvs (o, (a, r, f)) = Ok (o1, (a1, r1, f1)) ->
  let m : gmap string float := list_to_map kvs in
  cteJac o1 = match m !! "cteJac" with Some v => (0 <? v)%float | None => cteJac o end /\
  linSearch o1 =
    match m !! "linSearch" with Some v => (0 <? v)%float | None => linSearch o end /\
  linSchMaxIt o1 =
    match m !! "linSchMaxIt" with
    | Some v => GoInt.of_float v
    | None => linSchMaxIt o
    end /\
  maxIt o1 =
    match m !! "maxIt" with Some v => GoInt.of_float v | None => maxIt o end /\
  chkConv o1 =
    match m !! "chkConv" with Some v => (0 <? v)%float | None => chkConv o end /\
  a1 = match m !! "atol" with Some v => v | None => a end /\
  r1 = match m !! "rtol" with Some v => v | None => r end /\
  f1 = match m !! "ftol" with Some v => v | None => f end.
Proof.
  intros Hnd H m. repeat split.
  - apply (read_params_key (fun st => cteJac (fst st)) "cteJac"
             (fun v => (0 <? v)%float) ltac:(read_param_field) _ _ _ Hnd H).
  - apply (read_params_key (fun st => linSearch (fst st)) "linSearch"
             (fun v => (0 <? v)%float) ltac:(read_param_field) _ _ _ Hnd H).
  - apply (read_params_key (fun st => linSchMaxIt (fst st)) "linSchMaxIt"
             GoInt.of_float ltac:(read_param_field) _ _ _ Hnd H).
  - apply (read_params_key (fun st => maxIt (fst st)) "maxIt"
             GoInt.of_float ltac:(read_param_field) _ _ _ Hnd H).
  - apply (read_params_key (fun st => chkConv (fst st)) "chkConv"
             (fun v => (0 <? v)%float) ltac:(read_param_field) _ _ _ Hnd H).
  - apply (read_params_key (fun st => fst (fst (snd st))) "atol"
             (fun v => v) ltac:(read_param_field) _ _ _ Hnd H).
  - apply (read_params_key (fun st => snd (fst (snd st))) "rtol"
             (fun v => v) ltac:(read_param_field) _ _ _ Hnd H).
  - apply (read_params_key (fun st => snd (snd st)) "ftol"
             (fun v => v) ltac:(read_param_field) _ _ _ Hnd H).
Qed.

(** The loop of [Init] writes the five options only. *)
Lemma read_param_keeps k v o a r f o1 a1 r1 f1 :
  read_param k v (o, (a, r, f)) = Ok (o1, (a1, r1, f1)) ->
  (lsReady o1, lis o1, Out o1, It o1, NFeval o1, NJeval o1) =
  (lsReady o, lis o, Out o, It o, NFeval o, NJeval o).
Proof.
  unfold read_param.
  repeat match goal with
  | |- context [String.eqb k ?n] => destruct (String.eqb k n)
  end;
  intros H; first [discriminate H | injection H as <- _ _ _; reflexivity].
Qed.

Lemma read_params_keeps kvs o a r f o1 a1 r1 f1 :
  read_params kvs (o, (a, r, f)) = Ok (o1, (a1, r1, f1)) ->
  (lsReady o1, lis o1, Out o1, It o1, NFeval o1, NJeval o1) =
  (lsReady o, lis o, Out o, It o, NFeval o, NJeval o).
Proof.
  revert o a r f. induction kvs as [|[k v] kvs IH]; intros o a r f H.
  - simpl in H. injection H as <- _ _ _. reflexivity.
  - simpl in H. inv_bind H. destruct r0 as [o2 [[a2 r2] f2]].
    rewrite (IH _ _ _ _ H). exact (read_param_keeps _ _ _ _ _ _ _ _ _ _ E).
Qed.

(** What the rest of [Init] does with the values read. *)
Lemma Init_in_order_read kvs neq0 F Jsp Jdn useDn0 numJ0 o0 o :
  Init_in_order kvs neq0 F Jsp Jdn useDn0 numJ0 o0 = Ok o ->
  exists o1 a r f,
    read_params kvs
      (set_chkConv false
         (set_maxIt 20
            (set_linSchMaxIt 20 (set_linSearch false (set_cteJac false o0)))),
       (1e-8, 1e-8, 1e-9)%float) = Ok (o1, (a, r, f)) /\
    (cteJac o, linSearch o, linSchMaxIt o, maxIt o, chkConv o) =
    (cteJac o1, linSearch o1, linSchMaxIt o1, maxIt o1, chkConv o1) /\
    (atol o, rtol o, ftol o) = (a, r, f) /\
    (lsReady o, lis o, Out o, It o, NFeval o, NJeval o) =
    (lsReady o1, lis o1, Out o1, It o1, NFeval o1, NJeval o1).
Proof.
  unfold Init_in_order. intros H. inv_bind H.
  destruct r as [o1 [[a r] f]]. exists o1, a, r, f.
  split; [exact E|]. clear E.
  simpl in H. inv_bind H. inv_bind H. inv_bind H. inv_bind H.
  destruct useDn0.
  - inv_ok. repeat split; reflexivity.
  - destruct Jsp; destruct numJ0; simpl in E2; inv_ok; repeat split;
      reflexivity.
Qed.

End Options.

(** X16: the options after [Init] are those of the parameter map, key by
    key, in whatever order Go visits the map: a flag is [v > 0] for the
    value [v] of its key and [false] without the key, [linSchMaxIt] and
    [maxIt] are [int(v)] and 20 by default, the tolerances are the values
    given, by default 1e-8, 1e-8 and 1e-9, and [fnewt] is computed from the
    [rtol] so obtained. *)
Theorem Init_options_by_key {la : LinAlg} (kvs : list (string * float))
    (neq0 : Z) (F : Vv) (Jsp : option (Tv la)) (Jdn : option (Mv la))
    (useDn0 numJ0 : bool) (prms : gmap string float) (o o' : NlSolver la) :
  kvs ≡ₚ map_to_list prms ->
  Init_in_order kvs neq0 F Jsp Jdn useDn0 numJ0 o = Ok o' ->
  cteJac o' = flag_option prms "cteJac" /\
  linSearch o' = flag_option prms "linSearch" /\
  linSchMaxIt o' = int_option prms "linSchMaxIt" 20 /\
  maxIt o' = int_option prms "maxIt" 20 /\
  chkConv o' = flag_option prms "chkConv" /\
  atol o' = float_option prms "atol" 1e-8 /\
  rtol o' = float_option prms "rtol" 1e-8 /\
  ftol o' = float_option prms "ftol" 1e-9 /\
  fnewt o' =
    utl_Max la (10 * MACHEPS la / float_option prms "rtol" 1e-8)%float
      (utl_Min la 0.03 (sqrt (float_option prms "rtol" 1e-8)))%float.
Proof.
  intros Hp HI.
  assert (NoDup kvs.*1) as Hnd.
  { rewrite Hp. apply NoDup_fst_map_to_list. }
  assert ((list_to_map kvs : gmap string float) = prms) as Hm.
  { rewrite (list_to_map_proper kvs (map_to_list prms) Hnd Hp).
    apply list_to_map_to_list. }
  destruct (Init_in_order_fields _ _ _ _ _ _ _ _ _ HI)
    as (_ & _ & _ & _ & _ & _ & Hfn).
  destruct (Init_in_order_read _ _ _ _ _ _ _ _ _ HI)
    as (o1 & a & r & f & Hread & Hopt & Htol & _).
  injection Hopt as -> -> -> -> ->. injection Htol as Ha Hr Hf.
  rewrite Hfn, Ha, Hr, Hf.
  destruct (read_params_options _ _ _ _ _ _ _ _ _ Hnd Hread)
    as (H1 & H2 & H3 & H4 & H5 & H6 & H7 & H8).
  rewrite Hm in H1, H2, H3, H4, H5, H6, H7, H8.
  unfold flag_option, int_option, float_option.
  rewrite H1, H2, H3, H4, H5, H6, H7, H8. repeat split; reflexivity.
Qed.

Lemma Init_options_by_key_witness :
  let o' := Scalar.o_modified in
  cteJac o' = true /\ linSearch o' = false /\ maxIt o' = 20 /\
  atol o' = 1%float /\ rtol o' = 0.01%float /\ ftol o' = 1e-9%float /\
  fnewt o' = 0.03%float.
Proof.
  intros o'.
  destruct (Init_options_by_key
              [("atol", 1%float); ("cteJac", 1%float); ("rtol", 0.01%float)]%string
              1 Scalar.sq2 (Some (Scalar.sq2_J : Tv Scalar.la1)) None false
              false
              {[ "cteJac" := 1%float; "atol" := 1%float;
                 "rtol" := 0.01%float ]}%string
              (Scalar.zero Scalar.sq2) o')
    as (H1 & H2 & _ & H4 & _ & H6 & H7 & H8 & H9).
  - vm_compute. apply perm_swap.
  - vm_compute. reflexivity.
  - rewrite H1, H2, H4, H6, H7, H8, H9. vm_compute. repeat split; reflexivity.
Defined.

(** X17: [Init] prepares the options and the work space only: it does not
    touch [lsReady], the linear solver, the output callback, [It] or the
    counters.  So a solver that is initialised again after a [Solve] with
    the sparse solver keeps [lsReady], and the next [Solve] does not call
    the initialisation of the linear solver. *)
Theorem Init_keeps_linear_solver {la : LinAlg} (kvs : list (string * float))
    (neq0 : Z) (F : Vv) (Jsp : option (Tv la)) (Jdn : option (Mv la))
    (useDn0 numJ0 : bool) (o o' : NlSolver la) :
  Init_in_order kvs neq0 F Jsp Jdn useDn0 numJ0 o = Ok o' ->
  lsReady o' = lsReady o /\ lis o' = lis o /\ Out o' = Out o /\
  It o' = It o /\ NFeval o' = NFeval o /\ NJeval o' = NJeval o /\
  (lsReady o = true ->
   forall x silent s', Solve o' x silent = Ok s' ->
     count is_lis_init (trace s') = 0).
Proof.
  intros HI.
  destruct (Init_in_order_read _ _ _ _ _ _ _ _ _ HI)
    as (o1 & a & r & f & Hread & _ & _ & Hk).
  apply read_params_keeps in Hread. rewrite Hread in Hk.
  injection Hk as H1 H2 H3 H4 H5 H6.
  repeat (split; [assumption|]).
  intros Hr x silent s' HS. apply Solve_calls_after in HS.
  destruct HS as (s1 & n & -> & _ & (_ & _ & _ & Hi & _) & _).
  rewrite output_count by reflexivity.
  rewrite Hi, H1, Hr, orb_true_r. reflexivity.
Qed.

Lemma Init_keeps_linear_solver_witness :
  let o := slv (Scalar.the_state (Solve Scalar.o_loose [1%float] true)) in
  let o' :=
    Scalar.the_solver
      (Init_in_order [] 1 Scalar.sq2 (Some (Scalar.sq2_J : Tv Scalar.la1))
         None false false o) in
  lsReady o' = true /\
  count is_lis_init
    (trace (Scalar.the_state (Solve o' [1%float] true))) = 0.
Proof.
  intros o o'.
  destruct (Init_keeps_linear_solver [] 1 Scalar.sq2
              (Some (Scalar.sq2_J : Tv Scalar.la1)) None false false o o')
    as (H1 & _ & _ & _ & _ & _ & H7); [vm_compute; reflexivity|].
  split; [rewrite H1; vm_compute; reflexivity|].
  apply (H7 ltac:(vm_compute; reflexivity) [1%float] true).
  vm_compute. reflexivity.
Defined.

(** ** The dense solution *)

Lemma dot_from_snoc (a : Z -> float) (u : list float) (f : float) (j : Z)
    (acc : float) :
  dot_from a j (u ++ [f]) acc =
  (dot_from a j u acc + a (j + Z.of_nat (length u))%Z * f)%float.
Proof.
  revert j acc. induction u as [|g u IH]; intros j acc; cbn [dot_from app].
  - cbn [length]. rewrite Z.add_0_r. reflexivity.
  - rewrite IH. cbn [length].
    replace (j + 1 + Z.of_nat (length u)) with (j + Z.of_nat (S (length u)))
      by lia.
    reflexivity.
Qed.

Lemma dot_from_step (a : Z -> float) (u : Vector) (j : Z) (f acc : float) :
  0 <= j -> u !! Z.to_nat j = Some f ->
  dot_from a 0 (take (Z.to_nat (j + 1)) u) acc =
  (dot_from a 0 (take (Z.to_nat j) u) acc + a j * f)%float.
Proof.
  intros Hj Hf. rewrite Z2Nat.inj_add by lia.
  change (Z.to_nat 1) with 1%nat. rewrite Nat.add_1_r.
  rewrite (take_S_r _ _ _ Hf), dot_from_snoc.
  apply lookup_lt_Some in Hf. rewrite length_take.
  replace (0 + Z.of_nat (Z.to_nat j `min` length u)) with j by lia.
  reflexivity.
Qed.

Section Dense.

Context {la : LinAlg}.
Implicit Types (o : NlSolver la) (s : state la).

(** The inner loop adds row [i] of [Ji·fx] to [mdx_i] and of [tra(J)·fx]
    to [dφdx_i], and touches nothing else. *)
Lemma dense_rows_spec (i : Z) o o' (m d : float) :
  0 <= i ->
  mdx o !! Z.to_nat i = Some m -> dφdx o !! Z.to_nat i = Some d ->
  for_range (neq o) (dense_row i) o = Ok o' ->
  (Ji o', J o', fx o', neq o', φ o') = (Ji o, J o, fx o, neq o, φ o) /\
  mdx o' !! Z.to_nat i =
    Some (dot_from (fun j => Matrix_Get la (Ji o) i j) 0
            (take (Z.to_nat (neq o)) (fx o)) m) /\
  dφdx o' !! Z.to_nat i =
    Some (dot_from (fun j => Matrix_Get la (J o) j i) 0
            (take (Z.to_nat (neq o)) (fx o)) d) /\
  (forall i' : nat, i' <> Z.to_nat i ->
     mdx o' !! i' = mdx o !! i' /\ dφdx o' !! i' = dφdx o !! i').
Proof.
  intros Hi Hm Hd H. unfold for_range in H.
  apply (for_from_ind (fun j o1 =>
           0 <= j /\
           (Ji o1, J o1, fx o1, neq o1, φ o1) = (Ji o, J o, fx o, neq o, φ o) /\
           mdx o1 !! Z.to_nat i =
             Some (dot_from (fun j => Matrix_Get la (Ji o) i j) 0
                     (take (Z.to_nat j) (fx o)) m) /\
           dφdx o1 !! Z.to_nat i =
             Some (dot_from (fun j => Matrix_Get la (J o) j i) 0
                     (take (Z.to_nat j) (fx o)) d) /\
           (forall i' : nat, i' <> Z.to_nat i ->
              mdx o1 !! i' = mdx o !! i' /\ dφdx o1 !! i' = dφdx o !! i')))
    in H.
  - destruct H as (_ & Hfr & H1 & H2 & H3).
    rewrite Z.add_0_l, Nat2Z.id in H1, H2. auto.
  - clear Hm Hd H. intros j o1 o2 (Hj & Hfr & H1 & H2 & H3) H.
    injection Hfr as HJi HJ Hfx Hn Hφ.
    unfold dense_row in H. inv_ok.
    cbn [mdx dφdx fx Ji J neq φ set_mdx set_dφdx] in *.
    repeat match goal with
    | H : vget _ _ = Ok _ |- _ => apply vget_Ok in H as [_ H]
    | H : vset _ _ _ = Ok _ |- _ => apply vset_Ok in H as (_ & ? & ->)
    end.
    unfold Vector in *.
    split; [lia|]. split; [congruence|].
    rewrite !list_lookup_insert_eq by assumption.
    repeat match goal with
    | H : <[_:=_]> _ !! _ = Some _ |- _ =>
        rewrite list_lookup_insert_ne in H by congruence
    end.
    rewrite Hfx in *.
    split; [|split].
    + rewrite (dot_from_step _ _ _ _ _ Hj E0). congruence.
    + rewrite (dot_from_step _ _ _ _ _ Hj E0). congruence.
    + intros i' Hne. rewrite !list_lookup_insert_ne by congruence.
      apply H3, Hne.
  - split; [lia|]. split; [reflexivity|]. auto.
Qed.

Lemma sq_upto_step (u : Vector) (i : Z) (f acc : float) :
  0 <= i -> u !! Z.to_nat i = Some f ->
  fold_left (fun acc f => (acc + f * f)%float) (take (Z.to_nat (i + 1)) u)
    acc =
  (fold_left (fun acc f => (acc + f * f)%float) (take (Z.to_nat i) u) acc
   + f * f)%float.
Proof.
  intros Hi Hf. rewrite Z2Nat.inj_add by lia.
  change (Z.to_nat 1) with 1%nat. rewrite Nat.add_1_r.
  rewrite (take_S_r _ _ _ Hf), fold_left_app. reflexivity.
Qed.

(** The outer loop: every row below [neq], and the sum of squares. *)
Lemma dense_loop_spec o0 o' :
  for_range (neq o0)
    (fun i o =>
       v ← vset (mdx o) i 0%float;
       u ← vset (dφdx o) i 0%float;
       let o := set_dφdx u (set_mdx v o) in
       o ← for_range (neq o) (dense_row i) o;
       fi ← vget (fx o) i;
       Ok (set_φ (φ o + fi * fi)%float o)) o0 = Ok o' ->
  (Ji o', J o', fx o', neq o') = (Ji o0, J o0, fx o0, neq o0) /\
  φ o' =
    fold_left (fun acc f => (acc + f * f)%float)
      (take (Z.to_nat (neq o0)) (fx o0)) (φ o0) /\
  (forall i : nat, Z.of_nat i < neq o0 ->
     mdx o' !! i =
       Some (dot_upto (fun j => Matrix_Get la (Ji o0) (Z.of_nat i) j)
               (fx o0) (neq o0)) /\
     dφdx o' !! i =
       Some (dot_upto (fun j => Matrix_Get la (J o0) j (Z.of_nat i))
               (fx o0) (neq o0))).
Proof.
  intros H. unfold for_range in H.
  apply (for_from_ind (fun i o1 =>
           0 <= i /\
           (Ji o1, J o1, fx o1, neq o1) = (Ji o0, J o0, fx o0, neq o0) /\
           φ o1 =
             fold_left (fun acc f => (acc + f * f)%float)
               (take (Z.to_nat i) (fx o0)) (φ o0) /\
           (forall i' : nat, Z.of_nat i' < i ->
              mdx o1 !! i' =
                Some (dot_upto (fun j => Matrix_Get la (Ji o0) (Z.of_nat i') j)
                        (fx o0) (neq o0)) /\
              dφdx o1 !! i' =
                Some (dot_upto (fun j => Matrix_Get la (J o0) j (Z.of_nat i'))
                        (fx o0) (neq o0)))))
    in H.
  - destruct H as (_ & Hfr & Hφ & Hrows).
    rewrite Z.add_0_l, Nat2Z.id in Hφ.
    split; [exact Hfr|]. split; [exact Hφ|].
    intros i Hi. apply Hrows. lia.
  - clear H. intros i o1 o2 (Hi & Hfr & Hφ & Hrows) H.
    injection Hfr as HJi HJ Hfx Hn.
    inv_bind H. inv_bind H. cbv zeta in H. inv_bind H. inv_bind H.
    injection H as <-.
    apply vset_Ok in E as (_ & Hlm & ->).
    apply vset_Ok in E0 as (_ & Hld & ->).
    apply vget_Ok in E2 as [_ Hfi].
    unfold Vector in *.
    apply (dense_rows_spec i _ _ 0%float 0%float Hi) in E1;
      [| cbn [mdx dφdx set_mdx set_dφdx];
         apply list_lookup_insert_eq; assumption
       | cbn [mdx dφdx set_mdx set_dφdx];
         apply list_lookup_insert_eq; assumption ].
    cbn [mdx dφdx fx Ji J neq φ set_mdx set_dφdx] in E1.
    destruct E1 as (Hfr & Hm & Hd & Hother).
    injection Hfr as HJi1 HJ1 Hfx1 Hn1 Hφ1.
    cbn [mdx dφdx fx Ji J neq φ set_φ]. unfold Vector in *.
    split; [lia|]. split; [congruence|]. split.
    + rewrite Hfx1, Hfx in Hfi.
      rewrite (sq_upto_step _ _ _ _ Hi Hfi), Hφ1, Hφ. reflexivity.
    + intros i' Hi'. destruct (decide (i' = Z.to_nat i)) as [->|Hne].
      * rewrite Hm, Hd, HJi, HJ, Hfx, Hn, Z2Nat.id by lia.
        unfold dot_upto. auto.
      * destruct (Hother i' Hne) as [-> ->].
        rewrite !list_lookup_insert_ne by congruence.
        apply Hrows. lia.
  - split; [lia|]. split; [reflexivity|]. split; [reflexivity|].
    intros i' Hi'. lia.
Qed.

(** The whole dense solution. *)
Lemma dense_solution_spec s s' :
  dense_solution s = Ok s' ->
  exists ji, MatInv la (Ji (slv s)) (J (slv s)) = Some ji /\
    (Ji (slv s'), J (slv s'), fx (slv s'), xs s') =
    (ji, J (slv s), fx (slv s), xs s) /\
    φ (slv s') = (sq_upto (fx (slv s)) (neq (slv s)) * 0.5)%float /\
    (forall i : nat, Z.of_nat i < neq (slv s) ->
       mdx (slv s') !! i =
         Some (dot_upto (fun j => Matrix_Get la ji (Z.of_nat i) j)
                 (fx (slv s)) (neq (slv s))) /\
       dφdx (slv s') !! i =
         Some (dot_upto (fun j => Matrix_Get la (J (slv s)) j (Z.of_nat i))
                 (fx (slv s)) (neq (slv s)))).
Proof.
  unfold dense_solution. intros H.
  destruct (MatInv la (Ji (slv s)) (J (slv s))) as [ji|]; [|discriminate H].
  cbn [of_option mbind result_bind] in H. cbv zeta in H. inv_bind H.
  injection H as <-. exists ji. split; [reflexivity|].
  apply dense_loop_spec in E.
  cbn [mdx dφdx fx Ji J neq φ set_φ set_Ji] in E.
  destruct E as (Hfr & Hφ & Hrows). injection Hfr as HJi HJ Hfx Hn.
  cbn [slv xs emit upd mdx dφdx fx Ji J neq φ set_φ].
  split; [congruence|]. split; [rewrite Hφ; reflexivity|]. exact Hrows.
Qed.

End Dense.

(** X18: the dense solution is the product with the inverse: after it
    [Ji] is the matrix that [la.MatInv] gave for [J], and for every
    [i < neq], [mdx_i = sum_j Ji(i,j)·fx_j] and
    [dφdx_i = sum_j J(j,i)·fx_j] with [j] running over [0..neq-1] in
    order from 0, and [φ = 0.5·sum_i fx_i·fx_i]; [J], [fx] and [x] are
    left as they were. *)
Theorem dense_solution_is_inverse_times_residual {la : LinAlg}
    (s s' : state la) :
  dense_solution s = Ok s' ->
  exists ji, MatInv la (Ji (slv s)) (J (slv s)) = Some ji /\
    (Ji (slv s'), J (slv s'), fx (slv s'), xs s') =
    (ji, J (slv s), fx (slv s), xs s) /\
    φ (slv s') = (sq_upto (fx (slv s)) (neq (slv s)) * 0.5)%float /\
    (forall i : nat, Z.of_nat i < neq (slv s) ->
       mdx (slv s') !! i =
         Some (dot_upto (fun j => Matrix_Get la ji (Z.of_nat i) j)
                 (fx (slv s)) (neq (slv s))) /\
       dφdx (slv s') !! i =
         Some (dot_upto (fun j => Matrix_Get la (J (slv s)) j (Z.of_nat i))
                 (fx (slv s)) (neq (slv s)))).
Proof. apply dense_solution_spec. Qed.

Lemma dense_solution_is_inverse_times_residual_witness :
  let s :=
    Scalar.the_state
      (eval_jacobian (Scalar.the_state (enter More.o_dense [1%float] true))) in
  let s' := Scalar.the_state (dense_solution s) in
  mdx (slv s') !! 0%nat = Some (-0.5)%float /\
  dφdx (slv s') !! 0%nat = Some (-2)%float /\
  φ (slv s') = 0.5%float.
Proof.
  intros s s'.
  destruct (dense_solution_is_inverse_times_residual s s')
    as (ji & Hji & _ & Hφ & Hrows); [vm_compute; reflexivity|].
  destruct (Hrows 0%nat ltac:(vm_compute; reflexivity)) as [Hm Hd].
  vm_compute in Hji. injection Hji as <-.
  split; [rewrite Hm; vm_compute; reflexivity|].
  split; [rewrite Hd; vm_compute; reflexivity|].
  rewrite Hφ. vm_compute. reflexivity.
Defined.

(** ** The increment after the line search *)

Section Search.

Context {la : LinAlg}.
Implicit Types (o : NlSolver la) (s : state la).

Lemma line_search_spec s s' (n : Z) (x' fx' : Vector) :
  LineSearch la (xs s) (fx (slv s)) (Ffcn (slv s)) (mdx (slv s)) (x0 (slv s))
    (dφdx (slv s)) (φ (slv s)) (linSchMaxIt (slv s)) true = (n, x', fx') ->
  line_search s = Ok s' ->
  xs s' = x' /\ fx (slv s') = fx' /\
  Ldx s' =
    scaled_rms (zip_with (fun a b => (a - b)%float) x' (x0 (slv s)))
      (scal (slv s)) (neq (slv s)) /\
  fxMax s' = Largest fx' 1.
Proof.
  intros HL H. unfold line_search in H. cbv zeta in H. rewrite HL in H.
  inv_bind H. injection H as <-. unfold for_range in E.
  apply (for_from_ind (fun j t =>
           0 <= j /\
           (xs t, x0 (slv t), scal (slv t), neq (slv t), fx (slv t)) =
           (x', x0 (slv s), scal (slv s), neq (slv s), fx') /\
           Ldx t =
             fold_left sq_term
               (zip (take (Z.to_nat j)
                       (zip_with (fun a b => (a - b)%float) x' (x0 (slv s))))
                    (take (Z.to_nat j) (scal (slv s)))) 0%float))
    in E.
  - destruct E as (_ & Hfr & HLdx). injection Hfr as Hx Hx0 Hsc Hn Hfx.
    change (neq (slv (set_Ldx 0 (upd
              (fun o => set_NFeval (GoInt.add (NFeval o)
                 (nfv (emit (EvLineSearch (xs s))
                         (set_nfv n (set_xs x' (upd (set_fx fx') s)))))) o)
              (emit (EvLineSearch (xs s))
                 (set_nfv n (set_xs x' (upd (set_fx fx') s))))))))
      with (neq (slv s)) in HLdx.
    rewrite Z.add_0_l, Nat2Z.id in HLdx.
    cbn [xs slv Ldx fxMax set_fxMax set_Ldx upd].
    unfold scaled_rms. rewrite HLdx, Hn, Hfx. auto.
  - clear E HL. intros j t t' (Hj & Hfr & HLdx) H.
    injection Hfr as Hx Hx0 Hsc Hn Hfx.
    inv_bind H. inv_bind H. inv_bind H. injection H as <-.
    apply vget_Ok in E as [_ Hxi]. apply vget_Ok in E0 as [_ Hx0i].
    apply vget_Ok in E1 as [_ Hsci].
    cbn [xs slv Ldx set_Ldx].
    split; [lia|]. split; [congruence|].
    rewrite HLdx. symmetry. rewrite Hx in Hxi. rewrite Hx0 in Hx0i.
    rewrite Hsc in Hsci. apply sq_sum_step; [assumption| |assumption].
    unfold Vector in *. rewrite lookup_zip_with, Hxi. cbn. rewrite Hx0i.
    reflexivity.
  - split; [lia|]. split; reflexivity.
Qed.

End Search.

(** X19: after the line search the norm of the increment is taken again,
    from the step actually made: [x] and [fx] are those that [LineSearch]
    left, [Ldx = sqrt((1/neq)·sum_i ((x_i - x0_i)/scal_i)^2)], where [x0]
    is the [x] of the start of the pass, and [fxMax] is the largest
    [|fx_i|]. *)
Theorem line_search_increment_norm {la : LinAlg} (s s' : state la) (n : Z)
    (x' fx' : Vector) :
  LineSearch la (xs s) (fx (slv s)) (Ffcn (slv s)) (mdx (slv s)) (x0 (slv s))
    (dφdx (slv s)) (φ (slv s)) (linSchMaxIt (slv s)) true = (n, x', fx') ->
  line_search s = Ok s' ->
  xs s' = x' /\ fx (slv s') = fx' /\
  Ldx s' =
    scaled_rms (zip_with (fun a b => (a - b)%float) x' (x0 (slv s)))
      (scal (slv s)) (neq (slv s)) /\
  fxMax s' = Largest fx' 1.
Proof. apply line_search_spec. Qed.

Lemma line_search_increment_norm_witness :
  let s :=
    Scalar.the_state
      (newton_update true
         (Scalar.the_state (enter Scalar.o_loose [1%float] true))) in
  let s' := Scalar.the_state (line_search s) in
  xs s' = [1.5%float] /\
  Ldx s' = scaled_rms [0.5%float] (scal (slv s)) 1.
Proof.
  intros s s'.
  destruct (line_search_increment_norm s s' 0 [1.5%float] [0.25%float])
    as (Hx & _ & HL & _); [vm_compute; reflexivity ..|].
  split; [exact Hx|]. rewrite HL. vm_compute. reflexivity.
Defined.
